(** * Circuitos electronicos como grafos: busqueda hamiltoniana y eficiencia

    Shallow embedding of [main.py]: the classes [CircuitoElectronico] and
    [AnalizadorHamiltoniano].  A circuit is a mutable Python object, so every
    method is a computation over the circuit it is called on: it returns a
    value or raises, and leaves a circuit behind.  Python dictionaries keep
    insertion order, and the search depends on that order, so dictionaries
    are association lists with unique keys.  [networkx.Graph], which the
    circuit owns, is modelled through the operations the program calls
    ([add_node], [add_edge], [nodes], [neighbors], [has_edge]), with the
    behaviour the library documents for them.  Weights are Python floats;
    the evaluator is written over the four arithmetic operations it uses,
    and read in binary64, as it runs. *)

From Stdlib Require Import String Bool Arith Lia ZArith QArith.
From Stdlib Require Import Floats.PrimFloat.
From Stdlib Require Import List.
Import ListNotations.
Open Scope nat_scope.
Open Scope list_scope.

Set Implicit Arguments.

(** ** Keys of a dictionary *)

(** What Python asks of a dictionary key: an equality test (hashing is an
    implementation device of the interpreter and is not observable here). *)
Class Hashable (K : Type) := {
  key_eqb : K -> K -> bool;
  key_eqb_spec : forall a b : K, reflect (a = b) (key_eqb a b)
}.

Lemma pair_eqb_spec {A B : Type} `{Hashable A} `{Hashable B} (p q : A * B) :
  reflect (p = q) (key_eqb (fst p) (fst q) && key_eqb (snd p) (snd q)).
Proof.
  destruct p as [a b], q as [a' b']; simpl.
  destruct (key_eqb_spec a a') as [->|Ha]; simpl.
  - destruct (key_eqb_spec b b') as [->|Hb]; constructor; congruence.
  - constructor; congruence.
Qed.

#[export] Instance Hashable_string : Hashable string :=
  {| key_eqb := String.eqb; key_eqb_spec := String.eqb_spec |}.

#[export] Instance Hashable_pair {A B : Type} `{Hashable A} `{Hashable B} :
  Hashable (A * B) :=
  {| key_eqb := fun p q => key_eqb (fst p) (fst q) && key_eqb (snd p) (snd q);
     key_eqb_spec := pair_eqb_spec |}.

Lemma key_eqb_refl {K : Type} `{Hashable K} (k : K) : key_eqb k k = true.
Proof. destruct (key_eqb_spec k k); congruence. Qed.

Lemma key_eqb_neq {K : Type} `{Hashable K} (a b : K) : a <> b -> key_eqb a b = false.
Proof. intro Hab. destruct (key_eqb_spec a b); congruence. Qed.

(** ** Python dictionaries *)

Module Dict.
Section Dict.
Context {K V : Type} `{Hashable K}.

(** Entries in insertion order; the operations below keep keys unique. *)
Definition t := list (K * V).

Definition empty : t := [].

(** [d.get(k)] *)
Fixpoint get (d : t) (k : K) : option V :=
  match d with
  | [] => None
  | (k', v) :: d' => if key_eqb k' k then Some v else get d' k
  end.

(** [k in d] *)
Definition mem (d : t) (k : K) : bool :=
  match get d k with Some _ => true | None => false end.

(** [d[k] = v]: an existing key keeps its place, a new one goes last. *)
Fixpoint set (d : t) (k : K) (v : V) : t :=
  match d with
  | [] => [(k, v)]
  | (k', v') :: d' =>
      if key_eqb k' k then (k', v) :: d' else (k', v') :: set d' k v
  end.

(** [list(d)]: the keys in iteration order. *)
Definition keys (d : t) : list K := map fst d.

(** [len(d)] *)
Definition len (d : t) : nat := length d.

Lemma get_set_same (d : t) (k : K) (v : V) : get (set d k v) k = Some v.
Proof.
  induction d as [|[k' v'] d IH]; simpl.
  - now rewrite key_eqb_refl.
  - destruct (key_eqb k' k) eqn:E; simpl; rewrite E; auto.
Qed.

Lemma get_set_other (d : t) (k k2 : K) (v : V) :
  k <> k2 -> get (set d k v) k2 = get d k2.
Proof.
  intro Hne. induction d as [|[k' v'] d IH]; simpl.
  - now rewrite key_eqb_neq.
  - destruct (key_eqb_spec k' k) as [->|Hk]; simpl.
    + now rewrite key_eqb_neq.
    + now rewrite IH.
Qed.

Lemma mem_set_same (d : t) (k : K) (v : V) : mem (set d k v) k = true.
Proof. unfold mem. now rewrite get_set_same. Qed.

Lemma mem_set_other (d : t) (k k2 : K) (v : V) :
  k <> k2 -> mem (set d k v) k2 = mem d k2.
Proof. intro Hne. unfold mem. now rewrite get_set_other. Qed.

Lemma mem_set_mono (d : t) (k k2 : K) (v : V) :
  mem d k2 = true -> mem (set d k v) k2 = true.
Proof.
  intro Hm. destruct (key_eqb_spec k k2) as [->|Hne].
  - apply mem_set_same.
  - now rewrite mem_set_other.
Qed.

Lemma mem_keys (d : t) (k : K) : mem d k = true <-> In k (keys d).
Proof.
  unfold mem. induction d as [|[k' v'] d IH]; simpl.
  - split; [discriminate | tauto].
  - destruct (key_eqb_spec k' k) as [->|Hk].
    + split; auto.
    + rewrite IH. split; [auto | intros [?|?]; congruence].
Qed.

Lemma get_In (d : t) (k : K) (v : V) : get d k = Some v -> In (k, v) d.
Proof.
  induction d as [|[k' v'] d IH]; simpl; [discriminate|].
  destruct (key_eqb_spec k' k) as [->|Hk].
  - intros [= ->]. now left.
  - intro Hg. right. now apply IH.
Qed.

(** Assigning to a key that is present changes no key and no position. *)
Lemma keys_set_present (d : t) (k : K) (v : V) :
  mem d k = true -> keys (set d k v) = keys d.
Proof.
  unfold mem. induction d as [|[k' v'] d IH]; simpl.
  - discriminate.
  - destruct (key_eqb k' k) eqn:E; simpl; auto.
    intro Hm. now rewrite IH.
Qed.

(** Assigning to a new key appends it. *)
Lemma keys_set_absent (d : t) (k : K) (v : V) :
  mem d k = false -> keys (set d k v) = keys d ++ [k].
Proof.
  unfold mem. induction d as [|[k' v'] d IH]; simpl.
  - reflexivity.
  - destruct (key_eqb k' k) eqn:E; simpl.
    + discriminate.
    + intro Hm. now rewrite IH.
Qed.
End Dict.
Arguments t : clear implicits.
End Dict.

(** ** Identifiers, outcomes *)

(** Component ids are the strings typed into the interface. *)
Definition Id := string.

(** The optional placement of a component on the drawing. *)
Definition Posicion := (Z * Z)%type.

(** The exceptions the modelled code can raise.  [RecursionError] is the
    interpreter's, raised by a call for which the stack has no room. *)
Inductive excepcion :=
| NetworkXError | IndexError | KeyError | ZeroDivisionError | RecursionError.

Inductive resultado (A : Type) :=
| Retorna (a : A)
| Lanza (e : excepcion).
Arguments Retorna {A} a.
Arguments Lanza {A} e.

(** ** networkx.Graph *)

(** An undirected graph as networkx keeps it: the nodes in insertion order,
    each with its attributes and its neighbours in the order the edges
    reached it.  Nothing here forces a neighbour to be a node or adjacency
    to be symmetric: those hold for graphs built with [add_node] and
    [add_edge], and a value without them stands for a corrupted graph. *)
Module nx.
Record NodeData := {
  pos : option Posicion;
  adj : Dict.t Id unit
}.

Definition Graph := Dict.t Id NodeData.

(** [nx.Graph()] *)
Definition Graph_init : Graph := Dict.empty.

(** [G.add_node(n)]: a node already present is left as it is. *)
Definition add_node (G : Graph) (n : Id) : Graph :=
  if Dict.mem G n then G
  else Dict.set G n {| pos := None; adj := Dict.empty |}.

(** [G.adj[u][v] = {}] for a node [u] of the graph. *)
Definition link (G : Graph) (u v : Id) : Graph :=
  match Dict.get G u with
  | Some d => Dict.set G u {| pos := pos d; adj := Dict.set (adj d) v tt |}
  | None => G
  end.

(** [G.add_edge(u, v)]: missing endpoints are created, then each endpoint
    is recorded as a neighbour of the other. *)
Definition add_edge (G : Graph) (u v : Id) : Graph :=
  let G1 := add_node G u in
  let G2 := add_node G1 v in
  link (link G2 u v) v u.

(** [G.nodes[n]['pos'] = p]; [None] stands for the [KeyError] of a
    missing node. *)
Definition set_pos (G : Graph) (n : Id) (p : Posicion) : option Graph :=
  match Dict.get G n with
  | Some d => Some (Dict.set G n {| pos := Some p; adj := adj d |})
  | None => None
  end.

(** [list(G.nodes())] *)
Definition nodes (G : Graph) : list Id := Dict.keys G.

(** [G.neighbors(n)]; [None] stands for the [NetworkXError] raised for a
    node that is not in the graph. *)
Definition neighbors (G : Graph) (n : Id) : option (list Id) :=
  match Dict.get G n with
  | Some d => Some (Dict.keys (adj d))
  | None => None
  end.

(** [G.has_edge(u, v)]: false, never an error, for a missing node. *)
Definition has_edge (G : Graph) (u v : Id) : bool :=
  match Dict.get G u with
  | Some d => Dict.mem (adj d) v
  | None => false
  end.
End nx.

(** ** Numbers *)

(** The arithmetic the efficiency evaluator uses: the literals [0] and
    [1.0], [+] and [/].  [dividir] is [None] where Python raises
    [ZeroDivisionError]. *)
Class Aritmetica (N : Type) := {
  cero : N;
  uno : N;
  sumar : N -> N -> N;
  dividir : N -> N -> option N
}.

(** Python's [float]: IEEE 754 binary64, as the program runs. *)
#[export] Instance binary64 : Aritmetica float := {|
  cero := 0%float;
  uno := 1%float;
  sumar := PrimFloat.add;
  dividir := fun a b =>
    if PrimFloat.eqb b 0%float then None else Some (PrimFloat.div a b)
|}.

(** ** The circuit and its methods *)

Section Circuito.
Context {N : Type} `{Aritmetica N}.

(** The attributes of a [CircuitoElectronico] object. *)
Record CircuitoElectronico := {
  nombre : string;
  grafo : nx.Graph;
  componentes : Dict.t Id string;
  conexiones : Dict.t (Id * Id) N
}.

(** [CircuitoElectronico(nombre)] *)
Definition CircuitoElectronico_init (nombre : string) : CircuitoElectronico :=
  {| nombre := nombre;
     grafo := nx.Graph_init;
     componentes := Dict.empty;
     conexiones := Dict.empty |}.

Definition con_grafo (self : CircuitoElectronico) (G : nx.Graph) :=
  {| nombre := nombre self; grafo := G;
     componentes := componentes self; conexiones := conexiones self |}.

Definition con_componentes (self : CircuitoElectronico) (d : Dict.t Id string) :=
  {| nombre := nombre self; grafo := grafo self;
     componentes := d; conexiones := conexiones self |}.

Definition con_conexiones (self : CircuitoElectronico) (d : Dict.t (Id * Id) N) :=
  {| nombre := nombre self; grafo := grafo self;
     componentes := componentes self; conexiones := d |}.

(** A method call: run on the circuit, it returns or raises, and the
    circuit is as the call left it. *)
Definition M (A : Type) : Type :=
  CircuitoElectronico -> resultado A * CircuitoElectronico.

Definition ret {A : Type} (a : A) : M A := fun self => (Retorna a, self).

Definition lanzar {A : Type} (e : excepcion) : M A := fun self => (Lanza e, self).

Definition bind {A B : Type} (m : M A) (k : A -> M B) : M B :=
  fun self =>
    match m self with
    | (Retorna a, self') => k a self'
    | (Lanza e, self') => (Lanza e, self')
    end.

(** Reading an attribute of [self]. *)
Definition leer : M CircuitoElectronico := fun self => (Retorna self, self).

(** Assigning into [self]. *)
Definition modificar (f : CircuitoElectronico -> CircuitoElectronico) : M unit :=
  fun self => (Retorna tt, f self).

(** [try: m  except: h] with a bare [except], which catches everything. *)
Definition intentar {A : Type} (m h : M A) : M A :=
  fun self =>
    match m self with
    | (Retorna a, self') => (Retorna a, self')
    | (Lanza _, self') => h self'
    end.

Notation "x <- m ;; k" := (bind m (fun x => k))
  (at level 61, m at next level, right associativity).
Notation "m ;; k" := (bind m (fun _ => k))
  (at level 61, right associativity).

(** *** CircuitoElectronico *)

Definition agregar_componente
    (id_componente : Id) (tipo : string) (posicion : option Posicion) : M unit :=
  modificar (fun self => con_grafo self (nx.add_node (grafo self) id_componente)) ;;
  modificar (fun self =>
    con_componentes self (Dict.set (componentes self) id_componente tipo)) ;;
  match posicion with
  | Some p =>
      self <- leer ;;
      match nx.set_pos (grafo self) id_componente p with
      | Some G => modificar (fun self => con_grafo self G)
      | None => lanzar KeyError
      end
  | None => ret tt
  end.

Definition agregar_conexion (comp1 comp2 : Id) (resistencia : N) : M unit :=
  modificar (fun self => con_grafo self (nx.add_edge (grafo self) comp1 comp2)) ;;
  modificar (fun self =>
    con_conexiones self (Dict.set (conexiones self) (comp1, comp2) resistencia)).

(** *** Python list and dictionary access *)

(** [l[i]] for [i >= 0] *)
Definition getitem (l : list Id) (i : nat) : M Id :=
  match nth_error l i with
  | Some x => ret x
  | None => lanzar IndexError
  end.

(** [l[-1]] *)
Definition getitem_ultimo (l : list Id) : M Id :=
  match l with
  | [] => lanzar IndexError
  | _ :: _ => getitem l (length l - 1)
  end.

(** [d[k]] *)
Definition dict_getitem {K V : Type} `{Hashable K} (d : Dict.t K V) (k : K) : M V :=
  match Dict.get d k with
  | Some v => ret v
  | None => lanzar KeyError
  end.

(** [x in s] for a set of ids, kept as a list. *)
Definition pertenece (x : Id) (s : list Id) : bool := existsb (key_eqb x) s.

(** The truth value of a result that is [None] or a list: [None] and the
    empty list are false. *)
Definition verdadero (r : option (list Id)) : bool :=
  match r with
  | Some (_ :: _) => true
  | _ => false
  end.

(** *** AnalizadorHamiltoniano *)

(** [self.circuito.grafo.neighbors(n)] *)
Definition vecinos_de (n : Id) : M (list Id) :=
  self <- leer ;;
  match nx.neighbors (grafo self) n with
  | Some vs => ret vs
  | None => lanzar NetworkXError
  end.

(** The loop both searches share:
    [for x in xs: r = cuerpo(x); if r: return r] followed by
    [return None].  An iteration that does nothing is a body that gives
    [None]. *)
Fixpoint para_cada (xs : list Id) (cuerpo : Id -> M (option (list Id)))
  : M (option (list Id)) :=
  match xs with
  | [] => ret None
  | x :: resto =>
      r <- cuerpo x ;;
      if verdadero r then ret r else para_cada resto cuerpo
  end.

(** The inner function of [encontrar_camino_hamiltoniano].  [nodos] is the
    variable it closes over.  The function calls itself, and Python bounds
    the depth of calls: [limite] is the number of calls of [backtrack] that
    the interpreter still lets nest one inside the other.  A call for which
    there is no room raises [RecursionError] before its body runs, and the
    calls made from its body have room for one call fewer. *)
Fixpoint backtrack (limite : nat) (nodos camino visitados : list Id)
  : M (option (list Id)) :=
  match limite with
  | O => lanzar RecursionError
  | S limite' =>
      if length camino =? length nodos then ret (Some camino)
      else
        ultimo_nodo <- getitem_ultimo camino ;;
        vecinos <- vecinos_de ultimo_nodo ;;
        para_cada vecinos (fun vecino =>
          if negb (pertenece vecino visitados) then
            let nuevo_camino := camino ++ [vecino] in
            let nuevos_visitados := vecino :: visitados in
            backtrack limite' nodos nuevo_camino nuevos_visitados
          else ret None)
  end.

(** The three methods that search take, as [limite], the depth of calls of
    [backtrack] that the interpreter has room for when the search starts:
    its recursion limit (1000 unless the program changes it, which this one
    does not) less the frames in use at that moment.  The calls into the
    libraries, which do not recurse, are taken to fit. *)
Definition encontrar_camino_hamiltoniano (limite : nat) : M (option (list Id)) :=
  self <- leer ;;
  let nodos := nx.nodes (grafo self) in
  if length nodos <? 2 then ret (Some nodos)
  else
    para_cada nodos (fun inicio =>
      backtrack limite nodos [inicio] [inicio]).

Definition es_hamiltoniano (limite : nat) : M bool :=
  intentar
    (camino <- encontrar_camino_hamiltoniano limite ;;
     ret (match camino with Some _ => true | None => false end))
    (ret false).

Definition encontrar_ciclo_hamiltoniano (limite : nat) : M (option (list Id)) :=
  camino <- encontrar_camino_hamiltoniano limite ;;
  if negb (verdadero camino) then ret None
  else
    match camino with
    | None => ret None
    | Some camino =>
        ultimo <- getitem_ultimo camino ;;
        primero <- getitem camino 0 ;;
        self <- leer ;;
        if nx.has_edge (grafo self) ultimo primero then
          primero <- getitem camino 0 ;;
          ret (Some (camino ++ [primero]))
        else ret None
    end.

(** The loop of [calcular_eficiencia_energetica] over
    [range(len(camino) - 1)]. *)
Fixpoint bucle_resistencia (camino : list Id) (indices : list nat)
    (resistencia_total : N) : M N :=
  match indices with
  | [] => ret resistencia_total
  | i :: resto =>
      a <- getitem camino i ;;
      b <- getitem camino (i + 1) ;;
      let arista := (a, b) in
      self <- leer ;;
      if Dict.mem (conexiones self) arista then
        r <- dict_getitem (conexiones self) arista ;;
        bucle_resistencia camino resto (sumar resistencia_total r)
      else if Dict.mem (conexiones self) (snd arista, fst arista) then
        r <- dict_getitem (conexiones self) (snd arista, fst arista) ;;
        bucle_resistencia camino resto (sumar resistencia_total r)
      else
        bucle_resistencia camino resto (sumar resistencia_total uno)
  end.

(** [camino] is [None] or a list, as the callers pass it. *)
Definition calcular_eficiencia_energetica (camino : option (list Id)) : M N :=
  match camino with
  | None => ret cero
  | Some camino =>
      if negb (verdadero (Some camino)) || (length camino <? 2) then ret cero
      else
        resistencia_total <-
          bucle_resistencia camino (seq 0 (length camino - 1)) cero ;;
        match dividir uno (sumar uno resistencia_total) with
        | Some eficiencia => ret eficiencia
        | None => lanzar ZeroDivisionError
        end
  end.

(** ** Specification-side notions *)

(** A sequence of ids in which each one is joined to the next by an edge. *)
Fixpoint cadena (G : nx.Graph) (l : list Id) : Prop :=
  match l with
  | [] => True
  | a :: resto =>
      match resto with
      | [] => True
      | b :: _ => nx.has_edge G a b = true /\ cadena G resto
      end
  end.

(** A Hamiltonian path of [G]: every node exactly once, consecutive ids
    joined by an edge. *)
Definition camino_hamiltoniano (G : nx.Graph) (l : list Id) : Prop :=
  NoDup l /\ length l = length (nx.nodes G) /\
  (forall x, In x l -> In x (nx.nodes G)) /\ cadena G l.

(** [connectionWeight(a, b)] of the specification: the stored weight in
    either orientation, [1.0] when the pair has none. *)
Definition connectionWeight (d : Dict.t (Id * Id) N) (a b : Id) : N :=
  match Dict.get d (a, b) with
  | Some w => w
  | None =>
      match Dict.get d (b, a) with
      | Some w => w
      | None => uno
      end
  end.

(** The consecutive pairs of a sequence, first to last. *)
Fixpoint pares_consecutivos (l : list Id) : list (Id * Id) :=
  match l with
  | [] => []
  | a :: resto =>
      match resto with
      | [] => []
      | b :: _ => (a, b) :: pares_consecutivos resto
      end
  end.

(** [totalWeight] of the specification: the weights of the consecutive
    pairs added up from [0], in order. *)
Definition totalWeight (d : Dict.t (Id * Id) N) (l : list Id) : N :=
  fold_left (fun total ab => sumar total (connectionWeight d (fst ab) (snd ab)))
    (pares_consecutivos l) cero.

(** ** Reasoning about method calls *)

(** A call that leaves the circuit as it found it. *)
Definition solo_lectura {A : Type} (m : M A) : Prop :=
  forall self, snd (m self) = self.

Lemma solo_lectura_ret {A : Type} (a : A) : solo_lectura (ret a).
Proof. intro self. reflexivity. Qed.

Lemma solo_lectura_lanzar {A : Type} (e : excepcion) : solo_lectura (@lanzar A e).
Proof. intro self. reflexivity. Qed.

Lemma solo_lectura_leer : solo_lectura leer.
Proof. intro self. reflexivity. Qed.

Lemma solo_lectura_bind {A B : Type} (m : M A) (k : A -> M B) :
  solo_lectura m -> (forall a, solo_lectura (k a)) -> solo_lectura (bind m k).
Proof.
  intros Hm Hk self. unfold bind.
  specialize (Hm self). destruct (m self) as [[a|e] self']; simpl in Hm; subst.
  - apply Hk.
  - reflexivity.
Qed.

Lemma solo_lectura_intentar {A : Type} (m h : M A) :
  solo_lectura m -> solo_lectura h -> solo_lectura (intentar m h).
Proof.
  intros Hm Hh self. unfold intentar.
  specialize (Hm self). destruct (m self) as [[a|e] self']; simpl in Hm; subst.
  - reflexivity.
  - apply Hh.
Qed.

(** The value of a sequence of two calls whose first one only reads. *)
Lemma valor_bind {A B : Type} (m : M A) (k : A -> M B) self :
  solo_lectura m ->
  fst (bind m k self) =
  match fst (m self) with
  | Retorna a => fst (k a self)
  | Lanza e => Lanza e
  end.
Proof.
  intro Hm. unfold bind. specialize (Hm self).
  destruct (m self) as [[a|e] self']; simpl in *; subst; reflexivity.
Qed.

Lemma bind_retorna {A B : Type} (m : M A) (k : A -> M B) self b :
  solo_lectura m ->
  fst (bind m k self) = Retorna b ->
  exists a, fst (m self) = Retorna a /\ fst (k a self) = Retorna b.
Proof.
  intros Hm. rewrite valor_bind by assumption.
  destruct (fst (m self)) as [a|e]; [eauto | discriminate].
Qed.

Lemma solo_lectura_getitem (l : list Id) (i : nat) : solo_lectura (getitem l i).
Proof.
  unfold getitem. destruct (nth_error l i);
    [apply solo_lectura_ret | apply solo_lectura_lanzar].
Qed.

Lemma solo_lectura_getitem_ultimo (l : list Id) : solo_lectura (getitem_ultimo l).
Proof.
  destruct l; [apply solo_lectura_lanzar | apply solo_lectura_getitem].
Qed.

Lemma solo_lectura_dict_getitem {K V : Type} `{Hashable K} (d : Dict.t K V) (k : K) :
  solo_lectura (dict_getitem d k).
Proof.
  unfold dict_getitem. destruct (Dict.get d k);
    [apply solo_lectura_ret | apply solo_lectura_lanzar].
Qed.

Lemma solo_lectura_vecinos_de (n : Id) : solo_lectura (vecinos_de n).
Proof.
  unfold vecinos_de. apply solo_lectura_bind; [apply solo_lectura_leer|].
  intro self. destruct (nx.neighbors (grafo self) n);
    [apply solo_lectura_ret | apply solo_lectura_lanzar].
Qed.

Lemma solo_lectura_para_cada (xs : list Id) (cuerpo : Id -> M (option (list Id))) :
  (forall x, solo_lectura (cuerpo x)) -> solo_lectura (para_cada xs cuerpo).
Proof.
  intro Hc. induction xs as [|x xs IH]; simpl.
  - apply solo_lectura_ret.
  - apply solo_lectura_bind; [apply Hc|].
    intro r. destruct (verdadero r); [apply solo_lectura_ret | exact IH].
Qed.

Lemma solo_lectura_backtrack (k : nat) :
  forall nodos camino visitados,
    solo_lectura (backtrack k nodos camino visitados).
Proof.
  induction k as [|k IH]; intros nodos camino visitados; simpl.
  - apply solo_lectura_lanzar.
  - destruct (length camino =? length nodos); [apply solo_lectura_ret|].
    apply solo_lectura_bind; [apply solo_lectura_getitem_ultimo|].
    intro ultimo_nodo.
    apply solo_lectura_bind; [apply solo_lectura_vecinos_de|].
    intro vecinos. apply solo_lectura_para_cada.
    intro vecino. destruct (negb (pertenece vecino visitados));
      [apply IH | apply solo_lectura_ret].
Qed.

Lemma solo_lectura_encontrar_camino (limite : nat) :
  solo_lectura (encontrar_camino_hamiltoniano limite).
Proof.
  unfold encontrar_camino_hamiltoniano.
  apply solo_lectura_bind; [apply solo_lectura_leer|].
  intro self. cbv zeta.
  destruct (length (nx.nodes (grafo self)) <? 2); [apply solo_lectura_ret|].
  apply solo_lectura_para_cada. intro inicio. apply solo_lectura_backtrack.
Qed.

Lemma solo_lectura_es_hamiltoniano (limite : nat) : solo_lectura (es_hamiltoniano limite).
Proof.
  unfold es_hamiltoniano. apply solo_lectura_intentar.
  - apply solo_lectura_bind; [apply solo_lectura_encontrar_camino|].
    intro camino. apply solo_lectura_ret.
  - apply solo_lectura_ret.
Qed.

Lemma solo_lectura_encontrar_ciclo (limite : nat) :
  solo_lectura (encontrar_ciclo_hamiltoniano limite).
Proof.
  unfold encontrar_ciclo_hamiltoniano.
  apply solo_lectura_bind; [apply solo_lectura_encontrar_camino|].
  intro camino. destruct (negb (verdadero camino)); [apply solo_lectura_ret|].
  destruct camino as [camino|]; [|apply solo_lectura_ret].
  apply solo_lectura_bind; [apply solo_lectura_getitem_ultimo|]. intro ultimo.
  apply solo_lectura_bind; [apply solo_lectura_getitem|]. intro primero.
  apply solo_lectura_bind; [apply solo_lectura_leer|]. intro self.
  destruct (nx.has_edge (grafo self) ultimo primero); [|apply solo_lectura_ret].
  apply solo_lectura_bind; [apply solo_lectura_getitem|]. intro primero'.
  apply solo_lectura_ret.
Qed.

Lemma solo_lectura_bucle_resistencia (camino : list Id) (indices : list nat) :
  forall resistencia_total,
    solo_lectura (bucle_resistencia camino indices resistencia_total).
Proof.
  induction indices as [|i resto IH]; intro resistencia_total; simpl.
  - apply solo_lectura_ret.
  - apply solo_lectura_bind; [apply solo_lectura_getitem|]. intro a.
    apply solo_lectura_bind; [apply solo_lectura_getitem|]. intro b.
    apply solo_lectura_bind; [apply solo_lectura_leer|]. intro self.
    destruct (Dict.mem (conexiones self) (a, b)).
    + apply solo_lectura_bind; [apply solo_lectura_dict_getitem|].
      intro r. apply IH.
    + destruct (Dict.mem (conexiones self) (b, a)).
      * apply solo_lectura_bind; [apply solo_lectura_dict_getitem|].
        intro r. apply IH.
      * apply IH.
Qed.

Lemma solo_lectura_calcular_eficiencia (camino : option (list Id)) :
  solo_lectura (calcular_eficiencia_energetica camino).
Proof.
  unfold calcular_eficiencia_energetica.
  destruct camino as [camino|]; [|apply solo_lectura_ret].
  destruct (negb (verdadero (Some camino)) || (length camino <? 2));
    [apply solo_lectura_ret|].
  apply solo_lectura_bind; [apply solo_lectura_bucle_resistencia|].
  intro total. destruct (dividir uno (sumar uno total));
    [apply solo_lectura_ret | apply solo_lectura_lanzar].
Qed.

(** ** The path search *)

Lemma pertenece_In (x : Id) (s : list Id) : pertenece x s = true <-> In x s.
Proof.
  unfold pertenece. rewrite existsb_exists. split.
  - intros [y [Hy Heq]]. destruct (key_eqb_spec x y); [subst; auto | discriminate].
  - intro Hx. exists x. split; [assumption | apply key_eqb_refl].
Qed.

Lemma neighbors_has_edge (G : nx.Graph) (u v : Id) (vs : list Id) :
  nx.neighbors G u = Some vs -> In v vs -> nx.has_edge G u v = true.
Proof.
  unfold nx.neighbors, nx.has_edge. destruct (Dict.get G u) as [d|]; [|discriminate].
  intros [= <-] Hin. now apply Dict.mem_keys.
Qed.

Lemma vecinos_de_retorna (u : Id) (vs : list Id) self :
  fst (vecinos_de u self) = Retorna vs -> nx.neighbors (grafo self) u = Some vs.
Proof.
  unfold vecinos_de, bind, leer; simpl.
  destruct (nx.neighbors (grafo self) u); simpl; [congruence | discriminate].
Qed.

Lemma getitem_retorna (l : list Id) (i : nat) (x : Id) self :
  fst (getitem l i self) = Retorna x <-> nth_error l i = Some x.
Proof.
  unfold getitem. destruct (nth_error l i); simpl; split; congruence.
Qed.

Lemma nth_error_ultimo (pre : list Id) (u : Id) :
  nth_error (pre ++ [u]) (length (pre ++ [u]) - 1) = Some u.
Proof.
  rewrite length_app; simpl.
  replace (length pre + 1 - 1) with (length pre) by lia.
  rewrite nth_error_app2 by lia. now rewrite Nat.sub_diag.
Qed.

(** [camino[-1]] of a list that ends in [u] is [u], and only such a list
    has one. *)
Lemma getitem_ultimo_retorna (l : list Id) (u : Id) self :
  fst (getitem_ultimo l self) = Retorna u <-> exists pre, l = pre ++ [u].
Proof.
  split.
  - destruct l as [|x l]; [discriminate|].
    destruct (@exists_last _ (x :: l)) as [pre [u' Heq]]; [discriminate|].
    rewrite Heq. unfold getitem_ultimo.
    destruct (pre ++ [u']) as [|y l'] eqn:E; [now destruct pre|].
    rewrite <- E. rewrite getitem_retorna, nth_error_ultimo.
    intros [= ->]. now exists pre.
  - intros [pre ->]. unfold getitem_ultimo.
    destruct (pre ++ [u]) as [|y l'] eqn:E; [now destruct pre|].
    rewrite <- E. now rewrite getitem_retorna, nth_error_ultimo.
Qed.

Lemma cadena_app (G : nx.Graph) (pre : list Id) (u v : Id) :
  cadena G (pre ++ [u]) -> nx.has_edge G u v = true ->
  cadena G ((pre ++ [u]) ++ [v]).
Proof.
  induction pre as [|a pre IH]; simpl.
  - auto.
  - destruct (pre ++ [u]) as [|b l] eqn:E; [now destruct pre|].
    simpl. intros [Hab Hc] Huv. split; [assumption | now apply IH].
Qed.

(** What a finished loop returned: nothing, or the first true result of
    its body. *)
Lemma para_cada_retorna (xs : list Id) (cuerpo : Id -> M (option (list Id))) self r :
  (forall x, solo_lectura (cuerpo x)) ->
  fst (para_cada xs cuerpo self) = Retorna r ->
  r = None \/
  (verdadero r = true /\ exists x, In x xs /\ fst (cuerpo x self) = Retorna r).
Proof.
  intro Hc. induction xs as [|x xs IH]; simpl.
  - intros [= <-]. now left.
  - rewrite valor_bind by apply Hc.
    destruct (fst (cuerpo x self)) as [r0|e] eqn:E; [|discriminate].
    destruct (verdadero r0) eqn:Ev.
    + simpl. intros [= <-]. right. eauto.
    + intro Hr. destruct (IH Hr) as [->|[Hv [y [Hy Hby]]]]; [now left|].
      right. split; [assumption|]. exists y. auto.
Qed.

(** Every path [backtrack] returns extends the path it was called on,
    edge by edge, through nodes not visited before, up to the full length. *)
Lemma backtrack_correcto (k : nat) :
  forall nodos camino visitados self l,
    cadena (grafo self) camino ->
    NoDup camino ->
    (forall x, In x camino -> In x visitados) ->
    fst (backtrack k nodos camino visitados self) = Retorna (Some l) ->
    cadena (grafo self) l /\ NoDup l /\ length l = length nodos /\
    exists resto, l = camino ++ resto.
Proof.
  induction k as [|k IH]; intros nodos camino visitados self l Hc Hn Hv;
    simpl; [discriminate|]. destruct (length camino =? length nodos) eqn:E.
  - intros [= <-]. apply Nat.eqb_eq in E.
    repeat split; auto. exists []. now rewrite app_nil_r.
  - intro Hr.
    apply bind_retorna in Hr; [|apply solo_lectura_getitem_ultimo].
    destruct Hr as [u [Hu Hr]].
    apply bind_retorna in Hr; [|apply solo_lectura_vecinos_de].
    destruct Hr as [vs [Hvs Hr]].
    apply getitem_ultimo_retorna in Hu. destruct Hu as [pre Hpre].
    apply vecinos_de_retorna in Hvs.
    apply para_cada_retorna in Hr.
    2:{ intro x. destruct (negb (pertenece x visitados));
          [apply solo_lectura_backtrack | apply solo_lectura_ret]. }
    destruct Hr as [Hr|[_ [v [Hin Hb]]]]; [discriminate|].
    destruct (pertenece v visitados) eqn:Ep; simpl in Hb; [discriminate|].
    apply IH in Hb.
    + destruct Hb as [Hc' [Hn' [Hl [resto ->]]]].
      repeat split; auto. exists (v :: resto). now rewrite <- app_assoc.
    + subst camino. apply cadena_app; [assumption|].
      now apply neighbors_has_edge with vs.
    + apply NoDup_app; [assumption | repeat constructor; auto |].
      intros x Hx [<-|[]]. apply Hv in Hx. apply pertenece_In in Hx. congruence.
    + intros x Hx. apply in_app_or in Hx. destruct Hx as [Hx|[<-|[]]].
      * right. now apply Hv.
      * now left.
Qed.

Lemma bind_lanza {A B : Type} (m : M A) (k : A -> M B) self e :
  solo_lectura m ->
  fst (bind m k self) = Lanza e ->
  fst (m self) = Lanza e \/
  exists a, fst (m self) = Retorna a /\ fst (k a self) = Lanza e.
Proof.
  intros Hm. rewrite valor_bind by assumption.
  destruct (fst (m self)) as [a|e']; intro Hk.
  - right. exists a. auto.
  - left. congruence.
Qed.

Lemma para_cada_lanza (xs : list Id) (cuerpo : Id -> M (option (list Id))) self e :
  (forall x, solo_lectura (cuerpo x)) ->
  fst (para_cada xs cuerpo self) = Lanza e ->
  exists x, In x xs /\ fst (cuerpo x self) = Lanza e.
Proof.
  intro Hc. induction xs as [|x xs IH]; simpl; [discriminate|].
  intro Hl. apply bind_lanza in Hl; [|apply Hc].
  destruct Hl as [Hl|[r [Hr Hl]]]; [eauto|].
  destruct (verdadero r); [discriminate|].
  destruct (IH Hl) as [y [Hy Hby]]. eauto.
Qed.

Lemma solo_lectura_cuerpo_backtrack (k : nat) (nodos camino visitados : list Id) :
  forall vecino,
    solo_lectura
      (if negb (pertenece vecino visitados)
       then backtrack k nodos (camino ++ [vecino]) (vecino :: visitados)
       else ret None).
Proof.
  intro vecino. destruct (negb (pertenece vecino visitados));
    [apply solo_lectura_backtrack | apply solo_lectura_ret].
Qed.

(** The recursion is never deeper than the number of nodes still to place,
    the one at hand included: with room for that many calls the search does
    not exhaust the stack. *)
Lemma backtrack_sin_desborde (k : nat) :
  forall nodos camino visitados self,
    length camino <= length nodos ->
    length nodos - length camino < k ->
    fst (backtrack k nodos camino visitados self) <> Lanza RecursionError.
Proof.
  induction k as [|k IH]; intros nodos camino visitados self Hle Hk;
    simpl; [lia|]. destruct (length camino =? length nodos) eqn:E; try discriminate.
  - apply Nat.eqb_neq in E. intro Hl.
    apply bind_lanza in Hl; [|apply solo_lectura_getitem_ultimo].
    destruct Hl as [Hl|[u [_ Hl]]].
    { destruct camino as [|x camino]; [discriminate|].
      unfold getitem_ultimo, getitem in Hl.
      destruct (nth_error (x :: camino) (length (x :: camino) - 1)); discriminate. }
    apply bind_lanza in Hl; [|apply solo_lectura_vecinos_de].
    destruct Hl as [Hl|[vs [_ Hl]]].
    { unfold vecinos_de, bind, leer in Hl; simpl in Hl.
      destruct (nx.neighbors (grafo self) u); discriminate. }
    apply para_cada_lanza in Hl; [|apply solo_lectura_cuerpo_backtrack].
    destruct Hl as [v [_ Hl]].
    destruct (negb (pertenece v visitados)); [|discriminate].
    revert Hl. apply IH; rewrite length_app; simpl; lia.
Qed.

Lemma encontrar_camino_sin_desborde (limite : nat) self :
  length (nx.nodes (grafo self)) <= limite ->
  fst (encontrar_camino_hamiltoniano limite self) <> Lanza RecursionError.
Proof.
  intro Hlim. unfold encontrar_camino_hamiltoniano, bind, leer; simpl.
  destruct (length (nx.nodes (grafo self)) <? 2) eqn:E; [discriminate|].
  intro Hl. apply para_cada_lanza in Hl.
  2:{ intro x. apply solo_lectura_backtrack. }
  destruct Hl as [x [_ Hl]]. revert Hl.
  apply Nat.ltb_ge in E.
  apply backtrack_sin_desborde; simpl; lia.
Qed.

(** *** A result does not depend on the room there was *)

Lemma para_cada_mismo (xs : list Id) (f g : Id -> M (option (list Id))) self r :
  (forall x, solo_lectura (f x)) ->
  (forall x, solo_lectura (g x)) ->
  (forall x r', In x xs -> fst (f x self) = Retorna r' -> fst (g x self) = Retorna r') ->
  fst (para_cada xs f self) = Retorna r ->
  fst (para_cada xs g self) = Retorna r.
Proof.
  intros Hf Hg. induction xs as [|x xs IH]; intro Hfg; [trivial|].
  simpl. rewrite !valor_bind by auto.
  destruct (fst (f x self)) as [r0|e] eqn:E; [|discriminate].
  rewrite (Hfg x r0) by (auto; now left).
  destruct (verdadero r0); [trivial|].
  apply IH. intros y r' Hy. apply Hfg. now right.
Qed.

(** A search that returned with room for [k] nested calls returns the same
    with room for more. *)
Lemma backtrack_mas_limite (k : nat) :
  forall k' nodos camino visitados self r,
    k <= k' ->
    fst (backtrack k nodos camino visitados self) = Retorna r ->
    fst (backtrack k' nodos camino visitados self) = Retorna r.
Proof.
  induction k as [|k IH]; intros k' nodos camino visitados self r Hk;
    simpl; [discriminate|].
  destruct k' as [|k']; [lia|]. simpl.
  destruct (length camino =? length nodos); [trivial|].
  rewrite !valor_bind by apply solo_lectura_getitem_ultimo.
  destruct (fst (getitem_ultimo camino self)) as [u|e]; [|trivial].
  rewrite !valor_bind by apply solo_lectura_vecinos_de.
  destruct (fst (vecinos_de u self)) as [vs|e]; [|trivial].
  apply para_cada_mismo; try apply solo_lectura_cuerpo_backtrack.
  intros v r' _. destruct (negb (pertenece v visitados)); [|trivial].
  apply IH. lia.
Qed.

Lemma encontrar_camino_mas_limite (k k' : nat) self r :
  k <= k' ->
  fst (encontrar_camino_hamiltoniano k self) = Retorna r ->
  fst (encontrar_camino_hamiltoniano k' self) = Retorna r.
Proof.
  intro Hk. unfold encontrar_camino_hamiltoniano, bind, leer; simpl.
  destruct (length (nx.nodes (grafo self)) <? 2); [trivial|].
  apply para_cada_mismo; try (intro x; apply solo_lectura_backtrack).
  intros x r' _. now apply backtrack_mas_limite.
Qed.

(** C1. Whenever [encontrar_camino_hamiltoniano] returns a sequence for a
    graph of at least 2 components, the sequence repeats no id, is as long
    as the number of components, and joins consecutive ids by edges of the
    graph; for a graph of fewer than 2 components the call returns the
    component list itself, without looking at any neighbour. *)
Theorem encontrar_camino_hamiltoniano_correcto (limite : nat) (self : CircuitoElectronico) :
  let nodos := nx.nodes (grafo self) in
  (2 <= length nodos ->
   forall l, fst (encontrar_camino_hamiltoniano limite self) = Retorna (Some l) ->
     NoDup l /\ length l = length nodos /\ cadena (grafo self) l) /\
  (length nodos < 2 ->
   encontrar_camino_hamiltoniano limite self = (Retorna (Some nodos), self)).
Proof.
  cbv zeta. split.
  - intros Hlen l. unfold encontrar_camino_hamiltoniano, bind, leer; simpl.
    destruct (length (nx.nodes (grafo self)) <? 2) eqn:E.
    { apply Nat.ltb_lt in E. lia. }
    intro Hr. apply para_cada_retorna in Hr.
    2:{ intro x. apply solo_lectura_backtrack. }
    destruct Hr as [Hr|[_ [inicio [_ Hb]]]]; [discriminate|].
    apply backtrack_correcto in Hb.
    + tauto.
    + exact I.
    + repeat constructor. simpl. tauto.
    + auto.
  - intro Hlen. unfold encontrar_camino_hamiltoniano, bind, leer; simpl.
    apply Nat.ltb_lt in Hlen. now rewrite Hlen.
Qed.

(** ** The cycle derived from the path *)

Lemma last_cons (p : Id) (l : list Id) (d : Id) : last (p :: l) d = last l p.
Proof.
  revert p d. induction l as [|a l IH]; intros p d; [reflexivity|].
  change (last (p :: a :: l) d) with (last (a :: l) d).
  now rewrite (IH a d), (IH a p).
Qed.

Lemma getitem_ultimo_cons (p : Id) (l : list Id) self :
  fst (getitem_ultimo (p :: l) self) = Retorna (last l p).
Proof.
  apply getitem_ultimo_retorna. exists (removelast (p :: l)).
  assert (Hne : p :: l <> []) by discriminate.
  rewrite (app_removelast_last p Hne) at 1. now rewrite last_cons.
Qed.

(** The result of the cycle search, read off the result of the path
    search it starts with. *)
Lemma encontrar_ciclo_ecuacion (k : nat) self :
  fst (encontrar_ciclo_hamiltoniano k self) =
  match fst (encontrar_camino_hamiltoniano k self) with
  | Lanza e => Lanza e
  | Retorna None => Retorna None
  | Retorna (Some []) => Retorna None
  | Retorna (Some (p :: l)) =>
      if nx.has_edge (grafo self) (last l p) p
      then Retorna (Some ((p :: l) ++ [p]))
      else Retorna None
  end.
Proof.
  unfold encontrar_ciclo_hamiltoniano.
  rewrite valor_bind by apply solo_lectura_encontrar_camino.
  destruct (fst (encontrar_camino_hamiltoniano k self)) as [[[|p l]|]|e];
    try reflexivity.
  cbn [verdadero negb].
  rewrite valor_bind by apply solo_lectura_getitem_ultimo.
  rewrite getitem_ultimo_cons.
  unfold bind, getitem, leer, ret; simpl.
  destruct (nx.has_edge (grafo self) (last l p) p); reflexivity.
Qed.

(** A circuit as a caller builds it: the calls of [pasos], one after the
    other, on [self]. *)
Definition construir (pasos : list (M unit)) (self : CircuitoElectronico)
  : CircuitoElectronico :=
  fold_left (fun c paso => snd (paso c)) pasos self.

(** Four components on the ring A-B-C-D-A with the chord B-D, the edges
    B-D and D-C added before B-C and D-A. *)
Definition circuito_con_cuerda : CircuitoElectronico :=
  construir
    [agregar_componente "A" "Resistor" None;
     agregar_componente "B" "Resistor" None;
     agregar_componente "C" "Capacitor" None;
     agregar_componente "D" "Inductor" None;
     agregar_conexion "A" "B" uno;
     agregar_conexion "B" "D" uno;
     agregar_conexion "D" "C" uno;
     agregar_conexion "B" "C" uno;
     agregar_conexion "D" "A" uno]%string
    (CircuitoElectronico_init "Circuito").

(** On [circuito_con_cuerda], with room for its four nodes, the search
    finds A-B-D-C first, whose ends are not joined; the ring A-B-C-D, whose
    ends are, is never tried. *)
Lemma circuito_con_cuerda_sin_ciclo (limite : nat) :
  4 <= limite ->
  fst (encontrar_camino_hamiltoniano limite circuito_con_cuerda)
    = Retorna (Some ["A"; "B"; "D"; "C"]%string) /\
  fst (encontrar_ciclo_hamiltoniano limite circuito_con_cuerda) = Retorna None /\
  camino_hamiltoniano (grafo circuito_con_cuerda) ["A"; "B"; "C"; "D"]%string /\
  nx.has_edge (grafo circuito_con_cuerda) "D"%string "A"%string = true.
Proof.
  intro Hlim.
  assert (Hc : fst (encontrar_camino_hamiltoniano limite circuito_con_cuerda)
               = Retorna (Some ["A"; "B"; "D"; "C"]%string)).
  { apply encontrar_camino_mas_limite with 4; [exact Hlim|].
    vm_compute. reflexivity. }
  split; [exact Hc|].
  split; [rewrite encontrar_ciclo_ecuacion, Hc; vm_compute; reflexivity|].
  split; [|vm_compute; reflexivity].
  unfold camino_hamiltoniano. split; [|split; [|split]].
  - repeat constructor; cbn [In]; intuition discriminate.
  - vm_compute. reflexivity.
  - intros x Hx. vm_compute. cbn [In] in Hx. tauto.
  - cbn [cadena]. split; [|split; [|split; [|exact I]]]; vm_compute; reflexivity.
Qed.

(** C2. [encontrar_ciclo_hamiltoniano] returns the path with its first id
    appended exactly when the path search returns a path whose last node
    has an edge to its first; whenever the path search returns anything
    else it returns no cycle; and it does so even on a graph that has
    another Hamiltonian path with joined ends (a graph of four nodes, for
    which the search needs room for four nested calls). *)
Theorem encontrar_ciclo_hamiltoniano_correcto (limite : nat) :
  (forall self ciclo,
     fst (encontrar_ciclo_hamiltoniano limite self) = Retorna (Some ciclo) <->
     exists p l,
       fst (encontrar_camino_hamiltoniano limite self) = Retorna (Some (p :: l)) /\
       nx.has_edge (grafo self) (last l p) p = true /\
       ciclo = (p :: l) ++ [p]) /\
  (forall self r,
     fst (encontrar_camino_hamiltoniano limite self) = Retorna r ->
     (forall p l, r = Some (p :: l) ->
        nx.has_edge (grafo self) (last l p) p = false) ->
     fst (encontrar_ciclo_hamiltoniano limite self) = Retorna None) /\
  (4 <= limite ->
   exists self p l,
     fst (encontrar_ciclo_hamiltoniano limite self) = Retorna None /\
     camino_hamiltoniano (grafo self) (p :: l) /\
     nx.has_edge (grafo self) (last l p) p = true).
Proof.
  split; [|split].
  - intros self ciclo. rewrite encontrar_ciclo_ecuacion. split.
    + destruct (fst (encontrar_camino_hamiltoniano limite self)) as [[[|p l]|]|e];
        try discriminate.
      destruct (nx.has_edge (grafo self) (last l p) p) eqn:E; [|discriminate].
      intros [= <-]. exists p, l. auto.
    + intros [p [l [-> [-> ->]]]]. reflexivity.
  - intros self r Hr Hno. rewrite encontrar_ciclo_ecuacion, Hr.
    destruct r as [[|p l]|]; try reflexivity.
    now rewrite (Hno p l eq_refl).
  - intro Hlim. exists circuito_con_cuerda, "A"%string, ["B"; "C"; "D"]%string.
    pose proof (circuito_con_cuerda_sin_ciclo Hlim) as [_ [Hc [Hh He]]].
    split; [exact Hc|]. split; [exact Hh | exact He].
Qed.

(** ** The existence check *)

(** C8. [es_hamiltoniano] always returns a boolean: [False] when the path
    search raises, whatever it raises, and otherwise [True] exactly when
    the search returned something other than [None]. *)
Theorem es_hamiltoniano_no_propaga (limite : nat) (self : CircuitoElectronico) :
  (exists b, fst (es_hamiltoniano limite self) = Retorna b) /\
  (forall e, fst (encontrar_camino_hamiltoniano limite self) = Lanza e ->
     fst (es_hamiltoniano limite self) = Retorna false) /\
  (forall r, fst (encontrar_camino_hamiltoniano limite self) = Retorna r ->
     fst (es_hamiltoniano limite self) =
     Retorna (match r with Some _ => true | None => false end)).
Proof.
  unfold es_hamiltoniano, intentar, bind, ret.
  destruct (encontrar_camino_hamiltoniano limite self) as [[r|e] self']; simpl.
  - split; [eauto|]. split; [discriminate|]. now intros r' [= <-].
  - split; [eauto|]. split; [reflexivity | discriminate].
Qed.

(** ** The analysis only reads *)

(** C10. The three analysis operations leave the circuit (name, graph,
    component map and connection map) exactly as it was, whether they
    return or raise. *)
Theorem analisis_solo_lectura (limite : nat) (self : CircuitoElectronico) (camino : option (list Id)) :
  snd (encontrar_camino_hamiltoniano limite self) = self /\
  snd (encontrar_ciclo_hamiltoniano limite self) = self /\
  snd (calcular_eficiencia_energetica camino self) = self.
Proof.
  split; [apply solo_lectura_encontrar_camino|].
  split; [apply solo_lectura_encontrar_ciclo|].
  apply solo_lectura_calcular_eficiencia.
Qed.

(** ** The efficiency evaluator *)

Lemma pares_consecutivos_skipn (l : list Id) :
  forall i a b,
    nth_error l i = Some a -> nth_error l (S i) = Some b ->
    pares_consecutivos (skipn i l) = (a, b) :: pares_consecutivos (skipn (S i) l).
Proof.
  induction l as [|x l IH]; intros i a b Ha Hb.
  - destruct i; discriminate.
  - destruct i as [|i].
    + simpl in Ha, Hb. injection Ha as ->.
      destruct l as [|y l]; [discriminate|]. simpl in Hb. injection Hb as ->.
      reflexivity.
    + simpl in Ha, Hb. change (skipn (S i) (x :: l)) with (skipn i l).
      change (skipn (S (S i)) (x :: l)) with (skipn (S i) l). now apply IH.
Qed.

Lemma pares_consecutivos_final (l : list Id) (i : nat) :
  i + 1 = length l -> pares_consecutivos (skipn i l) = [].
Proof.
  intro Hi. pose proof (length_skipn i l) as Hlen.
  destruct (skipn i l) as [|a [|b r]]; simpl in *; try reflexivity; lia.
Qed.

(** The loop over [range(len(camino) - 1)], started at any index with any
    running total, adds the weights of the remaining consecutive pairs. *)
Lemma bucle_resistencia_ecuacion (camino : list Id) (n : nat) :
  forall i resistencia_total self,
    i + n + 1 = length camino ->
    bucle_resistencia camino (seq i n) resistencia_total self =
    (Retorna
       (fold_left
          (fun total ab =>
             sumar total (connectionWeight (conexiones self) (fst ab) (snd ab)))
          (pares_consecutivos (skipn i camino)) resistencia_total),
     self).
Proof.
  induction n as [|n IH]; intros i total self Hlen.
  - simpl. rewrite pares_consecutivos_final by lia. reflexivity.
  - assert (Hi : i < length camino) by lia.
    assert (Hsi : S i < length camino) by lia.
    apply nth_error_Some in Hi. apply nth_error_Some in Hsi.
    destruct (nth_error camino i) as [a|] eqn:Ea; [clear Hi | congruence].
    destruct (nth_error camino (S i)) as [b|] eqn:Eb; [clear Hsi | congruence].
    rewrite (pares_consecutivos_skipn _ _ Ea Eb).
    cbn [seq bucle_resistencia fold_left fst snd].
    unfold bind, getitem, leer, ret, dict_getitem.
    rewrite Ea, Nat.add_1_r, Eb.
    unfold connectionWeight, Dict.mem. cbn [fst snd].
    destruct (Dict.get (conexiones self) (a, b)) as [w|].
    + apply IH. lia.
    + destruct (Dict.get (conexiones self) (b, a)) as [w|]; apply IH; lia.
Qed.

(** The evaluator in one equation. *)
Lemma calcular_eficiencia_energetica_ecuacion (self : CircuitoElectronico)
    (camino : list Id) :
  calcular_eficiencia_energetica (Some camino) self =
  if length camino <? 2 then (Retorna cero, self)
  else
    match dividir uno (sumar uno (totalWeight (conexiones self) camino)) with
    | Some eficiencia => (Retorna eficiencia, self)
    | None => (Lanza ZeroDivisionError, self)
    end.
Proof.
  unfold calcular_eficiencia_energetica.
  destruct camino as [|a [|b l]]; try reflexivity.
  cbn [verdadero negb orb]. change (length (a :: b :: l) <? 2) with false.
  cbv iota. unfold bind.
  rewrite bucle_resistencia_ecuacion by (simpl; lia).
  unfold totalWeight. change (skipn 0 (a :: b :: l)) with (a :: b :: l).
  destruct (dividir uno _); reflexivity.
Qed.

(** ** Building the circuit *)

Lemma add_node_get (G : nx.Graph) (n : Id) :
  Dict.get (nx.add_node G n) n =
  Some (match Dict.get G n with
        | Some d => d
        | None => {| nx.pos := None; nx.adj := Dict.empty |}
        end).
Proof.
  unfold nx.add_node, Dict.mem. destruct (Dict.get G n) eqn:E.
  - exact E.
  - apply Dict.get_set_same.
Qed.

Lemma add_node_nodes (G : nx.Graph) (n : Id) :
  nx.nodes (nx.add_node G n) =
  if Dict.mem G n then nx.nodes G else nx.nodes G ++ [n].
Proof.
  unfold nx.add_node, nx.nodes. destruct (Dict.mem G n) eqn:E.
  - reflexivity.
  - now apply Dict.keys_set_absent.
Qed.

Lemma add_node_neighbors (G : nx.Graph) (n : Id) :
  nx.neighbors (nx.add_node G n) n =
  if Dict.mem G n then nx.neighbors G n else Some [].
Proof.
  unfold nx.neighbors. rewrite add_node_get. unfold Dict.mem.
  destruct (Dict.get G n); reflexivity.
Qed.

Lemma mem_add_node_same (G : nx.Graph) (n : Id) : Dict.mem (nx.add_node G n) n = true.
Proof. unfold Dict.mem. now rewrite add_node_get. Qed.

Lemma mem_add_node_mono (G : nx.Graph) (n m : Id) :
  Dict.mem G m = true -> Dict.mem (nx.add_node G n) m = true.
Proof.
  unfold nx.add_node. destruct (Dict.mem G n); [auto | apply Dict.mem_set_mono].
Qed.

Lemma mem_link_mono (G : nx.Graph) (u v m : Id) :
  Dict.mem G m = true -> Dict.mem (nx.link G u v) m = true.
Proof.
  unfold nx.link. destruct (Dict.get G u); [apply Dict.mem_set_mono | auto].
Qed.

Lemma has_edge_link_same (G : nx.Graph) (u v : Id) :
  Dict.mem G u = true -> nx.has_edge (nx.link G u v) u v = true.
Proof.
  unfold nx.link, nx.has_edge, Dict.mem at 1.
  destruct (Dict.get G u) as [d|]; [intros _ | discriminate].
  rewrite Dict.get_set_same. cbn [nx.adj]. apply Dict.mem_set_same.
Qed.

Lemma has_edge_link_mono (G : nx.Graph) (u v a b : Id) :
  nx.has_edge G a b = true -> nx.has_edge (nx.link G u v) a b = true.
Proof.
  unfold nx.link, nx.has_edge.
  destruct (Dict.get G u) as [d|] eqn:Eu; [|auto].
  destruct (key_eqb_spec u a) as [<-|Hne].
  - rewrite Eu, Dict.get_set_same. cbn [nx.adj]. apply Dict.mem_set_mono.
  - now rewrite Dict.get_set_other.
Qed.

Lemma add_edge_has_edge (G : nx.Graph) (u v : Id) :
  nx.has_edge (nx.add_edge G u v) u v = true /\
  nx.has_edge (nx.add_edge G u v) v u = true /\
  In u (nx.nodes (nx.add_edge G u v)) /\
  In v (nx.nodes (nx.add_edge G u v)).
Proof.
  unfold nx.add_edge. cbv zeta.
  assert (Hu : Dict.mem (nx.add_node (nx.add_node G u) v) u = true)
    by apply mem_add_node_mono, mem_add_node_same.
  assert (Hv : Dict.mem (nx.add_node (nx.add_node G u) v) v = true)
    by apply mem_add_node_same.
  split; [|split; [|split]].
  - now apply has_edge_link_mono, has_edge_link_same.
  - now apply has_edge_link_same, mem_link_mono.
  - now apply Dict.mem_keys, mem_link_mono, mem_link_mono.
  - now apply Dict.mem_keys, mem_link_mono, mem_link_mono.
Qed.

Lemma add_node_get_other (G : nx.Graph) (n m : Id) :
  n <> m -> Dict.get (nx.add_node G n) m = Dict.get G m.
Proof.
  intro Hne. unfold nx.add_node. destruct (Dict.mem G n); [reflexivity|].
  now apply Dict.get_set_other.
Qed.

Lemma link_get_other (G : nx.Graph) (u v m : Id) :
  u <> m -> Dict.get (nx.link G u v) m = Dict.get G m.
Proof.
  intro Hne. unfold nx.link. destruct (Dict.get G u); [|reflexivity].
  now apply Dict.get_set_other.
Qed.

(** Neighbours come in the order the edges were added: a new edge puts
    each endpoint last among the other's neighbours, and an edge that is
    already there moves nothing. *)
Lemma add_edge_neighbors (G : nx.Graph) (u v : Id) :
  u <> v ->
  nx.neighbors (nx.add_edge G u v) u =
  Some (let vs := match nx.neighbors G u with Some vs => vs | None => [] end in
        if nx.has_edge G u v then vs else vs ++ [v]) /\
  nx.neighbors (nx.add_edge G u v) v =
  Some (let vs := match nx.neighbors G v with Some vs => vs | None => [] end in
        if nx.has_edge G v u then vs else vs ++ [u]).
Proof.
  intro Hne. unfold nx.add_edge. cbv zeta. split.
  - unfold nx.neighbors at 1.
    rewrite link_get_other by congruence.
    unfold nx.link at 1.
    rewrite add_node_get_other by congruence. rewrite add_node_get.
    rewrite Dict.get_set_same. cbn [nx.adj].
    unfold nx.neighbors, nx.has_edge.
    destruct (Dict.get G u) as [d|]; cbn [nx.adj].
    + destruct (Dict.mem (nx.adj d) v) eqn:E.
      * now rewrite Dict.keys_set_present.
      * now rewrite Dict.keys_set_absent.
    + reflexivity.
  - unfold nx.neighbors at 1. unfold nx.link at 1.
    rewrite link_get_other by assumption.
    rewrite add_node_get, add_node_get_other by assumption.
    rewrite Dict.get_set_same. cbn [nx.adj].
    unfold nx.neighbors, nx.has_edge.
    destruct (Dict.get G v) as [d|]; cbn [nx.adj].
    + destruct (Dict.mem (nx.adj d) u) eqn:E.
      * now rewrite Dict.keys_set_present.
      * now rewrite Dict.keys_set_absent.
    + reflexivity.
Qed.

(** C3 as the code has it. [agregar_componente] never fails.  For an id
    that is not a node of the graph it adds the node last, with no
    neighbours; for an id that is one it keeps the node's place among the
    nodes and its neighbours.  In both cases the type given becomes the
    component's type (replacing an earlier one), a position given becomes
    the node's position (replacing an earlier one) while a call without
    position leaves the node the position it had, if any, and the stored
    weights are untouched. *)
Theorem agregar_componente_nunca_falla
    (self : CircuitoElectronico) (id_componente : Id) (tipo : string)
    (posicion : option Posicion) :
  let r := agregar_componente id_componente tipo posicion self in
  fst r = Retorna tt /\
  Dict.get (componentes (snd r)) id_componente = Some tipo /\
  nx.nodes (grafo (snd r)) =
    (if Dict.mem (grafo self) id_componente then nx.nodes (grafo self)
     else nx.nodes (grafo self) ++ [id_componente]) /\
  nx.neighbors (grafo (snd r)) id_componente =
    (if Dict.mem (grafo self) id_componente
     then nx.neighbors (grafo self) id_componente
     else Some []) /\
  option_map nx.pos (Dict.get (grafo (snd r)) id_componente) =
    Some (match posicion with
          | Some p => Some p
          | None =>
              match Dict.get (grafo self) id_componente with
              | Some d => nx.pos d
              | None => None
              end
          end) /\
  conexiones (snd r) = conexiones self.
Proof.
  cbv zeta. rewrite <- add_node_nodes, <- add_node_neighbors.
  unfold agregar_componente, bind, modificar, leer, ret.
  destruct posicion as [p|]; cbn - [nx.add_node].
  - unfold nx.set_pos. rewrite add_node_get.
    cbn - [nx.add_node]. rewrite !Dict.get_set_same.
    repeat split.
    + unfold nx.nodes. apply Dict.keys_set_present, mem_add_node_same.
    + unfold nx.neighbors. now rewrite Dict.get_set_same, add_node_get.
  - rewrite Dict.get_set_same, add_node_get. repeat split.
    destruct (Dict.get (grafo self) id_componente); reflexivity.
Qed.

(** C4 as the code has it. [agregar_conexion] never fails, whether or not
    the endpoints are components and whether or not they differ.  After
    the call both endpoints are nodes of the graph, each is a neighbour of
    the other, the weight is stored under the pair as given, and the
    component map is as it was. *)
Theorem agregar_conexion_nunca_falla
    (self : CircuitoElectronico) (comp1 comp2 : Id) (resistencia : N) :
  let r := agregar_conexion comp1 comp2 resistencia self in
  fst r = Retorna tt /\
  Dict.get (conexiones (snd r)) (comp1, comp2) = Some resistencia /\
  nx.has_edge (grafo (snd r)) comp1 comp2 = true /\
  nx.has_edge (grafo (snd r)) comp2 comp1 = true /\
  In comp1 (nx.nodes (grafo (snd r))) /\
  In comp2 (nx.nodes (grafo (snd r))) /\
  componentes (snd r) = componentes self.
Proof.
  cbv zeta. unfold agregar_conexion, bind, modificar. cbn - [nx.add_edge].
  rewrite Dict.get_set_same.
  pose proof (add_edge_has_edge (grafo self) comp1 comp2) as [H1 [H2 [H3 H4]]].
  repeat split; assumption.
Qed.

(** Where storing and looking up agree: when the reverse pair holds no
    weight, the weight just given is the one found for the pair in either
    orientation, whatever was stored for it before. *)
Lemma agregar_conexion_peso
    (self : CircuitoElectronico) (comp1 comp2 : Id) (resistencia : N) :
  Dict.get (conexiones self) (comp2, comp1) = None ->
  let d := conexiones (snd (agregar_conexion comp1 comp2 resistencia self)) in
  connectionWeight d comp1 comp2 = resistencia /\
  connectionWeight d comp2 comp1 = resistencia.
Proof.
  intro Hrev. unfold agregar_conexion, bind, modificar. cbn - [nx.add_edge].
  unfold connectionWeight. rewrite Dict.get_set_same. split; [reflexivity|].
  destruct (key_eqb_spec (comp1, comp2) (comp2, comp1)) as [Heq|Hne].
  - rewrite <- Heq. now rewrite Dict.get_set_same.
  - rewrite Dict.get_set_other by assumption. now rewrite Hrev.
Qed.

(** ** Graphs built through the methods *)

(** Every neighbour is a node: what [add_node] and [add_edge] maintain. *)
Definition grafo_cerrado (G : nx.Graph) : Prop :=
  forall u v, nx.has_edge G u v = true -> Dict.mem G v = true.

Lemma has_edge_add_node (G : nx.Graph) (n u v : Id) :
  nx.has_edge (nx.add_node G n) u v = nx.has_edge G u v.
Proof.
  unfold nx.add_node. destruct (Dict.mem G n) eqn:E; [reflexivity|].
  unfold nx.has_edge. destruct (key_eqb_spec n u) as [<-|Hne].
  - rewrite Dict.get_set_same. unfold Dict.mem in E.
    destruct (Dict.get G n); [discriminate | reflexivity].
  - now rewrite Dict.get_set_other.
Qed.

Lemma has_edge_link (G : nx.Graph) (u v a b : Id) :
  nx.has_edge (nx.link G u v) a b = true ->
  nx.has_edge G a b = true \/ (a = u /\ b = v).
Proof.
  unfold nx.link, nx.has_edge.
  destruct (Dict.get G u) as [d|] eqn:Eu; [|auto].
  destruct (key_eqb_spec u a) as [<-|Hne].
  - rewrite Dict.get_set_same, Eu. cbn [nx.adj].
    destruct (key_eqb_spec v b) as [<-|Hvb]; [auto|].
    rewrite Dict.mem_set_other by assumption. auto.
  - rewrite Dict.get_set_other by assumption. auto.
Qed.

Lemma grafo_cerrado_init : grafo_cerrado nx.Graph_init.
Proof. intros u v. discriminate. Qed.

Lemma grafo_cerrado_add_node (G : nx.Graph) (n : Id) :
  grafo_cerrado G -> grafo_cerrado (nx.add_node G n).
Proof.
  intros HG u v. rewrite has_edge_add_node. intro He.
  apply mem_add_node_mono. now apply HG with u.
Qed.

Lemma grafo_cerrado_link (G : nx.Graph) (u v : Id) :
  grafo_cerrado G -> Dict.mem G v = true -> grafo_cerrado (nx.link G u v).
Proof.
  intros HG Hv a b He. apply mem_link_mono.
  apply has_edge_link in He. destruct He as [He|[_ ->]]; [|assumption].
  now apply HG with a.
Qed.

Lemma grafo_cerrado_add_edge (G : nx.Graph) (u v : Id) :
  grafo_cerrado G -> grafo_cerrado (nx.add_edge G u v).
Proof.
  intro HG. unfold nx.add_edge. cbv zeta.
  apply grafo_cerrado_link; [apply grafo_cerrado_link|].
  - now apply grafo_cerrado_add_node, grafo_cerrado_add_node.
  - apply mem_add_node_same.
  - apply mem_link_mono, mem_add_node_mono, mem_add_node_same.
Qed.

Lemma grafo_cerrado_set_pos (G G' : nx.Graph) (n : Id) (p : Posicion) :
  grafo_cerrado G -> nx.set_pos G n p = Some G' -> grafo_cerrado G'.
Proof.
  unfold nx.set_pos. destruct (Dict.get G n) as [d|] eqn:En; [|discriminate].
  intros HG [= <-] u v He. apply Dict.mem_set_mono. apply HG with u.
  revert He. unfold nx.has_edge. destruct (key_eqb_spec n u) as [<-|Hne].
  - now rewrite Dict.get_set_same, En.
  - now rewrite Dict.get_set_other.
Qed.

(** The calls that build a circuit. *)
Inductive llamada : M unit -> Prop :=
| llamada_componente id_componente tipo posicion :
    llamada (agregar_componente id_componente tipo posicion)
| llamada_conexion comp1 comp2 resistencia :
    llamada (agregar_conexion comp1 comp2 resistencia).

Lemma llamada_cerrado (paso : M unit) self :
  llamada paso -> grafo_cerrado (grafo self) -> grafo_cerrado (grafo (snd (paso self))).
Proof.
  intros [id_componente tipo posicion | comp1 comp2 resistencia] HG.
  - unfold agregar_componente, bind, modificar, leer, ret.
    destruct posicion as [p|]; cbn - [nx.add_node].
    + destruct (nx.set_pos (nx.add_node (grafo self) id_componente) id_componente p)
        as [G'|] eqn:E; cbn - [nx.add_node].
      * apply grafo_cerrado_set_pos in E; [assumption|].
        now apply grafo_cerrado_add_node.
      * now apply grafo_cerrado_add_node.
    + now apply grafo_cerrado_add_node.
  - unfold agregar_conexion, bind, modificar. cbn - [nx.add_edge].
    now apply grafo_cerrado_add_edge.
Qed.

(** A circuit built from the empty one by the two methods has a closed graph. *)
Lemma construir_cerrado (pasos : list (M unit)) :
  forall self,
    Forall llamada pasos -> grafo_cerrado (grafo self) ->
    grafo_cerrado (grafo (construir pasos self)).
Proof.
  induction pasos as [|paso pasos IH]; intros self Hp HG; [exact HG|].
  inversion Hp as [|? ? Hpaso Hresto]; subst.
  unfold construir; simpl. apply IH; [assumption|].
  now apply llamada_cerrado.
Qed.

(** On a closed graph nothing the search does can raise, except for want
    of room on the stack. *)
Lemma backtrack_no_lanza (k : nat) :
  forall nodos camino visitados self e,
    grafo_cerrado (grafo self) ->
    camino <> [] ->
    (forall x, In x camino -> Dict.mem (grafo self) x = true) ->
    fst (backtrack k nodos camino visitados self) = Lanza e ->
    e = RecursionError.
Proof.
  induction k as [|k IH]; intros nodos camino visitados self e HG Hne Hin; simpl.
  - now intros [= <-].
  - destruct (length camino =? length nodos); [discriminate|].
    intro Hl.
    apply bind_lanza in Hl; [|apply solo_lectura_getitem_ultimo].
    destruct Hl as [Hl|[u [Hu Hl]]].
    { destruct camino as [|x camino]; [congruence|].
      unfold getitem_ultimo, getitem in Hl.
      assert (Hlt : length (x :: camino) - 1 < length (x :: camino)) by (simpl; lia).
      apply nth_error_Some in Hlt.
      destruct (nth_error (x :: camino) (length (x :: camino) - 1));
        [discriminate | congruence]. }
    apply getitem_ultimo_retorna in Hu. destruct Hu as [pre ->].
    assert (Hu : Dict.mem (grafo self) u = true)
      by (apply Hin, in_or_app; right; now left).
    apply bind_lanza in Hl; [|apply solo_lectura_vecinos_de].
    destruct Hl as [Hl|[vs [Hvs Hl]]].
    { unfold vecinos_de, bind, leer, nx.neighbors in Hl; simpl in Hl.
      unfold Dict.mem in Hu.
      destruct (Dict.get (grafo self) u); discriminate. }
    apply vecinos_de_retorna in Hvs.
    apply para_cada_lanza in Hl; [|apply solo_lectura_cuerpo_backtrack].
    destruct Hl as [v [Hv Hl]].
    destruct (negb (pertenece v visitados)); [|discriminate].
    revert Hl. apply IH; [assumption | now destruct pre |].
    intros x Hx. apply in_app_or in Hx. destruct Hx as [Hx|[<-|[]]]; [auto|].
    apply HG with u. now apply neighbors_has_edge with vs.
Qed.

Lemma encontrar_camino_no_lanza (limite : nat) self e :
  grafo_cerrado (grafo self) ->
  fst (encontrar_camino_hamiltoniano limite self) = Lanza e ->
  e = RecursionError.
Proof.
  intro HG. unfold encontrar_camino_hamiltoniano, bind, leer; simpl.
  destruct (length (nx.nodes (grafo self)) <? 2); [discriminate|].
  intro Hl. apply para_cada_lanza in Hl.
  2:{ intro x. apply solo_lectura_backtrack. }
  destruct Hl as [x [Hx Hl]]. revert Hl.
  apply backtrack_no_lanza; [assumption | discriminate |].
  intros y [<-|[]]. now apply Dict.mem_keys.
Qed.

(** Total correctness of the search on a closed graph: with room for as
    many nested calls as there are nodes, it returns. *)
Lemma encontrar_camino_retorna (limite : nat) self :
  grafo_cerrado (grafo self) ->
  length (nx.nodes (grafo self)) <= limite ->
  exists r, fst (encontrar_camino_hamiltoniano limite self) = Retorna r.
Proof.
  intros HG Hlim.
  destruct (fst (encontrar_camino_hamiltoniano limite self)) as [r|e] eqn:E; [eauto|].
  exfalso. apply (encontrar_camino_sin_desborde self Hlim).
  rewrite E. f_equal. now apply encontrar_camino_no_lanza with limite self.
Qed.

(** ** The order of the search *)

(** Every full-length sequence that extends [camino] through unvisited
    neighbours, listed neighbour by neighbour in the order [neighbors]
    gives them. *)
Fixpoint extensiones (G : nx.Graph) (profundidad : nat)
    (nodos camino visitados : list Id) : list (list Id) :=
  if length camino =? length nodos then [camino]
  else
    match profundidad with
    | O => []
    | S profundidad' =>
        match nx.neighbors G (last camino EmptyString) with
        | Some vecinos =>
            flat_map (fun vecino =>
              if negb (pertenece vecino visitados) then
                extensiones G profundidad' nodos (camino ++ [vecino])
                  (vecino :: visitados)
              else []) vecinos
        | None => []
        end
    end.

(** All of them, start node by start node in the order of [nodes]. *)
Definition caminos_en_orden (G : nx.Graph) : list (list Id) :=
  flat_map (fun inicio =>
    extensiones G (length (nx.nodes G)) (nx.nodes G) [inicio] [inicio])
    (nx.nodes G).

(** The ids two sequences with the common beginning [comun] choose their
    next element from: the nodes, in the order of [nodes], when nothing is
    common; otherwise the neighbours of the last common id, in the order of
    [neighbors]. *)
Definition candidatos (G : nx.Graph) (comun : list Id) : list Id :=
  match comun with
  | [] => nx.nodes G
  | _ :: _ =>
      match nx.neighbors G (last comun EmptyString) with
      | Some vecinos => vecinos
      | None => []
      end
  end.

(** In [xs], [a] comes up before [b] ever does. *)
Definition antes (xs : list Id) (a b : Id) : Prop :=
  exists l1 l2, xs = l1 ++ a :: l2 /\ ~ In b l1 /\ a <> b /\ In b l2.

(** The order in which a depth-first search by insertion order meets two
    sequences: where they first differ, [p] takes the candidate that comes
    up first. *)
Definition se_prueba_antes (G : nx.Graph) (p q : list Id) : Prop :=
  exists comun a b p' q',
    p = comun ++ a :: p' /\ q = comun ++ b :: q' /\
    antes (candidatos G comun) a b.

Lemma extensiones_prefijo (G : nx.Graph) (profundidad : nat) :
  forall nodos camino visitados l,
    In l (extensiones G profundidad nodos camino visitados) ->
    exists resto, l = camino ++ resto.
Proof.
  induction profundidad as [|k IH]; intros nodos camino visitados l; simpl;
    destruct (length camino =? length nodos).
  - intros [<-|[]]. exists []. now rewrite app_nil_r.
  - intros [].
  - intros [<-|[]]. exists []. now rewrite app_nil_r.
  - destruct (nx.neighbors G (last camino EmptyString)) as [vs|]; [|intros []].
    rewrite in_flat_map. intros [v [_ Hl]].
    destruct (negb (pertenece v visitados)); [|destruct Hl].
    apply IH in Hl. destruct Hl as [resto ->].
    exists (v :: resto). now rewrite <- app_assoc.
Qed.

(** A loop whose body gives the head of a list of non-empty results gives
    the head of the lists put end to end. *)
Lemma para_cada_primero (xs : list Id) (cuerpo : Id -> M (option (list Id)))
    (g : Id -> list (list Id)) self :
  (forall x, solo_lectura (cuerpo x)) ->
  (forall x, In x xs -> fst (cuerpo x self) = Retorna (hd_error (g x))) ->
  (forall x l, In x xs -> In l (g x) -> l <> []) ->
  fst (para_cada xs cuerpo self) = Retorna (hd_error (flat_map g xs)).
Proof.
  intros Hs. induction xs as [|x xs IH]; intros Hc Hne; [reflexivity|].
  simpl. rewrite valor_bind by apply Hs. rewrite Hc by now left.
  destruct (g x) as [|l ls] eqn:E; simpl.
  - apply IH; intros; [apply Hc | apply Hne with x0]; try right; assumption.
  - assert (Hl : l <> []) by (apply Hne with x; [now left | rewrite E; now left]).
    destruct l; [congruence | reflexivity].
Qed.

Lemma vecinos_de_valor (u : Id) self :
  fst (vecinos_de u self) =
  match nx.neighbors (grafo self) u with
  | Some vs => Retorna vs
  | None => Lanza NetworkXError
  end.
Proof.
  unfold vecinos_de, bind, leer; simpl.
  destruct (nx.neighbors (grafo self) u); reflexivity.
Qed.

(** On a closed graph, with room for the nodes still to place, [backtrack]
    returns the first of the extensions. *)
Lemma backtrack_primero (k : nat) :
  forall profundidad nodos camino visitados self,
    grafo_cerrado (grafo self) ->
    camino <> [] ->
    (forall x, In x camino -> Dict.mem (grafo self) x = true) ->
    length camino <= length nodos ->
    length nodos - length camino <= profundidad ->
    length nodos - length camino < k ->
    fst (backtrack k nodos camino visitados self) =
    Retorna (hd_error (extensiones (grafo self) profundidad nodos camino visitados)).
Proof.
  induction k as [|k IH];
    intros profundidad nodos camino visitados self HG Hne Hin Hle Hp Hk; [lia|].
  simpl. destruct (length camino =? length nodos) eqn:E.
  { destruct profundidad; simpl; now rewrite E. }
  apply Nat.eqb_neq in E.
  destruct profundidad as [|profundidad]; [lia|].
  simpl. apply Nat.eqb_neq in E. rewrite E. apply Nat.eqb_neq in E.
  destruct (exists_last Hne) as [pre [u ->]].
  assert (Hu : Dict.mem (grafo self) u = true)
    by (apply Hin, in_or_app; right; now left).
  rewrite valor_bind by apply solo_lectura_getitem_ultimo.
  rewrite (proj2 (getitem_ultimo_retorna (pre ++ [u]) u self)) by eauto.
  rewrite valor_bind by apply solo_lectura_vecinos_de.
  rewrite vecinos_de_valor, last_last.
  destruct (nx.neighbors (grafo self) u) as [vs|] eqn:Evs.
  2:{ unfold nx.neighbors, Dict.mem in *.
      destruct (Dict.get (grafo self) u); discriminate. }
  apply para_cada_primero.
  - apply solo_lectura_cuerpo_backtrack.
  - intros v Hv. destruct (negb (pertenece v visitados)); [|reflexivity].
    apply IH; try assumption.
    + now destruct pre.
    + intros x Hx. apply in_app_or in Hx. destruct Hx as [Hx|[<-|[]]]; [auto|].
      apply HG with u. now apply neighbors_has_edge with vs.
    + rewrite !length_app in *. simpl in *. lia.
    + rewrite !length_app in *. simpl in *. lia.
    + rewrite !length_app in *. simpl in *. lia.
  - intros v l _ Hl. destruct (negb (pertenece v visitados)); [|destruct Hl].
    apply extensiones_prefijo in Hl. destruct Hl as [resto ->].
    now destruct pre.
Qed.

Lemma encontrar_camino_primero (limite : nat) (self : CircuitoElectronico) :
  grafo_cerrado (grafo self) ->
  2 <= length (nx.nodes (grafo self)) ->
  length (nx.nodes (grafo self)) <= limite ->
  fst (encontrar_camino_hamiltoniano limite self)
    = Retorna (hd_error (caminos_en_orden (grafo self))).
Proof.
  intros HG Hlen Hlim. unfold encontrar_camino_hamiltoniano, bind, leer; simpl.
  destruct (length (nx.nodes (grafo self)) <? 2) eqn:E.
  { apply Nat.ltb_lt in E. lia. }
  apply para_cada_primero.
  - intro x. apply solo_lectura_backtrack.
  - intros inicio Hi. apply backtrack_primero; try assumption; simpl; try lia.
    + discriminate.
    + intros y [<-|[]]. now apply Dict.mem_keys.
  - intros inicio l _ Hl. apply extensiones_prefijo in Hl.
    destruct Hl as [resto ->]. discriminate.
Qed.

(** Where the first of the lists put end to end comes from. *)
Lemma hd_flat_map (g : Id -> list (list Id)) (xs : list Id) (p : list Id) :
  hd_error (flat_map g xs) = Some p ->
  exists l1 x l2,
    xs = l1 ++ x :: l2 /\ (forall y, In y l1 -> g y = []) /\ hd_error (g x) = Some p.
Proof.
  induction xs as [|x xs IH]; [discriminate|]. simpl.
  destruct (g x) as [|l ls] eqn:E.
  - intro Hp. destruct (IH Hp) as [l1 [x' [l2 [-> [Hl1 Hx]]]]].
    exists (x :: l1), x', l2. split; [reflexivity|]. split; [|assumption].
    intros y [<-|Hy]; auto.
  - simpl. intros [= <-]. exists [], x, xs. split; [reflexivity|].
    split; [intros y [] | now rewrite E].
Qed.

(** The first of lists put end to end, against any other element: the
    other one comes from the same place or from a later one. *)
Lemma primero_de_varios (g : Id -> list (list Id)) (xs : list Id) (p q : list Id) :
  hd_error (flat_map g xs) = Some p ->
  In q (flat_map g xs) ->
  exists x, hd_error (g x) = Some p /\
    (In q (g x) \/ exists y, antes xs x y /\ In q (g y)).
Proof.
  intros Hp Hq. destruct (@hd_flat_map _ _ _ Hp) as [l1 [x [l2 [-> [Hl1 Hx]]]]].
  exists x. split; [assumption|].
  apply in_flat_map in Hq. destruct Hq as [y [Hy Hq]].
  destruct (key_eqb_spec x y) as [<-|Hne]; [now left|].
  right. exists y. split; [|assumption].
  assert (Hno : ~ In y l1).
  { intro Hin. rewrite (Hl1 y Hin) in Hq. destruct Hq. }
  exists l1, l2. split; [reflexivity|]. split; [assumption|]. split; [assumption|].
  apply in_app_or in Hy. destruct Hy as [Hy|[Hy|Hy]]; [contradiction | congruence | assumption].
Qed.

(** The first extension is met before every other one. *)
Lemma extensiones_orden (G : nx.Graph) (profundidad : nat) :
  forall nodos camino visitados p q,
    camino <> [] ->
    hd_error (extensiones G profundidad nodos camino visitados) = Some p ->
    In q (extensiones G profundidad nodos camino visitados) ->
    q = p \/ se_prueba_antes G p q.
Proof.
  induction profundidad as [|k IH]; intros nodos camino visitados p q Hne; simpl;
    destruct (length camino =? length nodos).
  - intros [= <-] [<-|[]]. now left.
  - discriminate.
  - intros [= <-] [<-|[]]. now left.
  - destruct (nx.neighbors G (last camino EmptyString)) as [vs|] eqn:Evs;
      [|discriminate].
    intros Hp Hq.
    destruct (@primero_de_varios _ _ _ _ Hp Hq) as [x [Hx [Hqx|[y [Hxy Hqy]]]]].
    + destruct (negb (pertenece x visitados)); [|discriminate].
      apply (IH nodos (camino ++ [x]) (x :: visitados)); try assumption.
      now destruct camino.
    + right.
      destruct (negb (pertenece x visitados)); [|discriminate].
      destruct (negb (pertenece y visitados)); [|destruct Hqy].
      assert (Hpx : In p (extensiones G k nodos (camino ++ [x]) (x :: visitados))).
      { destruct (extensiones G k nodos (camino ++ [x]) (x :: visitados));
          [discriminate|]. injection Hx as ->. now left. }
      apply extensiones_prefijo in Hpx. destruct Hpx as [p' ->].
      apply extensiones_prefijo in Hqy. destruct Hqy as [q' ->].
      exists camino, x, y, p', q'. rewrite <- !app_assoc.
      split; [reflexivity|]. split; [reflexivity|].
      unfold candidatos. destruct camino as [|c camino]; [congruence|].
      now rewrite Evs.
Qed.

(** The first path of [caminos_en_orden] is met before every other one. *)
Lemma caminos_en_orden_primero (G : nx.Graph) (p q : list Id) :
  hd_error (caminos_en_orden G) = Some p ->
  In q (caminos_en_orden G) ->
  q = p \/ se_prueba_antes G p q.
Proof.
  unfold caminos_en_orden. intros Hp Hq.
  destruct (@primero_de_varios _ _ _ _ Hp Hq) as [x [Hx [Hqx|[y [Hxy Hqy]]]]].
  - eapply extensiones_orden; [|exact Hx | exact Hqx]. discriminate.
  - right.
    assert (Hpx : In p (extensiones G (length (nx.nodes G)) (nx.nodes G) [x] [x])).
    { destruct (extensiones G (length (nx.nodes G)) (nx.nodes G) [x] [x]);
        [discriminate|]. injection Hx as ->. now left. }
    apply extensiones_prefijo in Hpx. destruct Hpx as [p' ->].
    apply extensiones_prefijo in Hqy. destruct Hqy as [q' ->].
    exists [], x, y, p', q'. split; [reflexivity|]. split; [reflexivity|].
    exact Hxy.
Qed.

(** *** Soundness and completeness of the enumeration *)

Lemma mem_nodes (G : nx.Graph) (a : Id) : Dict.mem G a = true <-> In a (nx.nodes G).
Proof. apply Dict.mem_keys. Qed.

Lemma encontrar_camino_corto (limite : nat) (self : CircuitoElectronico) :
  length (nx.nodes (grafo self)) < 2 ->
  fst (encontrar_camino_hamiltoniano limite self) = Retorna (Some (nx.nodes (grafo self))).
Proof.
  intro Hlen. unfold encontrar_camino_hamiltoniano, bind, leer; simpl.
  apply Nat.ltb_lt in Hlen. now rewrite Hlen.
Qed.

(** A path returned for at least 2 nodes starts at a node and is a chain
    without repeats of full length. *)
Lemma encontrar_camino_inicio (limite : nat) (self : CircuitoElectronico) (l : list Id) :
  2 <= length (nx.nodes (grafo self)) ->
  fst (encontrar_camino_hamiltoniano limite self) = Retorna (Some l) ->
  exists inicio resto,
    In inicio (nx.nodes (grafo self)) /\ l = inicio :: resto /\
    cadena (grafo self) l /\ NoDup l /\ length l = length (nx.nodes (grafo self)).
Proof.
  intros Hlen. unfold encontrar_camino_hamiltoniano, bind, leer; simpl.
  destruct (length (nx.nodes (grafo self)) <? 2) eqn:E.
  { apply Nat.ltb_lt in E. lia. }
  intro Hr. apply para_cada_retorna in Hr.
  2:{ intro x. apply solo_lectura_backtrack. }
  destruct Hr as [Hr|[_ [inicio [Hin Hb]]]]; [discriminate|].
  apply backtrack_correcto in Hb.
  - destruct Hb as [Hc [Hn [Hl [resto ->]]]]. exists inicio, resto. auto.
  - exact I.
  - repeat constructor. simpl. tauto.
  - auto.
Qed.

Lemma cadena_cola (G : nx.Graph) (a : Id) (l : list Id) :
  cadena G (a :: l) -> cadena G l.
Proof. destruct l; simpl; tauto. Qed.

(** On a closed graph a chain that starts at a node stays among the nodes. *)
Lemma cadena_nodos (G : nx.Graph) :
  grafo_cerrado G ->
  forall l a, cadena G (a :: l) -> Dict.mem G a = true ->
    forall x, In x (a :: l) -> Dict.mem G x = true.
Proof.
  intros HG l. induction l as [|b l IH]; intros a Hc Ha x Hx.
  - destruct Hx as [<-|[]]. exact Ha.
  - destruct Hx as [<-|Hx]; [exact Ha|].
    destruct Hc as [Hab Hc]. apply (IH b); auto. now apply HG with a.
Qed.

Lemma encontrar_camino_es_hamiltoniano (limite : nat) (self : CircuitoElectronico) (l : list Id) :
  grafo_cerrado (grafo self) ->
  NoDup (nx.nodes (grafo self)) ->
  fst (encontrar_camino_hamiltoniano limite self) = Retorna (Some l) ->
  camino_hamiltoniano (grafo self) l.
Proof.
  intros HG Hn Hr.
  destruct (Nat.lt_ge_cases (length (nx.nodes (grafo self))) 2) as [Hlt|Hge].
  - rewrite encontrar_camino_corto in Hr by assumption. injection Hr as <-.
    repeat split; auto.
    destruct (nx.nodes (grafo self)) as [|a [|b r]]; simpl in *; try exact I; lia.
  - destruct (encontrar_camino_inicio limite self Hge Hr)
      as [inicio [resto [Hin [-> [Hc [Hnd Hl]]]]]].
    repeat split; auto.
    intros x Hx. apply mem_nodes.
    apply (cadena_nodos HG Hc); [now apply mem_nodes | assumption].
Qed.

Lemma has_edge_neighbors (G : nx.Graph) (u v : Id) :
  nx.has_edge G u v = true ->
  exists vs, nx.neighbors G u = Some vs /\ In v vs.
Proof.
  unfold nx.has_edge, nx.neighbors. destruct (Dict.get G u) as [d|]; [|discriminate].
  intro Hm. exists (Dict.keys (nx.adj d)). split; [reflexivity|].
  now apply Dict.mem_keys.
Qed.

Lemma cadena_medio (G : nx.Graph) (pre : list Id) (u v : Id) (r : list Id) :
  cadena G ((pre ++ [u]) ++ v :: r) -> nx.has_edge G u v = true.
Proof.
  induction pre as [|a pre IH].
  - simpl. tauto.
  - intro Hc. apply IH. now apply cadena_cola in Hc.
Qed.

(** Every full-length chain through unvisited nodes that extends a path is
    among the extensions listed for it. *)
Lemma extensiones_completo (G : nx.Graph) (resto : list Id) :
  forall profundidad nodos pre u visitados,
    cadena G ((pre ++ [u]) ++ resto) ->
    NoDup resto ->
    (forall x, In x resto -> pertenece x visitados = false) ->
    length ((pre ++ [u]) ++ resto) = length nodos ->
    length resto <= profundidad ->
    In ((pre ++ [u]) ++ resto) (extensiones G profundidad nodos (pre ++ [u]) visitados).
Proof.
  induction resto as [|v r IH]; intros k nodos pre u vis Hc Hn Hv Hl Hk.
  - rewrite app_nil_r in *. apply Nat.eqb_eq in Hl.
    destruct k; simpl; rewrite Hl; now left.
  - destruct k as [|k]; [simpl in Hk; lia|].
    assert (Hne : (length (pre ++ [u]) =? length nodos) = false).
    { apply Nat.eqb_neq. rewrite length_app in Hl. simpl in Hl. lia. }
    simpl. rewrite Hne, last_last.
    assert (Huv := Hc). apply cadena_medio, has_edge_neighbors in Huv.
    destruct Huv as [vs [-> Hin]].
    apply in_flat_map. exists v. split; [assumption|].
    rewrite (Hv v) by now left. simpl.
    replace ((pre ++ [u]) ++ v :: r) with (((pre ++ [u]) ++ [v]) ++ r) in *
      by now rewrite <- app_assoc.
    inversion Hn as [|? ? Hvr Hnr]; subst.
    apply IH; auto.
    + intros x Hx. simpl.
      destruct (String.eqb_spec x v) as [->|_]; [contradiction|].
      apply Hv. now right.
    + simpl in Hk. lia.
Qed.

Lemma hamiltoniano_en_orden (G : nx.Graph) (p : list Id) :
  1 <= length (nx.nodes G) ->
  camino_hamiltoniano G p -> In p (caminos_en_orden G).
Proof.
  intros Hlen [Hn [Hl [Hin Hc]]].
  destruct p as [|inicio resto]; [simpl in Hl; lia|].
  unfold caminos_en_orden. apply in_flat_map. exists inicio.
  split; [apply Hin; now left|].
  inversion Hn as [|? ? Hnot Hnr]; subst.
  apply (@extensiones_completo G resto (length (nx.nodes G)) (nx.nodes G) [] inicio
           [inicio]); auto.
  - intros x Hx. simpl.
    destruct (String.eqb_spec x inicio) as [->|_]; [contradiction | reflexivity].
  - simpl in Hl. lia.
Qed.

(** C9. The path search is repeatable and its result is fixed by the
    order of construction.  A second call on the circuit the first one left
    gives the same result.  Two calls that both return, whatever room on
    the stack each one had, return the same.  And on a graph built through
    the methods (closed, each node once) with at least 2 components and
    room for as many nested calls as it has nodes, the search returns the
    Hamiltonian path that a depth-first search meets first when it takes
    start nodes in the order of [nodes] and neighbours in the order of
    [neighbors], or [None] when the graph has no Hamiltonian path. *)
Theorem encontrar_camino_hamiltoniano_determinista
    (limite limite' : nat) (self : CircuitoElectronico) :
  fst (encontrar_camino_hamiltoniano limite
         (snd (encontrar_camino_hamiltoniano limite self)))
    = fst (encontrar_camino_hamiltoniano limite self) /\
  (forall r r',
     fst (encontrar_camino_hamiltoniano limite self) = Retorna r ->
     fst (encontrar_camino_hamiltoniano limite' self) = Retorna r' ->
     r = r') /\
  (grafo_cerrado (grafo self) ->
   NoDup (nx.nodes (grafo self)) ->
   2 <= length (nx.nodes (grafo self)) ->
   length (nx.nodes (grafo self)) <= limite ->
   (exists p,
      fst (encontrar_camino_hamiltoniano limite self) = Retorna (Some p) /\
      camino_hamiltoniano (grafo self) p /\
      forall q, camino_hamiltoniano (grafo self) q ->
        q = p \/ se_prueba_antes (grafo self) p q) \/
   (fst (encontrar_camino_hamiltoniano limite self) = Retorna None /\
    forall q, ~ camino_hamiltoniano (grafo self) q)).
Proof.
  split; [|split].
  - now rewrite solo_lectura_encontrar_camino.
  - intros r r' Hr Hr'.
    apply encontrar_camino_mas_limite with (k' := Nat.max limite limite') in Hr;
      [|apply Nat.le_max_l].
    apply encontrar_camino_mas_limite with (k' := Nat.max limite limite') in Hr';
      [|apply Nat.le_max_r].
    congruence.
  - intros HG Hn Hlen Hlim.
    pose proof (encontrar_camino_primero self HG Hlen Hlim) as Hr.
    destruct (caminos_en_orden (grafo self)) as [|p ps] eqn:Ec.
    + right. split; [exact Hr|]. intros q Hq.
      apply hamiltoniano_en_orden in Hq; [|lia]. rewrite Ec in Hq. destruct Hq.
    + left. exists p. split; [exact Hr|]. split.
      * now apply encontrar_camino_es_hamiltoniano with limite.
      * intros q Hq. apply caminos_en_orden_primero.
        -- now rewrite Ec.
        -- apply hamiltoniano_en_orden; [lia | assumption].
Qed.

End Circuito.

Arguments CircuitoElectronico N : clear implicits.
Arguments M N A : clear implicits.

(** ** The circuits of the examples *)

Local Open Scope string_scope.

(** The circuit of [crear_circuito_ejemplo], with Python floats. *)
Definition circuito_ejemplo : CircuitoElectronico float :=
  construir
    [agregar_componente "R1" "Resistor" None;
     agregar_componente "R2" "Resistor" None;
     agregar_componente "C1" "Capacitor" None;
     agregar_componente "L1" "Inductor" None;
     agregar_componente "T1" "Transistor" None;
     agregar_componente "VCC" "Fuente" None;
     agregar_conexion "VCC" "R1" 10%float;
     agregar_conexion "R1" "C1" 5%float;
     agregar_conexion "C1" "L1" 3%float;
     agregar_conexion "L1" "T1" 8%float;
     agregar_conexion "T1" "R2" 6%float;
     agregar_conexion "R2" "VCC" 4%float]%string
    (CircuitoElectronico_init "Nuevo Circuito").

(** A graph no sequence of calls builds: A's neighbour Z is not a node. *)
Definition circuito_corrupto : CircuitoElectronico float :=
  {| nombre := "Corrupto";
     grafo :=
       [("A", {| nx.pos := None; nx.adj := [("Z", tt)] |});
        ("B", {| nx.pos := None; nx.adj := [] |});
        ("C", {| nx.pos := None; nx.adj := [] |})]%string;
     componentes := [("A", "Resistor"); ("B", "Resistor"); ("C", "Resistor")]%string;
     conexiones := [] |}.

(** The pair A, B connected once in each orientation. *)
Definition circuito_dos_orientaciones : CircuitoElectronico float :=
  construir
    [agregar_componente "A" "Resistor" None;
     agregar_componente "B" "Resistor" None;
     agregar_conexion "A" "B" 5%float;
     agregar_conexion "B" "A" 7%float]%string
    (CircuitoElectronico_init "Circuito").

(** A and B joined by a connection of weight [peso]. *)
Definition circuito_par {N : Type} (peso : N) : CircuitoElectronico N :=
  construir
    [agregar_componente "A" "Resistor" None;
     agregar_componente "B" "Resistor" None;
     agregar_conexion "A" "B" peso]%string
    (CircuitoElectronico_init "Circuito").

(** A, B and C in a row, both connections of weight 2^1023. *)
Definition circuito_enorme : CircuitoElectronico float :=
  construir
    [agregar_componente "A" "Resistor" None;
     agregar_componente "B" "Resistor" None;
     agregar_componente "C" "Resistor" None;
     agregar_conexion "A" "B" 0x1p1023%float;
     agregar_conexion "B" "C" 0x1p1023%float]
    (CircuitoElectronico_init "Circuito").

(** ** The claims on the examples *)

Lemma encontrar_camino_hamiltoniano_correcto_testigo :
  NoDup ["R1"; "VCC"; "R2"; "T1"; "L1"; "C1"]%string /\
  length ["R1"; "VCC"; "R2"; "T1"; "L1"; "C1"]%string
    = length (nx.nodes (grafo circuito_ejemplo)) /\
  cadena (grafo circuito_ejemplo) ["R1"; "VCC"; "R2"; "T1"; "L1"; "C1"]%string.
Proof.
  apply (proj1 (encontrar_camino_hamiltoniano_correcto 1000 circuito_ejemplo)).
  - vm_compute. lia.
  - vm_compute. reflexivity.
Defined.

Lemma encontrar_ciclo_hamiltoniano_correcto_testigo :
  fst (encontrar_ciclo_hamiltoniano 1000 circuito_ejemplo)
    = Retorna (Some ["R1"; "VCC"; "R2"; "T1"; "L1"; "C1"; "R1"]%string).
Proof.
  apply (proj1 (@encontrar_ciclo_hamiltoniano_correcto float binary64 1000)).
  exists "R1"%string, ["VCC"; "R2"; "T1"; "L1"; "C1"]%string.
  split; [vm_compute; reflexivity|].
  split; vm_compute; reflexivity.
Defined.

(** The search raises on the corrupted graph, and the check says [False]. *)
Lemma es_hamiltoniano_no_propaga_testigo :
  fst (encontrar_camino_hamiltoniano 1000 circuito_corrupto) = Lanza NetworkXError /\
  fst (es_hamiltoniano 1000 circuito_corrupto) = Retorna false.
Proof.
  assert (Hl : fst (encontrar_camino_hamiltoniano 1000 circuito_corrupto)
               = Lanza NetworkXError) by (vm_compute; reflexivity).
  split; [exact Hl|].
  exact (proj1 (proj2 (es_hamiltoniano_no_propaga 1000 circuito_corrupto)) _ Hl).
Defined.

Lemma circuito_ejemplo_cerrado : grafo_cerrado (grafo circuito_ejemplo).
Proof.
  unfold circuito_ejemplo. apply construir_cerrado.
  - repeat constructor.
  - apply grafo_cerrado_init.
Qed.

Lemma encontrar_camino_hamiltoniano_determinista_testigo :
  (exists p,
     fst (encontrar_camino_hamiltoniano 1000 circuito_ejemplo) = Retorna (Some p) /\
     camino_hamiltoniano (grafo circuito_ejemplo) p /\
     forall q, camino_hamiltoniano (grafo circuito_ejemplo) q ->
       q = p \/ se_prueba_antes (grafo circuito_ejemplo) p q) \/
  (fst (encontrar_camino_hamiltoniano 1000 circuito_ejemplo) = Retorna None /\
   forall q, ~ camino_hamiltoniano (grafo circuito_ejemplo) q).
Proof.
  apply (proj2 (proj2
           (encontrar_camino_hamiltoniano_determinista 1000 6 circuito_ejemplo))).
  - apply circuito_ejemplo_cerrado.
  - vm_compute. repeat constructor; cbn [In]; intuition discriminate.
  - vm_compute. lia.
  - vm_compute. lia.
Defined.

(** C3, against the claim as stated: R1 is a component of the example
    circuit, and adding it again returns normally; the call replaces the
    component's type, and the position given with it is now the node's. *)
Lemma agregar_componente_duplicado_no_falla :
  Dict.mem (componentes circuito_ejemplo) "R1"%string = true /\
  fst (agregar_componente "R1" "Capacitor" (Some (3, 4)%Z) circuito_ejemplo)
    = Retorna tt /\
  Dict.get
    (componentes
       (snd (agregar_componente "R1" "Capacitor" (Some (3, 4)%Z) circuito_ejemplo)))
    "R1"%string = Some "Capacitor"%string /\
  option_map nx.pos
    (Dict.get
       (grafo (snd (agregar_componente "R1" "Capacitor" (Some (3, 4)%Z)
                      circuito_ejemplo)))
       "R1"%string) = Some (Some (3, 4)%Z).
Proof. split; [|split; [|split]]; vm_compute; reflexivity. Qed.

(** C4, against the claim as stated: connecting R1 to X9, which is not a
    component, returns normally and leaves X9 a node of the graph that is
    no component; connecting R1 to itself returns normally and leaves a
    loop on R1. *)
Lemma agregar_conexion_invalida_no_falla :
  Dict.mem (componentes circuito_ejemplo) "X9"%string = false /\
  fst (agregar_conexion "R1" "X9" 1%float circuito_ejemplo) = Retorna tt /\
  Dict.mem (grafo (snd (agregar_conexion "R1" "X9" 1%float circuito_ejemplo)))
    "X9"%string = true /\
  Dict.mem (componentes (snd (agregar_conexion "R1" "X9" 1%float circuito_ejemplo)))
    "X9"%string = false /\
  fst (agregar_conexion "R1" "R1" 1%float circuito_ejemplo) = Retorna tt /\
  nx.has_edge (grafo (snd (agregar_conexion "R1" "R1" 1%float circuito_ejemplo)))
    "R1"%string "R1"%string = true.
Proof. repeat (split; [vm_compute; reflexivity|]). vm_compute; reflexivity. Qed.

(** C5, the code at the failing input: after A-B is stored with 5.0 and
    then B-A with 7.0 the connection map holds two weights for the pair,
    and the evaluator uses 5.0 for the path A, B and 7.0 for B, A. *)
Lemma conexion_en_dos_orientaciones :
  conexiones circuito_dos_orientaciones
    = [(("A", "B"), 5%float); (("B", "A"), 7%float)]%string /\
  Dict.len (conexiones circuito_dos_orientaciones) = 2 /\
  fst (calcular_eficiencia_energetica (Some ["A"; "B"]%string)
         circuito_dos_orientaciones) = Retorna (1 / (1 + 5))%float /\
  fst (calcular_eficiencia_energetica (Some ["B"; "A"]%string)
         circuito_dos_orientaciones) = Retorna (1 / (1 + 7))%float /\
  PrimFloat.eqb (1 / (1 + 5)) (1 / (1 + 7)) = false.
Proof. repeat (split; [vm_compute; reflexivity|]). vm_compute; reflexivity. Qed.

(** ** The value of the efficiency *)

(** C6 as the code has it, in the arithmetic the program runs.
    [calcular_eficiencia_energetica] returns 0, without raising, for
    [None], the empty path and a path of one element.  For a longer path it
    returns [1.0 / (1.0 + totalWeight)], where [totalWeight] adds, over the
    consecutive pairs, the weight stored for the pair in either
    orientation, and 1.0 for a pair that has none, unless
    [1.0 + totalWeight] is zero: then it raises [ZeroDivisionError]. *)
Theorem calcular_eficiencia_energetica_correcto (self : CircuitoElectronico float) :
  calcular_eficiencia_energetica None self = (Retorna 0%float, self) /\
  calcular_eficiencia_energetica (Some []) self = (Retorna 0%float, self) /\
  (forall a, calcular_eficiencia_energetica (Some [a]) self = (Retorna 0%float, self)) /\
  forall a b l,
    let total := totalWeight (conexiones self) (a :: b :: l) in
    calcular_eficiencia_energetica (Some (a :: b :: l)) self =
    if (1 + total =? 0)%float then (Lanza ZeroDivisionError, self)
    else (Retorna (1 / (1 + total))%float, self).
Proof.
  split; [reflexivity|]. split; [reflexivity|]. split; [reflexivity|].
  intros a b l. cbv zeta. rewrite calcular_eficiencia_energetica_ecuacion.
  cbn [dividir uno sumar binary64 length Nat.ltb Nat.leb].
  destruct (1 + totalWeight (conexiones self) (a :: b :: l) =? 0)%float; reflexivity.
Qed.

(** C6, against the claim as stated: with the weight -1.0 stored for A-B
    the path A, B has the total weight -1.0, [1.0 + totalWeight] is zero,
    and the evaluator raises instead of returning a value. *)
Lemma eficiencia_division_por_cero :
  totalWeight (conexiones (circuito_par (-1)%float)) ["A"; "B"] = (-1)%float /\
  fst (calcular_eficiencia_energetica (Some ["A"; "B"]) (circuito_par (-1)%float))
    = Lanza ZeroDivisionError.
Proof. split; vm_compute; reflexivity. Qed.

(** ** Rounding in binary64 *)

(** What the range and the monotonicity of the efficiency rest on: the
    floats from zero to infinity are ordered as the rationals they stand
    for, and [+] and [/] on them are the exact operations followed by
    rounding to nearest, ties to even, which is monotone.  The operations
    are those of the binary64 specification that Rocq's floats are
    axiomatised by. *)

From Stdlib Require Import Qround Qpower Lqa.
From Stdlib Require Import Floats.

Unset Implicit Arguments.

Module Redondeo.
Local Open Scope Z_scope.

(** ** Digits *)

Lemma digits2_cotas (p : positive) :
  2 ^ (Zpos (digits2_pos p) - 1) <= Zpos p < 2 ^ Zpos (digits2_pos p).
Proof.
  induction p as [p IH|p IH|]; cbn [digits2_pos].
  - rewrite Pos2Z.inj_succ, Z.pow_succ_r by lia.
    replace (Z.succ (Zpos (digits2_pos p)) - 1) with (Z.succ (Zpos (digits2_pos p) - 1)) by lia.
    rewrite Z.pow_succ_r by lia. lia.
  - rewrite Pos2Z.inj_succ, Z.pow_succ_r by lia.
    replace (Z.succ (Zpos (digits2_pos p)) - 1) with (Z.succ (Zpos (digits2_pos p) - 1)) by lia.
    rewrite Z.pow_succ_r by lia. lia.
  - simpl. lia.
Qed.

(** ** Powers of two *)

Local Open Scope Q_scope.

Definition p2 (e : Z) : Q := 2 ^ e.

Lemma p2_pos (e : Z) : 0 < p2 e.
Proof. apply Qpower_0_lt. reflexivity. Qed.

Lemma p2_add (a b : Z) : p2 (a + b) == p2 a * p2 b.
Proof. apply Qpower_plus. discriminate. Qed.

Lemma p2_0 : p2 0 == 1.
Proof. reflexivity. Qed.

Lemma p2_1 : p2 1 == 2.
Proof. reflexivity. Qed.

Lemma p2_opp (a : Z) : p2 (- a) == / p2 a.
Proof. apply Qpower_opp. Qed.

Lemma p2_le (a b : Z) : (a <= b)%Z -> p2 a <= p2 b.
Proof. intro H. apply Qpower_le_compat_l; [assumption | discriminate]. Qed.

Lemma p2_lt (a b : Z) : (a < b)%Z -> p2 a < p2 b.
Proof. intro H. apply Qpower_lt_compat_l; [assumption | reflexivity]. Qed.

Lemma p2_Z (e : Z) : (0 <= e)%Z -> p2 e == inject_Z (2 ^ e).
Proof. intro H. unfold p2. now rewrite Zpower_Qpower. Qed.

Lemma p2_succ (a : Z) : p2 (a + 1) == 2 * p2 a.
Proof. rewrite p2_add, p2_1. ring. Qed.

Lemma p2_inv (a : Z) : p2 a * p2 (- a) == 1.
Proof. rewrite <- p2_add. now rewrite Z.add_opp_diag_r. Qed.


(** ** Shifting right *)

(** Where a non-negative rational lies against a shift record: at the
    mantissa plus the half the round bit stands for when the sticky bit is
    clear, and strictly within the half above that when it is set. *)
Definition ubica (x : Q) (mrs : shr_record) : Prop :=
  (0 <= shr_m mrs)%Z /\
  let c := inject_Z (shr_m mrs) + (if shr_r mrs then 1 # 2 else 0) in
  if shr_s mrs then c < x /\ x < c + (1 # 2) else x == c.

Lemma inject_xI (p : positive) : inject_Z (Zpos p~1) == 2 * inject_Z (Zpos p) + 1.
Proof. rewrite Pos2Z.inj_xI, inject_Z_plus, inject_Z_mult. reflexivity. Qed.

Lemma inject_xO (p : positive) : inject_Z (Zpos p~0) == 2 * inject_Z (Zpos p).
Proof. rewrite Pos2Z.inj_xO, inject_Z_mult. reflexivity. Qed.

Ltac parte H :=
  match type of H with
  | _ /\ _ => destruct H
  | _ => idtac
  end.

Lemma shr_1_ubica (x : Q) (mrs : shr_record) :
  ubica x mrs -> ubica (x * (1 # 2)) (shr_1 mrs).
Proof.
  destruct mrs as [m r s]. unfold ubica. cbn [shr_m shr_r shr_s].
  intros [Hm H]. destruct m as [|p|p]; [| |lia].
  - change (inject_Z 0) with 0 in *.
    destruct r, s; cbn [shr_1 shr_m shr_r shr_s orb] in *; (split; [lia|]);
      change (inject_Z 0) with 0 in *; parte H; try split; lra.
  - destruct p as [p|p|].
    + pose proof (inject_xI p) as Hp.
      destruct r, s; cbn [shr_1 shr_m shr_r shr_s orb] in *; (split; [lia|]);
        parte H; try split; lra.
    + pose proof (inject_xO p) as Hp.
      destruct r, s; cbn [shr_1 shr_m shr_r shr_s orb] in *; (split; [lia|]);
        parte H; try split; lra.
    + change (inject_Z 1) with 1 in *.
      destruct r, s; cbn [shr_1 shr_m shr_r shr_s orb] in *; (split; [lia|]);
        change (inject_Z 0) with 0 in *; parte H; try split; lra.
Qed.

Lemma ubica_ext (x y : Q) (mrs : shr_record) : x == y -> ubica x mrs -> ubica y mrs.
Proof.
  intros Hxy [Hm H]. split; [assumption|]. cbv zeta in *.
  destruct (shr_s mrs); [destruct H; split; lra | lra].
Qed.

Lemma p2_xI (n : positive) :
  p2 (- Zpos n~1) == (1 # 2) * (p2 (- Zpos n) * p2 (- Zpos n)).
Proof.
  replace (- Zpos n~1)%Z with (- 1 + (- Zpos n + - Zpos n))%Z by lia.
  rewrite !p2_add. reflexivity.
Qed.

Lemma p2_xO (n : positive) : p2 (- Zpos n~0) == p2 (- Zpos n) * p2 (- Zpos n).
Proof.
  replace (- Zpos n~0)%Z with (- Zpos n + - Zpos n)%Z by lia.
  now rewrite p2_add.
Qed.

Lemma iter_pos_ubica (n : positive) :
  forall (x : Q) (mrs : shr_record),
    ubica x mrs -> ubica (x * p2 (- Zpos n)) (iter_pos shr_1 n mrs).
Proof.
  induction n as [n IH|n IH|]; intros x mrs H; cbn [iter_pos].
  - apply shr_1_ubica, IH, IH in H. revert H. apply ubica_ext.
    rewrite p2_xI. ring.
  - apply IH, IH in H. revert H. apply ubica_ext.
    rewrite p2_xO. ring.
  - apply shr_1_ubica in H. revert H. apply ubica_ext. reflexivity.
Qed.

(** ** Rounding to the nearest integer, ties to even *)

Definition Qrne (x : Q) : Z :=
  let f := Qfloor x in
  match (x - inject_Z f ?= 1 # 2)%Q with
  | Lt => f
  | Eq => if Z.even f then f else (f + 1)%Z
  | Gt => (f + 1)%Z
  end.

Lemma floor_unico (x : Q) (m : Z) :
  inject_Z m <= x -> x < inject_Z m + 1 -> Qfloor x = m.
Proof.
  intros Hle Hlt.
  pose proof (Qfloor_le x) as H1. pose proof (Qlt_floor x) as H2.
  rewrite inject_Z_plus in H2. change (inject_Z 1) with 1 in H2.
  assert (Ha : inject_Z m < inject_Z (Qfloor x) + 1) by lra.
  assert (Hb : inject_Z (Qfloor x) < inject_Z m + 1) by lra.
  change 1 with (inject_Z 1) in Ha, Hb. rewrite <- inject_Z_plus in Ha, Hb.
  rewrite <- Zlt_Qlt in Ha, Hb. lia.
Qed.

Lemma ubica_cotas (x : Q) (mrs : shr_record) :
  ubica x mrs -> inject_Z (shr_m mrs) <= x /\ x < inject_Z (shr_m mrs) + 1.
Proof.
  destruct mrs as [m r s]. unfold ubica. cbn [shr_m shr_r shr_s].
  intros [_ H]. destruct r, s; parte H; split; lra.
Qed.

Lemma rne_ubica (x : Q) (mrs : shr_record) :
  ubica x mrs -> round_nearest_even (shr_m mrs) (loc_of_shr_record mrs) = Qrne x.
Proof.
  intro H. destruct (ubica_cotas x mrs H) as [Hle Hlt].
  unfold Qrne. rewrite (floor_unico x _ Hle Hlt).
  destruct mrs as [m r s]. unfold ubica in H. cbn [shr_m shr_r shr_s] in *.
  destruct H as [_ H].
  destruct r, s; parte H; cbn [loc_of_shr_record round_nearest_even].
  - assert (Hc : (x - inject_Z m ?= 1 # 2) = Gt) by (apply (proj1 (Qgt_alt _ _)); lra).
    now rewrite Hc.
  - assert (Hc : (x - inject_Z m ?= 1 # 2) = Eq) by (apply (proj1 (Qeq_alt _ _)); lra).
    now rewrite Hc.
  - assert (Hc : (x - inject_Z m ?= 1 # 2) = Lt) by (apply (proj1 (Qlt_alt _ _)); lra).
    now rewrite Hc.
  - assert (Hc : (x - inject_Z m ?= 1 # 2) = Lt) by (apply (proj1 (Qlt_alt _ _)); lra).
    now rewrite Hc.
Qed.

Lemma Qrne_cotas (x : Q) :
  (Qfloor x <= Qrne x <= Qfloor x + 1)%Z.
Proof.
  unfold Qrne. destruct (x - inject_Z (Qfloor x) ?= 1 # 2); [|lia|lia].
  destruct (Z.even (Qfloor x)); lia.
Qed.

Lemma Qrne_Z (n : Z) : Qrne (inject_Z n) = n.
Proof.
  unfold Qrne. rewrite Qfloor_Z.
  assert (Hc : (inject_Z n - inject_Z n ?= 1 # 2) = Lt) by (apply (proj1 (Qlt_alt _ _)); lra).
  now rewrite Hc.
Qed.

Lemma Qrne_mono (x y : Q) : x <= y -> (Qrne x <= Qrne y)%Z.
Proof.
  intro Hxy. pose proof (Qfloor_resp_le x y Hxy) as Hf.
  destruct (Z.eq_dec (Qfloor x) (Qfloor y)) as [He|Hne].
  - unfold Qrne. rewrite <- He.
    destruct (Qcompare_spec (x - inject_Z (Qfloor x)) (1 # 2)) as [H1|H1|H1];
      destruct (Qcompare_spec (y - inject_Z (Qfloor x)) (1 # 2)) as [H2|H2|H2];
      try destruct (Z.even (Qfloor x)); try lia; exfalso; lra.
  - pose proof (Qrne_cotas x). pose proof (Qrne_cotas y). lia.
Qed.

Lemma Qrne_le_Z (x : Q) (n : Z) : x <= inject_Z n -> (Qrne x <= n)%Z.
Proof. intro H. apply Qrne_mono in H. now rewrite Qrne_Z in H. Qed.

Lemma Qrne_ge_Z (x : Q) (n : Z) : inject_Z n <= x -> (n <= Qrne x)%Z.
Proof. intro H. apply Qrne_mono in H. now rewrite Qrne_Z in H. Qed.

(** ** Rounding a positive rational to binary64 *)

Lemma fexp_valor (e : Z) : SpecFloat.fexp prec emax e = Z.max (e - 53) (-1074).
Proof. reflexivity. Qed.

Lemma mul_p2_lt (v : Q) (a b : Z) : v < p2 a -> v * p2 b < p2 (a + b).
Proof.
  intro H. rewrite p2_add. apply Qmult_lt_compat_r; [apply p2_pos | exact H].
Qed.

Lemma mul_p2_le (v : Q) (a b : Z) : p2 a <= v -> p2 (a + b) <= v * p2 b.
Proof.
  intro H. rewrite p2_add. apply Qmult_le_compat_r; [exact H|].
  apply Qlt_le_weak, p2_pos.
Qed.

Lemma mul_p2_mono (v w : Q) (b : Z) : v <= w -> v * p2 b <= w * p2 b.
Proof.
  intro H. apply Qmult_le_compat_r; [exact H | apply Qlt_le_weak, p2_pos].
Qed.

(** The exponent [g] of the last place of the binary64 numbers around
    [v]: the least one, -1074, below 2^-1021, and otherwise the one that
    puts [v] between 2^52 and 2^53 units. *)
Definition escala (v : Q) (g : Z) : Prop :=
  (g = (-1074)%Z /\ v < p2 (-1021)) \/
  ((-1074 <= g)%Z /\ p2 (g + 52) <= v /\ v < p2 (g + 53)).

(** [r] is [v] rounded to the nearest multiple of its last place, ties to
    even; [r] may be 2^1024 or more, where binary64 has no finite number. *)
Definition redondea (v r : Q) : Prop :=
  exists g, escala v g /\ r == inject_Z (Qrne (v * p2 (- g))) * p2 g.

Lemma escala_techo (v : Q) (g : Z) : escala v g -> v < p2 (g + 53).
Proof. intros [[-> H]|[_ [_ H]]]; assumption. Qed.

Lemma escala_min (v : Q) (g : Z) : escala v g -> (-1074 <= g)%Z.
Proof. intros [[-> H]|[H _]]; [lia | assumption]. Qed.

Lemma escala_piso (v : Q) (g : Z) : escala v g -> (-1074 < g)%Z -> p2 (g + 52) <= v.
Proof. intros [[-> H]|[_ [H _]]] Hg; [lia | assumption]. Qed.

Lemma redondea_mono (v w r s : Q) :
  v <= w -> redondea v r -> redondea w s -> r <= s.
Proof.
  intros Hvw [g [Hg Hr]] [h [Hh Hs]]. rewrite Hr, Hs.
  pose proof (escala_techo v g Hg) as Hvt.
  pose proof (escala_techo w h Hh) as Hwt.
  pose proof (escala_min v g Hg) as Hgm.
  pose proof (escala_min w h Hh) as Hhm.
  assert (Hgh : (g <= h)%Z).
  { destruct (Z_le_gt_dec g h) as [|Hgt]; [assumption|]. exfalso.
    assert (Hp : p2 (g + 52) <= v) by (apply escala_piso; [assumption | lia]).
    assert (Hq : p2 (h + 53) <= p2 (g + 52)) by (apply p2_le; lia).
    lra. }
  destruct (Z.eq_dec g h) as [<-|Hne].
  - apply Qmult_le_compat_r; [|apply Qlt_le_weak, p2_pos].
    rewrite <- Zle_Qle. apply Qrne_mono. now apply mul_p2_mono.
  - assert (Hp : p2 (h + 52) <= w) by (apply escala_piso; [assumption | lia]).
    apply Qle_trans with (p2 (g + 53)).
    + assert (Hx : v * p2 (- g) <= inject_Z (2 ^ 53)).
      { rewrite <- p2_Z by lia. apply Qlt_le_weak.
        pose proof (mul_p2_lt v (g + 53) (- g) Hvt) as Hx.
        now replace (g + 53 + - g)%Z with 53%Z in Hx by lia. }
      apply Qrne_le_Z in Hx. rewrite Zle_Qle in Hx.
      rewrite (Z.add_comm g 53), p2_add, (p2_Z 53) by lia.
      apply Qmult_le_compat_r; [exact Hx | apply Qlt_le_weak, p2_pos].
    + apply Qle_trans with (p2 (h + 52)); [apply p2_le; lia|].
      assert (Hx : inject_Z (2 ^ 52) <= w * p2 (- h)).
      { rewrite <- p2_Z by lia.
        pose proof (mul_p2_le w (h + 52) (- h) Hp) as Hx.
        now replace (h + 52 + - h)%Z with 52%Z in Hx by lia. }
      apply Qrne_ge_Z in Hx. rewrite Zle_Qle in Hx.
      rewrite (Z.add_comm h 52), p2_add, (p2_Z 52) by lia.
      apply Qmult_le_compat_r; [exact Hx | apply Qlt_le_weak, p2_pos].
Qed.

(** ** What [binary_round_aux] computes *)

Lemma shr_ubica (x : Q) (mrs : shr_record) (e n : Z) :
  ubica x mrs -> (0 <= n)%Z ->
  snd (shr mrs e n) = (e + n)%Z /\ ubica (x * p2 (- n)) (fst (shr mrs e n)).
Proof.
  intros H Hn. destruct n as [|p|p]; [| |lia]; cbn [shr fst snd].
  - split; [lia|]. revert H. apply ubica_ext. change (p2 (- 0)) with (p2 0).
    rewrite p2_0. ring.
  - split; [reflexivity|]. now apply iter_pos_ubica.
Qed.

Lemma shr_nada (mrs : shr_record) (e n : Z) : (n <= 0)%Z -> shr mrs e n = (mrs, e).
Proof. intro Hn. destruct n as [|p|p]; [reflexivity | lia | reflexivity]. Qed.

Lemma digits_le (p : positive) (k : Z) :
  (0 <= k)%Z -> (Zpos p < 2 ^ k)%Z -> (Zpos (digits2_pos p) <= k)%Z.
Proof.
  intros Hk Hp. pose proof (digits2_cotas p) as [Hlo _].
  destruct (Z_le_gt_dec (Zpos (digits2_pos p)) k) as [|Hgt]; [assumption|]. exfalso.
  assert (2 ^ k <= 2 ^ (Zpos (digits2_pos p) - 1))%Z by (apply Z.pow_le_mono_r; lia).
  lia.
Qed.

(** The second alignment of [binary_round_aux]: it moves the mantissa only
    when rounding carried it to 2^53. *)
Lemma segundo_ajuste (M g : Z) :
  (0 <= M <= 2 ^ 53)%Z -> (-1074 <= g)%Z ->
  shr_fexp prec emax M g loc_Exact =
  if (M =? 2 ^ 53)%Z
  then ({| shr_m := 2 ^ 52; shr_r := false; shr_s := false |}, (g + 1)%Z)
  else ({| shr_m := M; shr_r := false; shr_s := false |}, g).
Proof.
  intros HM Hg. unfold shr_fexp. cbn [shr_record_of_loc]. rewrite fexp_valor.
  destruct (Z.eqb_spec M (2 ^ 53)) as [->|Hne].
  - change (Zdigits2 (2 ^ 53)) with 54%Z.
    replace (Z.max (54 + g - 53) (-1074) - g)%Z with 1%Z by lia. reflexivity.
  - apply shr_nada. destruct M as [|p|p]; [cbn [Zdigits2]; lia | | lia].
    cbn [Zdigits2]. assert (Zpos (digits2_pos p) <= 53)%Z by (apply digits_le; lia).
    lia.
Qed.

(** What a non-negative result stands for, against the rounded value. *)
Definition representa (z : spec_float) (r : Q) : Prop :=
  match z with
  | S754_zero false => r == 0
  | S754_finite false m e => r == inject_Z (Zpos m) * p2 e /\ r < p2 1024
  | S754_infinity false => p2 1024 <= r
  | _ => False
  end.

Lemma escala_ubicado (mx ex : Z) (v : Q) :
  (0 <= mx)%Z ->
  inject_Z mx <= v * p2 (- ex) -> v * p2 (- ex) < inject_Z mx + 1 ->
  (ex <= SpecFloat.fexp prec emax (Zdigits2 mx + ex))%Z ->
  escala v (SpecFloat.fexp prec emax (Zdigits2 mx + ex)).
Proof.
  intros Hm Hlo Hhi Hex. rewrite fexp_valor in *.
  assert (Hv : v == v * p2 (- ex) * p2 ex).
  { rewrite <- Qmult_assoc, (Qmult_comm (p2 (- ex))), p2_inv. ring. }
  destruct mx as [|p|p]; [| |lia].
  - cbn [Zdigits2] in *. left. split; [lia|].
    change (inject_Z 0) with 0 in *.
    assert (Hlt : v * p2 (- ex) < p2 0) by (rewrite p2_0; lra).
    apply mul_p2_lt with (b := ex) in Hlt. cbn [Z.add] in Hlt.
    assert (p2 ex <= p2 (-1074)) by (apply p2_le; lia).
    assert (p2 (-1074) < p2 (-1021)) by (apply p2_lt; lia). lra.
  - cbn [Zdigits2] in *. pose proof (digits2_cotas p) as [Hdlo Hdhi].
    set (d := Zpos (digits2_pos p)) in *.
    assert (Hd : (1 <= d)%Z) by (unfold d; lia).
    assert (Hlo' : p2 (d - 1 + ex) <= v).
    { pose proof (p2_Z (d - 1) ltac:(lia)) as Hp.
      rewrite Zle_Qle in Hdlo.
      assert (Ha : p2 (d - 1) <= v * p2 (- ex)) by lra.
      apply mul_p2_le with (b := ex) in Ha. lra. }
    assert (Hhi' : v < p2 (d + ex)).
    { pose proof (p2_Z d ltac:(lia)) as Hp.
      assert (Hb : (Zpos p + 1 <= 2 ^ d)%Z) by lia.
      rewrite Zle_Qle, inject_Z_plus in Hb. change (inject_Z 1) with 1 in Hb.
      assert (Ha : v * p2 (- ex) < p2 d) by lra.
      apply mul_p2_lt with (b := ex) in Ha. lra. }
    destruct (Z_le_gt_dec (-1074) (d + ex - 53)) as [Hn|Hs].
    + right. rewrite Z.max_l by lia. split; [lia|].
      replace (d + ex - 53 + 52)%Z with (d - 1 + ex)%Z by lia.
      replace (d + ex - 53 + 53)%Z with (d + ex)%Z by lia. now split.
    + left. rewrite Z.max_r by lia. split; [reflexivity|].
      assert (p2 (d + ex) <= p2 (-1021)) by (apply p2_le; lia). lra.
Qed.

Theorem redondeo_correcto (mx ex : Z) (lx : location) (v : Q) :
  ubica (v * p2 (- ex)) (shr_record_of_loc mx lx) ->
  (ex <= SpecFloat.fexp prec emax (Zdigits2 mx + ex))%Z ->
  exists r, redondea v r /\ representa (binary_round_aux prec emax false mx ex lx) r.
Proof.
  intros Hu Hex.
  assert (Hmx : (0 <= mx)%Z) by (destruct Hu as [Hm _]; now destruct lx as [|[]]).
  destruct (ubica_cotas _ _ Hu) as [Hlo Hhi].
  replace (shr_m (shr_record_of_loc mx lx)) with mx in Hlo, Hhi
    by now destruct lx as [|[]].
  pose proof (escala_ubicado mx ex v Hmx Hlo Hhi Hex) as Hesc.
  unfold binary_round_aux. unfold shr_fexp at 1.
  set (g := SpecFloat.fexp prec emax (Zdigits2 mx + ex)) in *.
  pose proof (escala_min v g Hesc) as Hg.
  destruct (shr_ubica _ _ ex (g - ex) Hu ltac:(lia)) as [He Hu'].
  destruct (shr (shr_record_of_loc mx lx) ex (g - ex)) as [mrs' e'].
  cbn [fst snd] in He, Hu'. replace (ex + (g - ex))%Z with g in He by lia. subst e'.
  assert (Hx : v * p2 (- ex) * p2 (- (g - ex)) == v * p2 (- g)).
  { rewrite <- Qmult_assoc, <- p2_add. now replace (- ex + - (g - ex))%Z with (- g)%Z by lia. }
  apply (ubica_ext _ _ _ Hx) in Hu'. clear Hx.
  rewrite (rne_ubica _ _ Hu').
  set (M := Qrne (v * p2 (- g))).
  assert (HM0 : (0 <= M)%Z).
  { apply Qrne_ge_Z. change (inject_Z 0) with 0.
    apply Qle_trans with (inject_Z (shr_m mrs')).
    - destruct Hu' as [Hm _]. now rewrite Zle_Qle in Hm.
    - apply (ubica_cotas _ _ Hu'). }
  assert (HM1 : (M <= 2 ^ 53)%Z).
  { apply Qrne_le_Z. pose proof (p2_Z 53 ltac:(lia)) as Hp.
    pose proof (mul_p2_lt v (g + 53) (- g) (escala_techo v g Hesc)) as Ht.
    replace (g + 53 + - g)%Z with 53%Z in Ht by lia. lra. }
  exists (inject_Z M * p2 g). split.
  { exists g. split; [assumption | reflexivity]. }
  rewrite (segundo_ajuste M g) by lia.
  change (Z.sub emax prec) with 971%Z.
  destruct (Z.eqb_spec M (2 ^ 53)) as [HM|HM].
  - cbn [shr_m]. change (2 ^ 52)%Z with (Zpos (2 ^ 52)). cbv iota. rewrite HM.
    assert (Hr : inject_Z (2 ^ 53) * p2 g == p2 (g + 53)).
    { pose proof (p2_Z 53 ltac:(lia)) as Hp. rewrite <- Hp, <- p2_add.
      now rewrite Z.add_comm. }
    destruct (Z.leb_spec (g + 1) 971) as [Hle|Hgt]; cbn [representa].
    + split.
      * rewrite Hr. change (inject_Z (Zpos (2 ^ 52))) with (inject_Z (2 ^ 52)).
        pose proof (p2_Z 52 ltac:(lia)) as Hp. rewrite <- Hp, <- p2_add.
        now replace (52 + (g + 1))%Z with (g + 53)%Z by lia.
      * rewrite Hr. apply p2_lt. lia.
    + rewrite Hr. apply p2_le. lia.
  - cbn [shr_m].
    destruct M as [|m|m] eqn:EM; [| |lia]; cbv iota; cbn [representa].
    + change (inject_Z 0) with 0. ring.
    + destruct (Z.leb_spec g 971) as [Hle|Hgt]; cbn [representa].
      * split; [reflexivity|].
        apply Qlt_le_trans with (p2 (53 + g)); [|apply p2_le; lia].
        pose proof (p2_Z 53 ltac:(lia)) as Hp. rewrite p2_add, Hp.
        apply Qmult_lt_compat_r; [apply p2_pos|]. rewrite <- Zlt_Qlt. lia.
      * apply Qle_trans with (p2 (52 + g)); [apply p2_le; lia|].
        pose proof (p2_Z 52 ltac:(lia)) as Hp. rewrite p2_add, Hp.
        apply Qmult_le_compat_r; [|apply Qlt_le_weak, p2_pos].
        rewrite <- Zle_Qle, <- EM. apply Qrne_ge_Z. rewrite <- Hp.
        pose proof (mul_p2_le v (g + 52) (- g) (escala_piso v g Hesc ltac:(lia))) as Ht.
        now replace (g + 52 + - g)%Z with 52%Z in Ht by lia.
Qed.

(** ** Non-negative binary64 numbers and their order *)

(** The value a non-negative number stands for; infinity stands for
    2^1024, the least value that rounds to it. *)
Definition valor (z : spec_float) : Q :=
  match z with
  | S754_finite _ m e => inject_Z (Zpos m) * p2 e
  | S754_infinity _ => p2 1024
  | _ => 0
  end.

Definition no_negativo (z : spec_float) : Prop :=
  match z with
  | S754_zero _ | S754_finite false _ _ | S754_infinity false => True
  | _ => False
  end.

Lemma valido_cotas (m : positive) (e : Z) :
  bounded prec emax m e = true ->
  (-1074 <= e <= 971)%Z /\ (Zpos m < 2 ^ 53)%Z /\
  ((-1074 < e)%Z -> (2 ^ 52 <= Zpos m)%Z).
Proof.
  unfold bounded, canonical_mantissa. rewrite fexp_valor.
  change (Z.sub emax prec) with 971%Z.
  intro H. apply andb_prop in H. destruct H as [Hc He].
  apply Z.eqb_eq in Hc. apply Z.leb_le in He.
  pose proof (digits2_cotas m) as [Hlo Hhi].
  set (d := Zpos (digits2_pos m)) in *.
  assert (Hd : (d <= 53)%Z) by lia.
  split; [lia|]. split.
  - apply Z.lt_le_trans with (2 ^ d)%Z; [assumption|].
    apply Z.pow_le_mono_r; lia.
  - intro Hn. assert (d = 53)%Z by lia. subst d.
    replace 52%Z with (53 - 1)%Z by lia. now rewrite <- H.
Qed.

Lemma valor_finito_cotas (m : positive) (e : Z) :
  bounded prec emax m e = true ->
  0 < inject_Z (Zpos m) * p2 e /\
  inject_Z (Zpos m) * p2 e < p2 (e + 53) /\
  ((-1074 < e)%Z -> p2 (e + 52) <= inject_Z (Zpos m) * p2 e).
Proof.
  intro H. destruct (valido_cotas m e H) as [He [Hm Hn]].
  pose proof (p2_pos e) as Hp. split; [|split].
  - apply Qmult_lt_0_compat; [|assumption]. now rewrite <- (Zlt_Qlt 0).
  - rewrite Z.add_comm, p2_add. pose proof (p2_Z 53 ltac:(lia)) as H53. rewrite H53.
    apply Qmult_lt_compat_r; [assumption|]. now rewrite <- Zlt_Qlt.
  - intro Hgt. rewrite Z.add_comm, p2_add. pose proof (p2_Z 52 ltac:(lia)) as H52.
    rewrite H52. apply Qmult_le_compat_r; [|now apply Qlt_le_weak].
    rewrite <- Zle_Qle. now apply Hn.
Qed.

Lemma valor_no_negativo (z : spec_float) : 0 <= valor z.
Proof.
  destruct z as [s|s| |s m e]; cbn [valor]; try lra.
  - apply Qlt_le_weak, p2_pos.
  - apply Qmult_le_0_compat; [now rewrite <- (Zle_Qle 0) | apply Qlt_le_weak, p2_pos].
Qed.

Lemma valor_techo (z : spec_float) :
  valid_binary z = true -> valor z <= p2 1024.
Proof.
  destruct z as [s|s| |s m e]; cbn [valor SpecFloat.valid_binary]; intro H.
  - apply Qlt_le_weak, p2_pos.
  - apply Qle_refl.
  - apply Qlt_le_weak, p2_pos.
  - destruct (valor_finito_cotas m e H) as [_ [Ht _]].
    destruct (valido_cotas m e H) as [He _].
    assert (p2 (e + 53) <= p2 1024) by (apply p2_le; lia). lra.
Qed.

(** Comparing two non-negative numbers is comparing their values. *)
Lemma compara_valores (z1 z2 : spec_float) :
  no_negativo z1 -> no_negativo z2 ->
  valid_binary z1 = true -> valid_binary z2 = true ->
  SFcompare z1 z2 = Some (valor z1 ?= valor z2).
Proof.
  intros H1 H2 V1 V2.
  destruct z1 as [s1|[]| |[] m1 e1]; try contradiction;
    destruct z2 as [s2|[]| |[] m2 e2]; try contradiction;
    cbn [SFcompare valor SpecFloat.valid_binary] in *; apply f_equal; symmetry.
  - reflexivity.
  - apply (proj1 (Qlt_alt _ _)). apply p2_pos.
  - apply (proj1 (Qlt_alt _ _)). now destruct (valor_finito_cotas m2 e2 V2).
  - apply (proj1 (Qgt_alt _ _)). apply p2_pos.
  - apply (proj1 (Qeq_alt _ _)). reflexivity.
  - apply (proj1 (Qgt_alt _ _)).
    destruct (valor_finito_cotas m2 e2 V2) as [_ [Ht _]].
    destruct (valido_cotas m2 e2 V2) as [He _].
    assert (p2 (e2 + 53) <= p2 1024) by (apply p2_le; lia). lra.
  - apply (proj1 (Qgt_alt _ _)). now destruct (valor_finito_cotas m1 e1 V1).
  - apply (proj1 (Qlt_alt _ _)).
    destruct (valor_finito_cotas m1 e1 V1) as [_ [Ht _]].
    destruct (valido_cotas m1 e1 V1) as [He _].
    assert (p2 (e1 + 53) <= p2 1024) by (apply p2_le; lia). lra.
  - destruct (valor_finito_cotas m1 e1 V1) as [_ [Ht1 Hn1]].
    destruct (valor_finito_cotas m2 e2 V2) as [_ [Ht2 Hn2]].
    destruct (valido_cotas m1 e1 V1) as [He1 _].
    destruct (valido_cotas m2 e2 V2) as [He2 _].
    destruct (Z.compare_spec e1 e2) as [->|Hlt|Hgt].
    + rewrite Pos.compare_cont_spec. cbn [Pos.switch_Eq].
      change (m1 ?= m2)%positive with (Zpos m1 ?= Zpos m2)%Z.
      pose proof (p2_pos e2) as Hp.
      destruct (Z.compare_spec (Zpos m1) (Zpos m2)) as [Heq|Hl|Hg].
      * apply (proj1 (Qeq_alt _ _)). now rewrite Heq.
      * apply (proj1 (Qlt_alt _ _)). apply Qmult_lt_compat_r; [assumption|].
        now rewrite <- Zlt_Qlt.
      * apply (proj1 (Qgt_alt _ _)). apply Qmult_lt_compat_r; [assumption|].
        now rewrite <- Zlt_Qlt.
    + apply (proj1 (Qlt_alt _ _)).
      assert (p2 (e1 + 53) <= p2 (e2 + 52)) by (apply p2_le; lia).
      specialize (Hn2 ltac:(lia)). lra.
    + apply (proj1 (Qgt_alt _ _)).
      assert (p2 (e2 + 53) <= p2 (e1 + 52)) by (apply p2_le; lia).
      specialize (Hn1 ltac:(lia)). lra.
Qed.

(** ** Rounded values *)

Lemma Qrne_igual (x y : Q) : x == y -> Qrne x = Qrne y.
Proof.
  intro E. apply Z.le_antisymm; apply Qrne_mono; rewrite E; apply Qle_refl.
Qed.

Lemma escala_igual (v w : Q) (g : Z) : v == w -> escala v g -> escala w g.
Proof.
  intros E [[Hg H]|[Hg [H1 H2]]]; [left | right]; repeat split; try assumption;
    rewrite <- E; assumption.
Qed.

Lemma redondea_igual (v w r : Q) : v == w -> redondea v r -> redondea w r.
Proof.
  intros E [g [Hg Hr]]. exists g. split; [now apply escala_igual with v|].
  rewrite Hr. rewrite (Qrne_igual (v * p2 (- g)) (w * p2 (- g))); [reflexivity|].
  now rewrite E.
Qed.

Lemma redondea_cero : redondea 0 0.
Proof.
  exists (-1074)%Z. split.
  - left. split; [reflexivity | apply p2_pos].
  - rewrite (Qrne_igual (0 * p2 (- -1074)) (inject_Z 0)) by ring.
    rewrite Qrne_Z. ring.
Qed.

Lemma redondea_techo : redondea (p2 1024) (p2 1024).
Proof.
  exists 972%Z. split.
  - right. split; [lia|]. split; [apply Qle_refl | apply p2_lt; lia].
  - match goal with
    | |- context [Qrne ?x] => rewrite (Qrne_igual x (inject_Z (2 ^ 52)))
    end.
    + rewrite Qrne_Z. rewrite <- (p2_Z 52) by lia. rewrite <- p2_add. reflexivity.
    + rewrite <- p2_add. rewrite <- (p2_Z 52) by lia. reflexivity.
Qed.

(** A binary64 number is its own rounding. *)
Lemma redondea_propio (m : positive) (e : Z) :
  bounded prec emax m e = true ->
  redondea (inject_Z (Zpos m) * p2 e) (inject_Z (Zpos m) * p2 e).
Proof.
  intro Hb. destruct (valor_finito_cotas m e Hb) as [_ [Ht Hn]].
  destruct (valido_cotas m e Hb) as [He _].
  exists e. split.
  - destruct (Z.eq_dec e (-1074)) as [->|Hne].
    + left. split; [reflexivity | exact Ht].
    + right. split; [lia|]. split; [apply Hn; lia | exact Ht].
  - rewrite (Qrne_igual (inject_Z (Zpos m) * p2 e * p2 (- e)) (inject_Z (Zpos m))).
    + now rewrite Qrne_Z.
    + rewrite <- Qmult_assoc, p2_inv. ring.
Qed.

(** How a rounded rational [r] fits binary64: as itself below 2^1024,
    as infinity from there on. *)
Definition cabe (z : spec_float) (r : Q) : Prop :=
  (r < p2 1024 /\ valor z == r) \/ (p2 1024 <= r /\ valor z == p2 1024).

Lemma representa_cabe (z : spec_float) (r : Q) :
  representa z r -> no_negativo z /\ cabe z r.
Proof.
  destruct z as [[]|[]| |[] m e]; cbn [representa no_negativo]; try contradiction;
    intro H; (split; [exact I|]); unfold cabe; cbn [valor].
  - left. rewrite H. split; [apply p2_pos | reflexivity].
  - right. split; [assumption | reflexivity].
  - left. destruct H as [H1 H2]. split; [assumption | now rewrite H1].
Qed.

(** [z] is the binary64 number that the non-negative rational [v] rounds
    to. *)
Definition redondeado (v : Q) (z : spec_float) : Prop :=
  no_negativo z /\
  ((p2 1024 <= v /\ valor z == p2 1024) \/ exists r, redondea v r /\ cabe z r).

Lemma redondeado_igual (v w : Q) (z : spec_float) :
  v == w -> redondeado v z -> redondeado w z.
Proof.
  intros E [Hn [[H1 H2]|[r [Hr Hc]]]]; (split; [assumption|]).
  - left. split; [now rewrite <- E | assumption].
  - right. exists r. split; [now apply redondea_igual with v | assumption].
Qed.

(** Rounding is monotone. *)
Lemma redondeado_mono (v w : Q) (x y : spec_float) :
  redondeado v x -> redondeado w y -> v <= w -> valor x <= valor y.
Proof.
  intros [_ Hx] [_ Hy] Hvw.
  destruct Hx as [[Hv Hx]|[r [Hr Hx]]]; destruct Hy as [[Hw Hy]|[s [Hs Hy]]].
  - rewrite Hx, Hy. apply Qle_refl.
  - assert (Hcs : p2 1024 <= s).
    { apply (redondea_mono (p2 1024) w); [lra | apply redondea_techo | assumption]. }
    destruct Hy as [[Hy _]|[_ Hy]]; [lra|]. rewrite Hx, Hy. apply Qle_refl.
  - rewrite Hy. destruct Hx as [[H1 H2]|[H1 H2]]; rewrite H2; [lra | apply Qle_refl].
  - pose proof (redondea_mono v w r s Hvw Hr Hs) as Hrs.
    destruct Hx as [[H1 H2]|[H1 H2]]; destruct Hy as [[H3 H4]|[H3 H4]];
      rewrite H2, H4; lra.
Qed.

Lemma redondeado_propio (z : spec_float) :
  no_negativo z -> valid_binary z = true -> redondeado (valor z) z.
Proof.
  intros Hn Hv. split; [assumption|].
  destruct z as [s|[]| |[] m e]; cbn [no_negativo] in Hn; try contradiction;
    cbn [valor SpecFloat.valid_binary] in *.
  - right. exists 0. split; [apply redondea_cero|]. left.
    split; [apply p2_pos | reflexivity].
  - left. split; apply Qle_refl || reflexivity.
  - right. exists (inject_Z (Zpos m) * p2 e). split; [now apply redondea_propio|].
    left. split; [|reflexivity].
    destruct (valor_finito_cotas m e Hv) as [_ [Ht _]].
    destruct (valido_cotas m e Hv) as [He _].
    assert (p2 (e + 53) <= p2 1024) by (apply p2_le; lia). lra.
Qed.

(** ** Addition *)

Lemma iter_xO_valor (m d : positive) :
  Zpos (Pos.iter xO m d) = (Zpos m * 2 ^ Zpos d)%Z.
Proof.
  induction d as [|d IH] using Pos.peano_ind.
  - cbn [Pos.iter]. rewrite Z.pow_1_r. lia.
  - rewrite Pos.iter_succ, Pos2Z.inj_xO, IH, Pos2Z.inj_succ, Z.pow_succ_r by lia. lia.
Qed.

Lemma iter_xO_digitos (m d : positive) :
  digits2_pos (Pos.iter xO m d) = (digits2_pos m + d)%positive.
Proof.
  induction d as [|d IH] using Pos.peano_ind.
  - cbn [Pos.iter digits2_pos]. lia.
  - rewrite Pos.iter_succ. cbn [digits2_pos]. rewrite IH. lia.
Qed.

Lemma shl_align_valor (m : positive) (e e' : Z) :
  inject_Z (Zpos (fst (shl_align m e e'))) * p2 (snd (shl_align m e e'))
    == inject_Z (Zpos m) * p2 e /\
  snd (shl_align m e e') = Z.min e e' /\
  (Zpos (digits2_pos (fst (shl_align m e e'))) + snd (shl_align m e e')
   = Zpos (digits2_pos m) + e)%Z.
Proof.
  unfold shl_align. destruct (e' - e)%Z as [|d|d] eqn:E; cbn [fst snd].
  - split; [reflexivity|]. split; lia.
  - split; [reflexivity|]. split; lia.
  - assert (He : e = (e' + Zpos d)%Z) by lia.
    split; [|split].
    + rewrite iter_xO_valor, inject_Z_mult, He, p2_add.
      rewrite (p2_Z (Zpos d)) by lia. ring.
    + lia.
    + rewrite iter_xO_digitos. lia.
Qed.

Lemma binary_round_correcto (m : positive) (e : Z) :
  exists r, redondea (inject_Z (Zpos m) * p2 e) r /\
            representa (binary_round prec emax false m e) r.
Proof.
  unfold binary_round.
  set (e' := SpecFloat.fexp prec emax (Zpos (digits2_pos m) + e)).
  destruct (shl_align_valor m e e') as (Hv & He & Hd).
  destruct (shl_align m e e') as [mz ez]. cbn [fst snd] in *.
  apply redondeo_correcto.
  - unfold ubica. cbn [shr_record_of_loc shr_m shr_r shr_s]. split; [lia|].
    rewrite <- Hv, <- Qmult_assoc, p2_inv. ring.
  - cbn [Zdigits2]. rewrite Hd. fold e'. lia.
Qed.

Lemma SFadd_redondeado (x y : spec_float) :
  no_negativo x -> no_negativo y ->
  valid_binary x = true -> valid_binary y = true ->
  redondeado (valor x + valor y) (SFadd prec emax x y).
Proof.
  intros Hx Hy Vx Vy.
  destruct x as [sx|[]| |[] mx ex]; cbn [no_negativo] in Hx; try contradiction;
    destruct y as [sy|[]| |[] my ey]; cbn [no_negativo] in Hy; try contradiction.
  - assert (Hz : forall s, redondeado (0 + 0) (S754_zero s)).
    { intro s. apply redondeado_igual with 0; [ring|].
      apply (redondeado_propio (S754_zero s)); [exact I | reflexivity]. }
    destruct sx, sy; cbn [SFadd valor]; apply Hz.
  - split; [exact I|]. left. cbn [valor]. split; [lra | reflexivity].
  - cbn [SFadd]. apply redondeado_igual with (valor (S754_finite false my ey)).
    + cbn [valor]. ring.
    + now apply redondeado_propio.
  - split; [exact I|]. left. cbn [valor]. split; [lra | reflexivity].
  - split; [exact I|]. left. cbn [valor]. split; [|reflexivity].
    pose proof (p2_pos 1024). lra.
  - split; [exact I|]. left. cbn [SFadd]. split; [|reflexivity].
    pose proof (valor_no_negativo (S754_finite false my ey)). cbn [valor] in *. lra.
  - cbn [SFadd]. apply redondeado_igual with (valor (S754_finite false mx ex)).
    + cbn [valor]. ring.
    + now apply redondeado_propio.
  - split; [exact I|]. left. cbn [SFadd]. split; [|reflexivity].
    pose proof (valor_no_negativo (S754_finite false mx ex)). cbn [valor] in *. lra.
  - cbn [SFadd cond_Zopp valor].
    set (ez := Z.min ex ey).
    destruct (shl_align_valor mx ex ez) as (Hvx & Hex & _).
    destruct (shl_align_valor my ey ez) as (Hvy & Hey & _).
    replace (snd (shl_align mx ex ez)) with ez in Hvx by (rewrite Hex; unfold ez; lia).
    replace (snd (shl_align my ey ez)) with ez in Hvy by (rewrite Hey; unfold ez; lia).
    set (a := fst (shl_align mx ex ez)) in *.
    set (b := fst (shl_align my ey ez)) in *.
    change (Zpos a + Zpos b)%Z with (Zpos (a + b)).
    cbn [binary_normalize].
    destruct (binary_round_correcto (a + b) ez) as [r [Hr Hrep]].
    destruct (representa_cabe _ _ Hrep) as [Hn Hc].
    split; [assumption|]. right. exists r. split; [|assumption].
    apply redondea_igual with (inject_Z (Zpos (a + b)) * p2 ez); [|assumption].
    rewrite <- Hvx, <- Hvy, Pos2Z.inj_add, inject_Z_plus. ring.
Qed.

(** ** Division *)

Lemma fraccion_cotas (k nb : Z) :
  (0 < nb)%Z ->
  let x := inject_Z k / inject_Z nb in
  ((0 < k)%Z -> 0 < x) /\ ((2 * k < nb)%Z -> x < 1 # 2) /\
  ((2 * k = nb)%Z -> x == 1 # 2) /\ ((nb < 2 * k)%Z -> (1 # 2) < x) /\
  ((k < nb)%Z -> x < 1) /\ ((k = 0)%Z -> x == 0).
Proof.
  intros Hnb x. assert (Hq : 0 < inject_Z nb) by now rewrite <- (Zlt_Qlt 0).
  assert (Hne : ~ inject_Z nb == 0) by lra.
  repeat split; intro Hk.
  - apply Qlt_shift_div_l; [assumption|]. rewrite Zlt_Qlt in Hk.
    change (inject_Z 0) with 0 in Hk. lra.
  - apply Qlt_shift_div_r; [assumption|].
    rewrite Zlt_Qlt, inject_Z_mult in Hk. change (inject_Z 2) with 2 in Hk. lra.
  - unfold x. rewrite <- Hk, inject_Z_mult. change (inject_Z 2) with 2.
    assert (Hk0 : ~ inject_Z k == 0).
    { intro E. rewrite <- Hk, inject_Z_mult in Hq. change (inject_Z 2) with 2 in Hq. lra. }
    field. assumption.
  - apply Qlt_shift_div_l; [assumption|].
    rewrite Zlt_Qlt, inject_Z_mult in Hk. change (inject_Z 2) with 2 in Hk. lra.
  - apply Qlt_shift_div_r; [assumption|]. rewrite Zlt_Qlt in Hk. lra.
  - unfold x. rewrite Hk. change (inject_Z 0) with 0. field. assumption.
Qed.

Lemma new_location_ubica (nb k q : Z) :
  (0 <= q)%Z -> (0 <= k < nb)%Z ->
  ubica (inject_Z q + inject_Z k / inject_Z nb)
        (shr_record_of_loc q (new_location nb k)).
Proof.
  intros Hq Hk.
  destruct (fraccion_cotas k nb ltac:(lia)) as (H0 & Hlt & Heq & Hgt & H1 & Hz).
  set (x := inject_Z k / inject_Z nb) in *.
  unfold new_location, new_location_even, new_location_odd.
  destruct (Z.even nb) eqn:Ev; destruct (Z.eqb_spec k 0) as [E0|N0].
  - specialize (Hz E0). split; [assumption|]. cbn. lra.
  - specialize (H0 ltac:(lia)). specialize (H1 ltac:(lia)).
    destruct (Z.compare_spec (2 * k) nb) as [E|L|G];
      (split; [assumption|]); cbn.
    + specialize (Heq E). lra.
    + specialize (Hlt L). lra.
    + specialize (Hgt G). lra.
  - specialize (Hz E0). split; [assumption|]. cbn. lra.
  - specialize (H0 ltac:(lia)). specialize (H1 ltac:(lia)).
    assert (Hodd : (2 * k <> nb)%Z).
    { intro E. rewrite <- E, Z.even_mul in Ev. discriminate. }
    destruct (Z.compare_spec (2 * k + 1) nb) as [E|L|G];
      (split; [assumption|]); cbn.
    + specialize (Hlt ltac:(lia)). lra.
    + specialize (Hlt ltac:(lia)). lra.
    + specialize (Hgt ltac:(lia)). lra.
Qed.

Lemma cociente_Q (mx s my ey e q r : Q) :
  ~ my == 0 -> ~ ey == 0 -> ~ e == 0 -> mx * s == my * q + r ->
  mx * (s * ey * e) / (my * ey) * / e == q + r / my.
Proof.
  intros Hm Hy He E. transitivity (mx * s / my).
  - field. repeat split; assumption.
  - rewrite E. field. assumption.
Qed.

Lemma SFdiv_core_correcto (mx my : positive) (ex ey : Z) :
  forall q e' l,
    SFdiv_core_binary prec emax (Zpos mx) ex (Zpos my) ey = (q, e', l) ->
    ubica (inject_Z (Zpos mx) * p2 ex / (inject_Z (Zpos my) * p2 ey) * p2 (- e'))
          (shr_record_of_loc q l) /\
    (e' <= SpecFloat.fexp prec emax (Zdigits2 q + e'))%Z.
Proof.
  intros q e' l. unfold SFdiv_core_binary. cbn [Zdigits2].
  set (d1 := Zpos (digits2_pos mx)). set (d2 := Zpos (digits2_pos my)).
  set (D := (d1 + ex - (d2 + ey))%Z).
  set (e0 := Z.min (SpecFloat.fexp prec emax D) (ex - ey)).
  set (s := (ex - ey - e0)%Z).
  assert (Hs : (0 <= s)%Z) by (unfold s, e0; lia).
  set (m' := match s with Zpos _ => Z.shiftl (Zpos mx) s | Z0 => Zpos mx | Zneg _ => 0%Z end).
  assert (Hm' : m' = (Zpos mx * 2 ^ s)%Z).
  { unfold m'. destruct s as [|p|p]; [lia | | lia].
    rewrite Z.shiftl_mul_pow2 by lia. reflexivity. }
  pose proof (Z_div_mod m' (Zpos my) ltac:(lia)) as Hdm.
  destruct (Z.div_eucl m' (Zpos my)) as [q0 r0]. destruct Hdm as [Hdm Hr0].
  intro E. injection E as <- <- <-.
  pose proof (digits2_cotas mx) as [Hx1 Hx2]. fold d1 in Hx1, Hx2.
  pose proof (digits2_cotas my) as [Hy1 Hy2]. fold d2 in Hy1, Hy2.
  assert (Hpow : (0 < 2 ^ s)%Z) by (apply Z.pow_pos_nonneg; lia).
  assert (Hq0 : (0 <= q0)%Z) by nia.
  split.
  - apply ubica_ext with (inject_Z q0 + inject_Z r0 / inject_Z (Zpos my));
      [|apply new_location_ubica; lia].
    symmetry.
    assert (Hp : p2 ex == inject_Z (2 ^ s) * p2 ey * p2 e0).
    { rewrite <- (p2_Z s) by lia. rewrite <- !p2_add.
      replace (s + ey + e0)%Z with ex by (unfold s; lia). reflexivity. }
    rewrite Hp, p2_opp.
    apply cociente_Q.
    + intro E. assert (0 < inject_Z (Zpos my)) by now rewrite <- (Zlt_Qlt 0). lra.
    + pose proof (p2_pos ey). lra.
    + pose proof (p2_pos e0). lra.
    + rewrite <- !inject_Z_mult, <- inject_Z_plus, <- Hm', Hdm. reflexivity.
  - rewrite fexp_valor. destruct (Z_le_gt_dec e0 (-1074)) as [|Hgt]; [lia|].
    assert (HD : (e0 <= D - 53)%Z).
    { unfold e0 in *. rewrite fexp_valor in *. lia. }
    assert (Hk : (52 <= d1 - 1 + s - d2)%Z) by (unfold s, D in *; lia).
    set (k := (d1 - 1 + s - d2)%Z) in *.
    assert (Hd2 : (0 < d2)%Z) by (unfold d2; lia).
    assert (Hd1 : (0 < d1)%Z) by (unfold d1; lia).
    assert (Hsplit : (2 ^ (d1 - 1) * 2 ^ s = 2 ^ k * 2 ^ d2)%Z).
    { rewrite <- !Z.pow_add_r by lia. f_equal. unfold k. lia. }
    assert (Hk0 : (0 < 2 ^ k)%Z) by (apply Z.pow_pos_nonneg; lia).
    assert (Hq : (2 ^ k <= q0)%Z) by nia.
    assert (H52 : (2 ^ 52 <= 2 ^ k)%Z) by (apply Z.pow_le_mono_r; lia).
    destruct q0 as [|p|p]; [lia | | lia]. cbn [Zdigits2].
    pose proof (digits2_cotas p) as [_ Hp2].
    assert (52 < Zpos (digits2_pos p))%Z; [|lia].
    apply (Z.pow_lt_mono_r_iff 2); lia.
Qed.

Lemma SFdiv_redondeado (mx my : positive) (ex ey : Z) :
  redondeado (inject_Z (Zpos mx) * p2 ex / (inject_Z (Zpos my) * p2 ey))
             (SFdiv prec emax (S754_finite false mx ex) (S754_finite false my ey)).
Proof.
  cbn [SFdiv xorb].
  pose proof (SFdiv_core_correcto mx my ex ey) as Hc.
  destruct (SFdiv_core_binary prec emax (Zpos mx) ex (Zpos my) ey) as [[q e'] l].
  destruct (Hc q e' l eq_refl) as [Hu He].
  destruct (redondeo_correcto _ _ _ _ Hu He) as [r [Hr Hrep]].
  destruct (representa_cabe _ _ Hrep) as [Hn Hcabe].
  split; [assumption|]. right. now exists r.
Qed.

(** ** Python's floats *)

(** The value of a float. *)
Definition valor_de (x : float) : Q := valor (Prim2SF x).

Lemma no_negativo_leb (x : float) :
  (0 <=? x)%float = true <-> no_negativo (Prim2SF x).
Proof.
  rewrite leb_spec. unfold SFleb.
  replace (Prim2SF 0) with (S754_zero false) by reflexivity.
  destruct (Prim2SF x) as [s|[]| |[] m e]; cbn [SFcompare no_negativo];
    split; intro Hx; (exact I || discriminate || contradiction || reflexivity).
Qed.

Lemma compara_floats (x y : float) :
  (0 <=? x)%float = true -> (0 <=? y)%float = true ->
  SFcompare (Prim2SF x) (Prim2SF y) = Some (valor_de x ?= valor_de y).
Proof.
  intros Hx Hy. apply compara_valores;
    try (now apply no_negativo_leb); apply Prim2SF_valid.
Qed.

Lemma leb_valor (x y : float) :
  (0 <=? x)%float = true -> (0 <=? y)%float = true ->
  ((x <=? y)%float = true <-> valor_de x <= valor_de y).
Proof.
  intros Hx Hy. rewrite leb_spec. unfold SFleb. rewrite (compara_floats x y Hx Hy).
  destruct (Qcompare_spec (valor_de x) (valor_de y)) as [E|L|G]; split; intro Hc;
    try reflexivity; try discriminate; lra.
Qed.

Lemma ltb_valor (x y : float) :
  (0 <=? x)%float = true -> (0 <=? y)%float = true ->
  ((x <? y)%float = true <-> valor_de x < valor_de y).
Proof.
  intros Hx Hy. rewrite ltb_spec. unfold SFltb. rewrite (compara_floats x y Hx Hy).
  destruct (Qcompare_spec (valor_de x) (valor_de y)) as [E|L|G]; split; intro Hc;
    try reflexivity; try discriminate; lra.
Qed.

Lemma leb_no_negativo (x y : float) :
  (0 <=? x)%float = true -> (x <=? y)%float = true -> (0 <=? y)%float = true.
Proof.
  rewrite !no_negativo_leb, leb_spec. unfold SFleb.
  destruct (Prim2SF x) as [sx|[]| |[] mx ex]; cbn [no_negativo]; try contradiction;
    destruct (Prim2SF y) as [sy|[]| |[] my ey]; cbn [SFcompare no_negativo];
    intros _ Hc; (exact I || discriminate).
Qed.

Lemma suma_redondeada (a b : float) :
  (0 <=? a)%float = true -> (0 <=? b)%float = true ->
  redondeado (valor_de a + valor_de b) (Prim2SF (a + b)).
Proof.
  intros Ha Hb. rewrite add_spec.
  apply SFadd_redondeado; try (now apply no_negativo_leb); apply Prim2SF_valid.
Qed.

Lemma suma_no_negativa (a b : float) :
  (0 <=? a)%float = true -> (0 <=? b)%float = true -> (0 <=? a + b)%float = true.
Proof.
  intros Ha Hb. apply no_negativo_leb. now destruct (suma_redondeada a b Ha Hb).
Qed.

(** Adding is monotone on the non-negative floats. *)
Lemma suma_monotona (a b c d : float) :
  (0 <=? a)%float = true -> (0 <=? b)%float = true ->
  (a <=? c)%float = true -> (b <=? d)%float = true ->
  (a + b <=? c + d)%float = true.
Proof.
  intros Ha Hb Hac Hbd.
  pose proof (leb_no_negativo a c Ha Hac) as Hc.
  pose proof (leb_no_negativo b d Hb Hbd) as Hd.
  apply leb_valor; try now apply suma_no_negativa.
  apply (redondeado_mono (valor_de a + valor_de b) (valor_de c + valor_de d));
    try now apply suma_redondeada.
  apply (leb_valor a c Ha Hc) in Hac. apply (leb_valor b d Hb Hd) in Hbd. lra.
Qed.

Lemma valor_de_uno : valor_de 1 == 1.
Proof. vm_compute. reflexivity. Qed.

Lemma uno_no_negativo : (0 <=? 1)%float = true.
Proof. reflexivity. Qed.

(** [1.0 / a] for [a] from 1.0 up: zero at infinity, the rounded quotient
    otherwise. *)
Lemma inverso_redondeado (a : float) :
  (1 <=? a)%float = true ->
  (0 <=? 1 / a)%float = true /\
  ((valor_de a == p2 1024 /\ valor_de (1 / a) == 0) \/
   (valor_de a < p2 1024 /\ redondeado (1 / valor_de a) (Prim2SF (1 / a)))).
Proof.
  intro Ha. rewrite no_negativo_leb. unfold valor_de.
  pose proof (Prim2SF_valid a) as Hv.
  rewrite leb_spec in Ha. unfold SFleb in Ha. rewrite div_spec.
  replace (Prim2SF 1) with (S754_finite false 4503599627370496 (-52)) in * by reflexivity.
  destruct (Prim2SF a) as [s|[]| |[] m e]; cbn [SFcompare] in Ha; try discriminate.
  - split; [exact I|]. left. split; reflexivity.
  - pose proof (SFdiv_redondeado 4503599627370496 m (-52) e) as Hr.
    split; [now destruct Hr|]. right. cbn [valor]. split.
    + cbn [SpecFloat.valid_binary] in Hv.
      destruct (valor_finito_cotas m e Hv) as [_ [Ht _]].
      destruct (valido_cotas m e Hv) as [He _].
      assert (p2 (e + 53) <= p2 1024) by (apply p2_le; lia). lra.
    + revert Hr. apply redondeado_igual.
      assert (E : inject_Z 4503599627370496 * p2 (-52) == 1) by (vm_compute; reflexivity).
      now rewrite E.
Qed.

Lemma inverso_Q (a b : Q) : 0 < a -> a <= b -> 1 / b <= 1 / a.
Proof.
  intros Ha Hab. apply Qle_shift_div_l; [assumption|].
  setoid_replace (1 / b * a) with (a / b) by (unfold Qdiv; ring).
  apply Qle_shift_div_r; lra.
Qed.

(** Taking the inverse is antitone from 1.0 up. *)
Lemma inverso_antitono (a b : float) :
  (1 <=? a)%float = true -> (a <=? b)%float = true ->
  (1 / b <=? 1 / a)%float = true.
Proof.
  intros Ha Hab.
  pose proof (leb_no_negativo 1 a uno_no_negativo Ha) as Hna.
  pose proof (leb_no_negativo a b Hna Hab) as Hnb.
  pose proof (proj1 (leb_valor 1 a uno_no_negativo Hna) Ha) as H1a.
  pose proof (proj1 (leb_valor a b Hna Hnb) Hab) as Hvab.
  rewrite valor_de_uno in H1a.
  assert (Hb : (1 <=? b)%float = true).
  { apply leb_valor; [reflexivity | assumption |]. rewrite valor_de_uno. lra. }
  destruct (inverso_redondeado a Ha) as [Hia Hra].
  destruct (inverso_redondeado b Hb) as [Hib Hrb].
  apply leb_valor; [assumption | assumption |].
  destruct Hrb as [[Hbi Hb0]|[Hbf Hrb]].
  - rewrite Hb0. apply valor_no_negativo.
  - destruct Hra as [[Hai Ha0]|[Haf Hra]]; [lra|].
    apply (redondeado_mono (1 / valor_de b) (1 / valor_de a)); try assumption.
    apply inverso_Q; lra.
Qed.

Lemma uno_le_no_cero (y : float) :
  (1 <=? y)%float = true -> (y =? 0)%float = false.
Proof.
  rewrite leb_spec, eqb_spec. unfold SFleb, SFeqb.
  replace (Prim2SF 1) with (S754_finite false 4503599627370496 (-52)) by reflexivity.
  replace (Prim2SF 0) with (S754_zero false) by reflexivity.
  destruct (Prim2SF y) as [s|[]| |[] m e]; cbn [SFcompare]; intro Hc;
    (reflexivity || discriminate).
Qed.

Lemma cero_es_cero (x : float) :
  (x =? 0)%float = true -> x = 0%float \/ x = (-0)%float.
Proof.
  rewrite eqb_spec. unfold SFeqb.
  replace (Prim2SF 0) with (S754_zero false) by reflexivity.
  intro Hc. rewrite <- (SF2Prim_Prim2SF x).
  destruct (Prim2SF x) as [[]|[]| |[] m e]; cbn [SFcompare] in Hc; try discriminate.
  - right. reflexivity.
  - left. reflexivity.
Qed.

Lemma ltb_leb_trans (k x y : float) :
  (0 <=? k)%float = true -> (0 <=? x)%float = true ->
  (k <? x)%float = true -> (x <=? y)%float = true -> (k <? y)%float = true.
Proof.
  intros Hk Hx Hkx Hxy. pose proof (leb_no_negativo x y Hx Hxy) as Hy.
  apply (ltb_valor k x Hk Hx) in Hkx. apply (leb_valor x y Hx Hy) in Hxy.
  apply (ltb_valor k y Hk Hy). lra.
Qed.

Lemma leb_leb_no_ltb (k x y : float) :
  (0 <=? x)%float = true ->
  (x <=? y)%float = true -> (y <=? k)%float = true -> (k <? x)%float = false.
Proof.
  intros Hx Hxy Hyk. pose proof (leb_no_negativo x y Hx Hxy) as Hy.
  pose proof (leb_no_negativo y k Hy Hyk) as Hk.
  apply (leb_valor x y Hx Hy) in Hxy. apply (leb_valor y k Hy Hk) in Hyk.
  destruct (k <? x)%float eqn:E; [|reflexivity].
  apply (ltb_valor k x Hk Hx) in E. lra.
Qed.

End Redondeo.

Set Implicit Arguments.

(** ** Range and monotonicity of the efficiency *)

(** C7, against the claim as stated, in the arithmetic the program runs.
    With the single non-negative weight 2^-60 the total weight of the path
    A, B is 2^-60, not 0, and the efficiency is exactly 1.0; with 2^-59 the
    total weight is larger and the efficiency is the same.  With two
    weights of 2^1023 the total overflows and the efficiency of the path
    A, B, C is exactly 0.0. *)
Lemma eficiencia_binary64_satura :
  Forall (fun entrada => PrimFloat.leb 0 (snd entrada) = true)
    (conexiones (circuito_par 0x1p-60%float)) /\
  Forall (fun entrada => PrimFloat.leb 0 (snd entrada) = true)
    (conexiones (circuito_par 0x1p-59%float)) /\
  Forall (fun entrada => PrimFloat.leb 0 (snd entrada) = true)
    (conexiones circuito_enorme) /\
  totalWeight (conexiones (circuito_par 0x1p-60%float)) ["A"; "B"] = 0x1p-60%float /\
  totalWeight (conexiones (circuito_par 0x1p-59%float)) ["A"; "B"] = 0x1p-59%float /\
  PrimFloat.eqb 0x1p-60 0 = false /\
  PrimFloat.ltb 0x1p-60 0x1p-59 = true /\
  fst (calcular_eficiencia_energetica (Some ["A"; "B"]) (circuito_par 0x1p-60%float))
    = Retorna 1%float /\
  fst (calcular_eficiencia_energetica (Some ["A"; "B"]) (circuito_par 0x1p-59%float))
    = Retorna 1%float /\
  fst (calcular_eficiencia_energetica (Some ["A"; "B"; "C"]) circuito_enorme)
    = Retorna 0%float.
Proof.
  split; [repeat constructor|].
  split; [repeat constructor|].
  split; [repeat constructor|].
  repeat (split; [vm_compute; reflexivity|]). vm_compute; reflexivity.
Qed.

(** All stored weights are non-negative: [0 <= w] holds of each of them,
    which leaves out NaN and the negative numbers and lets infinity in. *)
Definition pesos_no_negativos (d : Dict.t (Id * Id) float) : Prop :=
  Forall (fun entrada => (0 <=? snd entrada)%float = true) d.

Lemma connectionWeight_no_negativo (d : Dict.t (Id * Id) float) (a b : Id) :
  pesos_no_negativos d -> (0 <=? connectionWeight d a b)%float = true.
Proof.
  intro Hd. unfold connectionWeight.
  assert (Hget : forall k w, Dict.get d k = Some w -> (0 <=? w)%float = true).
  { intros k w Hk. apply Dict.get_In in Hk.
    unfold pesos_no_negativos in Hd. rewrite Forall_forall in Hd.
    exact (Hd _ Hk). }
  destruct (Dict.get d (a, b)) as [w|] eqn:E1; [now apply Hget with (a, b)|].
  destruct (Dict.get d (b, a)) as [w|] eqn:E2; [now apply Hget with (b, a)|].
  reflexivity.
Qed.

Lemma totalWeight_no_negativo (d : Dict.t (Id * Id) float) (l : list Id) :
  pesos_no_negativos d -> (0 <=? totalWeight d l)%float = true.
Proof.
  intro Hd. unfold totalWeight.
  assert (Hacc : (0 <=? cero)%float = true) by reflexivity.
  revert Hacc. generalize (cero : float) as total.
  induction (pares_consecutivos l) as [|[a b] pares IH]; intros total Ht; simpl.
  - exact Ht.
  - apply IH. cbn [sumar binary64].
    apply Redondeo.suma_no_negativa; [assumption|].
    now apply connectionWeight_no_negativo.
Qed.

(** [1.0 + R] is at least 1.0 for a non-negative [R]. *)
Lemma uno_mas_no_negativo (R : float) :
  (0 <=? R)%float = true -> (1 <=? 1 + R)%float = true.
Proof.
  intro HR.
  exact (Redondeo.suma_monotona 1 0 1 R eq_refl eq_refl eq_refl HR).
Qed.

(** With non-negative weights the division never fails, and the result is
    the float [1.0 / (1.0 + totalWeight)]. *)
Lemma eficiencia_valor (c : CircuitoElectronico float) (p : list Id) :
  pesos_no_negativos (conexiones c) ->
  2 <= length p ->
  fst (calcular_eficiencia_energetica (Some p) c)
    = Retorna (1 / (1 + totalWeight (conexiones c) p))%float.
Proof.
  intros Hd Hp.
  rewrite calcular_eficiencia_energetica_ecuacion.
  apply Nat.ltb_ge in Hp. rewrite Hp.
  cbn [dividir uno sumar binary64].
  rewrite (Redondeo.uno_le_no_cero _
             (uno_mas_no_negativo (totalWeight_no_negativo p Hd))).
  reflexivity.
Qed.

(** A larger total weight gives an efficiency that is no larger. *)
Lemma eficiencia_antitona (R1 R2 : float) :
  (0 <=? R1)%float = true -> (R1 <=? R2)%float = true ->
  (1 / (1 + R2) <=? 1 / (1 + R1))%float = true.
Proof.
  intros H1 H12. apply Redondeo.inverso_antitono.
  - now apply uno_mas_no_negativo.
  - now apply Redondeo.suma_monotona.
Qed.

(** C7 in the arithmetic the program runs.  Over binary64 weights, all
    non-negative, the evaluator returns on every path of at least 2
    elements; the efficiency it returns lies in [0, 1], is 1.0 when the
    total weight is zero, and is no larger for a larger total weight. *)
Theorem eficiencia_rango_y_monotonia
    (c1 c2 : CircuitoElectronico float) (p1 p2 : list Id) :
  pesos_no_negativos (conexiones c1) ->
  pesos_no_negativos (conexiones c2) ->
  2 <= length p1 ->
  2 <= length p2 ->
  exists e1 e2 : float,
    fst (calcular_eficiencia_energetica (Some p1) c1) = Retorna e1 /\
    fst (calcular_eficiencia_energetica (Some p2) c2) = Retorna e2 /\
    (0 <=? e1)%float = true /\ (e1 <=? 1)%float = true /\
    ((totalWeight (conexiones c1) p1 =? 0)%float = true -> e1 = 1%float) /\
    ((totalWeight (conexiones c1) p1 <=? totalWeight (conexiones c2) p2)%float = true ->
     (e2 <=? e1)%float = true).
Proof.
  intros Hd1 Hd2 Hp1 Hp2.
  pose proof (totalWeight_no_negativo p1 Hd1) as Ht1.
  pose proof (uno_mas_no_negativo Ht1) as Hu1.
  exists (1 / (1 + totalWeight (conexiones c1) p1))%float,
         (1 / (1 + totalWeight (conexiones c2) p2))%float.
  split; [now apply eficiencia_valor|].
  split; [now apply eficiencia_valor|].
  set (t1 := totalWeight (conexiones c1) p1) in *.
  set (t2 := totalWeight (conexiones c2) p2) in *.
  split; [|split; [|split]].
  - exact (proj1 (Redondeo.inverso_redondeado (1 + t1) Hu1)).
  - exact (Redondeo.inverso_antitono 1 (1 + t1) eq_refl Hu1).
  - intro Hz. destruct (Redondeo.cero_es_cero t1 Hz) as [E|E]; rewrite E; reflexivity.
  - intro Hle. now apply eficiencia_antitona.
Qed.

Lemma eficiencia_rango_y_monotonia_testigo :
  exists e1 e2 : float,
    fst (calcular_eficiencia_energetica (Some ["A"; "B"]) (circuito_par 3%float))
      = Retorna e1 /\
    fst (calcular_eficiencia_energetica (Some ["A"; "B"]) (circuito_par 4%float))
      = Retorna e2 /\
    (0 <=? e1)%float = true /\ (e1 <=? 1)%float = true /\
    ((totalWeight (conexiones (circuito_par 3%float)) ["A"; "B"] =? 0)%float = true ->
     e1 = 1%float) /\
    ((totalWeight (conexiones (circuito_par 3%float)) ["A"; "B"]
      <=? totalWeight (conexiones (circuito_par 4%float)) ["A"; "B"])%float = true ->
     (e2 <=? e1)%float = true).
Proof.
  apply eficiencia_rango_y_monotonia.
  - repeat constructor.
  - repeat constructor.
  - simpl. lia.
  - simpl. lia.
Defined.

(** * Further properties of the circuit and of the search *)

From Stdlib Require Import Permutation.
Local Open Scope list_scope.
Local Open Scope nat_scope.

(** ** Dictionaries keep their keys unique *)

Lemma keys_set_NoDup {K V : Type} `{Hashable K} (d : Dict.t K V) (k : K) (v : V) :
  NoDup (Dict.keys d) -> NoDup (Dict.keys (Dict.set d k v)).
Proof.
  intro Hd. destruct (Dict.mem d k) eqn:E.
  - now rewrite Dict.keys_set_present.
  - rewrite Dict.keys_set_absent by assumption.
    apply NoDup_app; [assumption | repeat constructor; auto |].
    intros x Hx [<-|[]]. apply Dict.mem_keys in Hx. congruence.
Qed.

(** Assigning the value a key already has changes nothing. *)
Lemma set_get_same {K V : Type} `{Hashable K} (d : Dict.t K V) (k : K) (v : V) :
  Dict.get d k = Some v -> Dict.set d k v = d.
Proof.
  induction d as [|[k' v'] d IH]; simpl; [discriminate|].
  destruct (key_eqb k' k); [now intros [= ->]|].
  intro Hg. now rewrite IH.
Qed.

(** Of two assignments to one key the second wins. *)
Lemma set_set {K V : Type} `{Hashable K} (d : Dict.t K V) (k : K) (v1 v2 : V) :
  Dict.set (Dict.set d k v1) k v2 = Dict.set d k v2.
Proof.
  induction d as [|[k' v'] d IH]; simpl.
  - now rewrite key_eqb_refl.
  - destruct (key_eqb k' k) eqn:E; simpl; rewrite E; [reflexivity|].
    now rewrite IH.
Qed.

(** ** What [add_node], [add_edge] and [set_pos] do to edges and nodes *)

Lemma nodes_link (G : nx.Graph) (u v : Id) : nx.nodes (nx.link G u v) = nx.nodes G.
Proof.
  unfold nx.link, nx.nodes. destruct (Dict.get G u) as [d|] eqn:E; [|reflexivity].
  apply Dict.keys_set_present. unfold Dict.mem. now rewrite E.
Qed.

Lemma nodes_add_edge (G : nx.Graph) (u v : Id) :
  nx.nodes (nx.add_edge G u v) = nx.nodes (nx.add_node (nx.add_node G u) v).
Proof. unfold nx.add_edge. cbv zeta. now rewrite !nodes_link. Qed.

Lemma nodes_add_node_NoDup (G : nx.Graph) (n : Id) :
  NoDup (nx.nodes G) -> NoDup (nx.nodes (nx.add_node G n)).
Proof.
  intro HG. unfold nx.add_node, nx.nodes. destruct (Dict.mem G n); [assumption|].
  now apply keys_set_NoDup.
Qed.

Lemma has_edge_set_pos (G G' : nx.Graph) (n : Id) (p : Posicion) :
  nx.set_pos G n p = Some G' ->
  forall u v, nx.has_edge G' u v = nx.has_edge G u v.
Proof.
  unfold nx.set_pos. destruct (Dict.get G n) as [d|] eqn:En; [|discriminate].
  intros [= <-] u v. unfold nx.has_edge.
  destruct (key_eqb_spec n u) as [<-|Hne].
  - now rewrite Dict.get_set_same, En.
  - now rewrite Dict.get_set_other.
Qed.

Lemma nodes_set_pos (G G' : nx.Graph) (n : Id) (p : Posicion) :
  nx.set_pos G n p = Some G' -> nx.nodes G' = nx.nodes G.
Proof.
  unfold nx.set_pos. destruct (Dict.get G n) as [d|] eqn:En; [|discriminate].
  intros [= <-]. apply Dict.keys_set_present. unfold Dict.mem. now rewrite En.
Qed.

(** The edges after [add_edge]: the old ones and the new one, both ways. *)
Lemma has_edge_add_edge (G : nx.Graph) (u v a b : Id) :
  nx.has_edge (nx.add_edge G u v) a b = true <->
  nx.has_edge G a b = true \/ (a = u /\ b = v) \/ (a = v /\ b = u).
Proof.
  split.
  - unfold nx.add_edge. cbv zeta. intro He.
    apply has_edge_link in He. destruct He as [He|He]; [|tauto].
    apply has_edge_link in He. destruct He as [He|He]; [|tauto].
    rewrite !has_edge_add_node in He. tauto.
  - intros [He|[[-> ->]|[-> ->]]].
    + unfold nx.add_edge. cbv zeta.
      apply has_edge_link_mono, has_edge_link_mono.
      now rewrite !has_edge_add_node.
    + apply add_edge_has_edge.
    + apply add_edge_has_edge.
Qed.

Section Propiedades.
Context {N : Type} `{Aritmetica N}.

Notation "x <- m ;; k" := (bind m (fun x => k))
  (at level 61, m at next level, right associativity).
Notation "m ;; k" := (bind m (fun _ => k))
  (at level 61, right associativity).

(** ** What the two methods maintain *)

(** Adjacency goes both ways. *)
Definition simetrico (G : nx.Graph) : Prop :=
  forall u v, nx.has_edge G u v = true -> nx.has_edge G v u = true.

(** The facts that tie the three attributes of a circuit together. *)
Record circuito_coherente (self : CircuitoElectronico N) : Prop := {
  nodos_unicos : NoDup (nx.nodes (grafo self));
  vecinos_son_nodos : grafo_cerrado (grafo self);
  aristas_simetricas : simetrico (grafo self);
  componentes_son_nodos :
    forall a, Dict.mem (componentes self) a = true -> Dict.mem (grafo self) a = true;
  conexiones_son_aristas :
    forall a b, Dict.mem (conexiones self) (a, b) = true ->
      nx.has_edge (grafo self) a b = true;
  aristas_con_peso :
    forall a b, nx.has_edge (grafo self) a b = true ->
      Dict.mem (conexiones self) (a, b) = true \/
      Dict.mem (conexiones self) (b, a) = true
}.

Lemma coherente_init (nombre : string) :
  circuito_coherente (CircuitoElectronico_init nombre).
Proof.
  split; simpl.
  - constructor.
  - apply grafo_cerrado_init.
  - intros u v. discriminate.
  - discriminate.
  - discriminate.
  - discriminate.
Qed.

(** The circuit [agregar_componente] leaves: the graph has the node, no
    edge more or less, and only the component map is touched besides. *)
Lemma agregar_componente_estado (self : CircuitoElectronico N)
    (id_componente : Id) (tipo : string) (posicion : option Posicion) :
  let self' := snd (agregar_componente id_componente tipo posicion self) in
  nx.nodes (grafo self') = nx.nodes (nx.add_node (grafo self) id_componente) /\
  (forall u v, nx.has_edge (grafo self') u v = nx.has_edge (grafo self) u v) /\
  componentes self' = Dict.set (componentes self) id_componente tipo /\
  conexiones self' = conexiones self.
Proof.
  cbv zeta. unfold agregar_componente, bind, modificar, leer, ret.
  destruct posicion as [p|]; cbn - [nx.add_node].
  - destruct (nx.set_pos (nx.add_node (grafo self) id_componente) id_componente p)
      as [G'|] eqn:E; cbn - [nx.add_node].
    + repeat split.
      * now apply nodes_set_pos in E.
      * intros u v. rewrite (@has_edge_set_pos _ _ _ _ E). apply has_edge_add_node.
    + repeat split. intros u v. apply has_edge_add_node.
  - repeat split. intros u v. apply has_edge_add_node.
Qed.

Lemma agregar_conexion_estado (self : CircuitoElectronico N)
    (comp1 comp2 : Id) (resistencia : N) :
  snd (agregar_conexion comp1 comp2 resistencia self) =
  {| nombre := nombre self;
     grafo := nx.add_edge (grafo self) comp1 comp2;
     componentes := componentes self;
     conexiones := Dict.set (conexiones self) (comp1, comp2) resistencia |}.
Proof. reflexivity. Qed.

Lemma llamada_coherente (paso : M N unit) (self : CircuitoElectronico N) :
  llamada paso -> circuito_coherente self -> circuito_coherente (snd (paso self)).
Proof.
  intros [id_componente tipo posicion | comp1 comp2 resistencia] [Hn Hc Hs Hk Hx Hw].
  - destruct (agregar_componente_estado self id_componente tipo posicion)
      as [Hnodes [Hedge [Hcomp Hcon]]].
    assert (Hmono : forall a, Dict.mem (grafo self) a = true ->
              Dict.mem (grafo (snd (agregar_componente id_componente tipo posicion self))) a
              = true).
    { intros a Ha. apply mem_nodes. rewrite Hnodes. apply mem_nodes.
      now apply mem_add_node_mono. }
    split.
    + rewrite Hnodes. now apply nodes_add_node_NoDup.
    + intros u v. rewrite Hedge. intro He. apply Hmono. now apply Hc with u.
    + intros u v. rewrite !Hedge. apply Hs.
    + intros a. rewrite Hcomp. intro Ha.
      destruct (key_eqb_spec id_componente a) as [<-|Hne].
      * apply mem_nodes. rewrite Hnodes. apply mem_nodes, mem_add_node_same.
      * rewrite Dict.mem_set_other in Ha by assumption. auto.
    + intros a b. rewrite Hcon, Hedge. apply Hx.
    + intros a b. rewrite Hcon, Hedge. apply Hw.
  - rewrite agregar_conexion_estado. split; cbn [grafo componentes conexiones].
    + rewrite nodes_add_edge. now apply nodes_add_node_NoDup, nodes_add_node_NoDup.
    + now apply grafo_cerrado_add_edge.
    + intros u v. rewrite !has_edge_add_edge.
      intros [He|[[-> ->]|[-> ->]]]; auto.
    + intros a Ha. unfold nx.add_edge. cbv zeta.
      apply mem_link_mono, mem_link_mono, mem_add_node_mono, mem_add_node_mono. auto.
    + intros a b Ha. apply has_edge_add_edge.
      destruct (key_eqb_spec (comp1, comp2) (a, b)) as [[= -> ->]|Hne]; [auto|].
      rewrite Dict.mem_set_other in Ha by assumption. auto.
    + intros a b He. apply has_edge_add_edge in He.
      destruct He as [He|[[-> ->]|[-> ->]]].
      * destruct (Hw a b He) as [Hab|Hba];
          [left | right]; now apply Dict.mem_set_mono.
      * left. apply Dict.mem_set_same.
      * right. apply Dict.mem_set_same.
Qed.

Lemma construir_coherente (pasos : list (M N unit)) :
  forall self,
    Forall llamada pasos -> circuito_coherente self ->
    circuito_coherente (construir pasos self).
Proof.
  induction pasos as [|paso pasos IH]; intros self Hp Hc; [exact Hc|].
  inversion Hp as [|? ? Hpaso Hresto]; subst.
  unfold construir; simpl. apply IH; [assumption|].
  now apply llamada_coherente.
Qed.

(** Every circuit built from an empty one by calls of [agregar_componente]
    and [agregar_conexion], in any number and order and with any
    arguments, has each node once, every neighbour among its nodes,
    adjacency in both directions, every component among its nodes, an edge
    for every stored pair and a stored weight, in one orientation or the
    other, for every edge. *)
Theorem circuito_construido_coherente (pasos : list (M N unit)) (nombre : string) :
  Forall llamada pasos ->
  circuito_coherente (construir pasos (CircuitoElectronico_init nombre)).
Proof.
  intro Hp. apply construir_coherente; [assumption | apply coherente_init].
Qed.

(** ** The search is sound and complete *)

(** The path [encontrar_camino_hamiltoniano] returns on a circuit whose
    graph is closed and lists each node once is a Hamiltonian path: a
    rearrangement of the nodes in which each id is joined to the next. *)
Theorem camino_encontrado_recorre_todo (limite : nat) (self : CircuitoElectronico N) (l : list Id) :
  grafo_cerrado (grafo self) ->
  NoDup (nx.nodes (grafo self)) ->
  fst (encontrar_camino_hamiltoniano limite self) = Retorna (Some l) ->
  Permutation l (nx.nodes (grafo self)) /\ cadena (grafo self) l.
Proof.
  intros HG Hn Hr.
  destruct (encontrar_camino_es_hamiltoniano limite self HG Hn Hr)
    as [Hnd [Hl [Hin Hc]]].
  split; [|assumption].
  apply NoDup_Permutation_bis; [assumption | lia | exact Hin].
Qed.

Lemma encontrar_camino_existe (limite : nat) (self : CircuitoElectronico N) (p : list Id) :
  grafo_cerrado (grafo self) ->
  length (nx.nodes (grafo self)) <= limite ->
  camino_hamiltoniano (grafo self) p ->
  exists l, fst (encontrar_camino_hamiltoniano limite self) = Retorna (Some l).
Proof.
  intros HG Hlim Hp.
  destruct (Nat.lt_ge_cases (length (nx.nodes (grafo self))) 2) as [Hlt|Hge].
  - eexists. now apply encontrar_camino_corto.
  - rewrite encontrar_camino_primero by assumption.
    pose proof (hamiltoniano_en_orden (G := grafo self) (p := p)) as Hin.
    destruct (caminos_en_orden (grafo self)) as [|l ls].
    + exfalso. apply Hin; [lia | assumption].
    + exists l. reflexivity.
Qed.

(** A path found is no longer than the calls that can nest: each id after
    those the call started from was added by one more call. *)
Lemma backtrack_longitud (k : nat) :
  forall nodos camino visitados (self : CircuitoElectronico N) l,
    fst (backtrack k nodos camino visitados self) = Retorna (Some l) ->
    length l < length camino + k.
Proof.
  induction k as [|k IH]; intros nodos camino visitados self l; simpl;
    [discriminate|].
  destruct (length camino =? length nodos).
  - intros [= <-]. lia.
  - intro Hr.
    apply bind_retorna in Hr; [|apply solo_lectura_getitem_ultimo].
    destruct Hr as [u [_ Hr]].
    apply bind_retorna in Hr; [|apply solo_lectura_vecinos_de].
    destruct Hr as [vs [_ Hr]].
    apply para_cada_retorna in Hr; [|apply solo_lectura_cuerpo_backtrack].
    destruct Hr as [Hr|[_ [v [_ Hb]]]]; [discriminate|].
    destruct (negb (pertenece v visitados)); [|discriminate].
    apply IH in Hb. rewrite length_app in Hb. simpl in Hb. lia.
Qed.

Lemma encontrar_camino_longitud (limite : nat) (self : CircuitoElectronico N)
    (l : list Id) :
  2 <= length (nx.nodes (grafo self)) ->
  fst (encontrar_camino_hamiltoniano limite self) = Retorna (Some l) ->
  length l <= limite.
Proof.
  intro Hlen. unfold encontrar_camino_hamiltoniano, bind, leer; simpl.
  destruct (length (nx.nodes (grafo self)) <? 2) eqn:E.
  { apply Nat.ltb_lt in E. lia. }
  intro Hr. apply para_cada_retorna in Hr.
  2:{ intro x. apply solo_lectura_backtrack. }
  destruct Hr as [Hr|[_ [inicio [_ Hb]]]]; [discriminate|].
  apply backtrack_longitud in Hb. simpl in Hb. lia.
Qed.

(** Without room for as many nested calls as there are nodes, a search
    that has a Hamiltonian path to find exhausts the stack. *)
Lemma encontrar_camino_desborda (limite : nat) (self : CircuitoElectronico N)
    (p : list Id) :
  grafo_cerrado (grafo self) ->
  NoDup (nx.nodes (grafo self)) ->
  2 <= length (nx.nodes (grafo self)) ->
  limite < length (nx.nodes (grafo self)) ->
  camino_hamiltoniano (grafo self) p ->
  fst (encontrar_camino_hamiltoniano limite self) = Lanza RecursionError.
Proof.
  intros HG Hn Hlen Hlim Hp.
  destruct (fst (encontrar_camino_hamiltoniano limite self)) as [r|e] eqn:E.
  - exfalso.
    destruct (encontrar_camino_existe (limite := length (nx.nodes (grafo self)))
                self HG (le_n _) Hp) as [l Hl].
    assert (E' := E).
    apply encontrar_camino_mas_limite
      with (k' := length (nx.nodes (grafo self))) in E'; [|lia].
    rewrite Hl in E'. injection E' as <-.
    pose proof (encontrar_camino_es_hamiltoniano _ self HG Hn Hl) as [_ [Hll _]].
    apply encontrar_camino_longitud in E; [lia | assumption].
  - f_equal. now apply encontrar_camino_no_lanza with limite self.
Qed.

(** The search is complete, given room: on a circuit whose graph is closed
    and lists each node once, if the graph has a Hamiltonian path and the
    stack has room for as many nested calls as the graph has nodes, then
    [encontrar_camino_hamiltoniano] returns a Hamiltonian path (it neither
    raises nor returns [None]).  With less room than that, on a graph of at
    least 2 nodes, it raises [RecursionError] instead. *)
Theorem busqueda_completa (limite : nat) (self : CircuitoElectronico N) (p : list Id) :
  grafo_cerrado (grafo self) ->
  NoDup (nx.nodes (grafo self)) ->
  camino_hamiltoniano (grafo self) p ->
  (length (nx.nodes (grafo self)) <= limite ->
   exists l,
     fst (encontrar_camino_hamiltoniano limite self) = Retorna (Some l) /\
     camino_hamiltoniano (grafo self) l) /\
  (2 <= length (nx.nodes (grafo self)) ->
   limite < length (nx.nodes (grafo self)) ->
   fst (encontrar_camino_hamiltoniano limite self) = Lanza RecursionError).
Proof.
  intros HG Hn Hp. split.
  - intro Hlim. destruct (encontrar_camino_existe self HG Hlim Hp) as [l Hl].
    exists l. split; [assumption|].
    now apply encontrar_camino_es_hamiltoniano with limite.
  - intros Hlen Hlim. now apply encontrar_camino_desborda with p.
Qed.

Lemma es_hamiltoniano_valor (limite : nat) (self : CircuitoElectronico N) :
  fst (es_hamiltoniano limite self) =
  Retorna (match fst (encontrar_camino_hamiltoniano limite self) with
           | Retorna (Some _) => true
           | _ => false
           end).
Proof.
  unfold es_hamiltoniano, intentar, bind, ret.
  destruct (encontrar_camino_hamiltoniano limite self) as [[[l|]|e] self']; reflexivity.
Qed.

(** What [es_hamiltoniano] decides: on a circuit whose graph is closed and
    lists each node once it returns [True] exactly when the graph has a
    Hamiltonian path (the empty graph and the one-node graph have one) and,
    for a graph of 2 nodes or more, the stack has room for as many nested
    calls as the graph has nodes.  On a larger graph the answer is [False]
    whether or not it has a Hamiltonian path. *)
Theorem es_hamiltoniano_decide (limite : nat) (self : CircuitoElectronico N) :
  grafo_cerrado (grafo self) ->
  NoDup (nx.nodes (grafo self)) ->
  (fst (es_hamiltoniano limite self) = Retorna true <->
   (exists p, camino_hamiltoniano (grafo self) p) /\
   (length (nx.nodes (grafo self)) < 2 \/ length (nx.nodes (grafo self)) <= limite)).
Proof.
  intros HG Hn. rewrite es_hamiltoniano_valor. split.
  - destruct (fst (encontrar_camino_hamiltoniano limite self)) as [[l|]|e] eqn:E;
      try discriminate.
    intros _. split.
    + exists l. now apply encontrar_camino_es_hamiltoniano with limite.
    + destruct (Nat.lt_ge_cases (length (nx.nodes (grafo self))) 2) as [Hlt|Hge];
        [now left | right].
      pose proof (encontrar_camino_es_hamiltoniano _ self HG Hn E) as [_ [Hl _]].
      apply encontrar_camino_longitud in E; [lia | assumption].
  - intros [[p Hp] Hroom].
    destruct (Nat.lt_ge_cases (length (nx.nodes (grafo self))) 2) as [Hlt|Hge].
    + now rewrite encontrar_camino_corto.
    + assert (Hlim : length (nx.nodes (grafo self)) <= limite) by lia.
      destruct (encontrar_camino_existe self HG Hlim Hp) as [l ->]. reflexivity.
Qed.

(** ** The cycle returned *)

Lemma ultimo_aparte (p : Id) (l : list Id) :
  p :: l = removelast (p :: l) ++ [last l p].
Proof.
  assert (Hne : p :: l <> []) by discriminate.
  rewrite (app_removelast_last p Hne) at 1. now rewrite last_cons.
Qed.

(** What a returned cycle is made of. *)
Lemma encontrar_ciclo_forma (limite : nat) (self : CircuitoElectronico N) (ciclo : list Id) :
  fst (encontrar_ciclo_hamiltoniano limite self) = Retorna (Some ciclo) ->
  exists p l,
    fst (encontrar_camino_hamiltoniano limite self) = Retorna (Some (p :: l)) /\
    nx.has_edge (grafo self) (last l p) p = true /\
    ciclo = (p :: l) ++ [p].
Proof.
  rewrite encontrar_ciclo_ecuacion.
  destruct (fst (encontrar_camino_hamiltoniano limite self)) as [[[|p l]|]|e];
    try discriminate.
  destruct (nx.has_edge (grafo self) (last l p) p) eqn:E; [|discriminate].
  intros [= <-]. exists p, l. auto.
Qed.

Lemma encontrar_ciclo_cadena (limite : nat) (self : CircuitoElectronico N) (ciclo : list Id) :
  grafo_cerrado (grafo self) ->
  NoDup (nx.nodes (grafo self)) ->
  fst (encontrar_ciclo_hamiltoniano limite self) = Retorna (Some ciclo) ->
  cadena (grafo self) ciclo.
Proof.
  intros HG Hn Hr. destruct (encontrar_ciclo_forma limite self Hr) as [p [l [Hc [He ->]]]].
  apply encontrar_camino_es_hamiltoniano in Hc; try assumption.
  destruct Hc as [_ [_ [_ Hc]]].
  rewrite (ultimo_aparte p l) in *. now apply cadena_app.
Qed.

(** A cycle returned by [encontrar_ciclo_hamiltoniano] on a circuit whose
    graph is closed and lists each node once is a Hamiltonian cycle: a
    Hamiltonian path followed by its first node, one longer than the number
    of nodes, with every consecutive pair, the closing one included, an
    edge of the graph. *)
Theorem ciclo_encontrado_es_hamiltoniano (limite : nat) (self : CircuitoElectronico N)
    (ciclo : list Id) :
  grafo_cerrado (grafo self) ->
  NoDup (nx.nodes (grafo self)) ->
  fst (encontrar_ciclo_hamiltoniano limite self) = Retorna (Some ciclo) ->
  (exists p l, ciclo = (p :: l) ++ [p] /\ camino_hamiltoniano (grafo self) (p :: l)) /\
  length ciclo = S (length (nx.nodes (grafo self))) /\
  cadena (grafo self) ciclo.
Proof.
  intros HG Hn Hr. split; [|split].
  - destruct (encontrar_ciclo_forma limite self Hr) as [p [l [Hc [He ->]]]].
    exists p, l. split; [reflexivity|].
    now apply encontrar_camino_es_hamiltoniano with limite.
  - destruct (encontrar_ciclo_forma limite self Hr) as [p [l [Hc [He ->]]]].
    apply encontrar_camino_es_hamiltoniano in Hc; try assumption.
    destruct Hc as [_ [Hl _]]. rewrite length_app, Hl. simpl. lia.
  - now apply encontrar_ciclo_cadena with limite.
Qed.

(** ** The weights the evaluator finds *)

Lemma cadena_pares (G : nx.Graph) (l : list Id) :
  cadena G l ->
  Forall (fun ab => nx.has_edge G (fst ab) (snd ab) = true) (pares_consecutivos l).
Proof.
  induction l as [|a l IH]; [constructor|].
  destruct l as [|b l]; [constructor|].
  intros [Hab Hc]. constructor; [exact Hab | now apply IH].
Qed.

(** The weight found for a pair is a stored one, not the default. *)
Definition peso_guardado (d : Dict.t (Id * Id) N) (ab : Id * Id) : Prop :=
  exists w,
    (Dict.get d ab = Some w \/ Dict.get d (snd ab, fst ab) = Some w) /\
    connectionWeight d (fst ab) (snd ab) = w.

Lemma arista_con_peso_guardado (d : Dict.t (Id * Id) N) (a b : Id) :
  Dict.mem d (a, b) = true \/ Dict.mem d (b, a) = true -> peso_guardado d (a, b).
Proof.
  unfold peso_guardado, connectionWeight, Dict.mem. cbn [fst snd].
  destruct (Dict.get d (a, b)) as [w|]; [eauto|].
  destruct (Dict.get d (b, a)) as [w|]; [eauto|].
  intros [Hf|Hf]; discriminate.
Qed.

Lemma cadena_pesos_guardados (self : CircuitoElectronico N) (l : list Id) :
  circuito_coherente self ->
  cadena (grafo self) l ->
  Forall (peso_guardado (conexiones self)) (pares_consecutivos l).
Proof.
  intros Hco Hc. apply cadena_pares in Hc.
  eapply Forall_impl; [|exact Hc].
  intros [a b] He. apply arista_con_peso_guardado. now apply (aristas_con_peso Hco).
Qed.

(** On a coherent circuit (any circuit built by the two methods) the
    evaluator never falls back on the default weight 1.0 for a path or a
    cycle the search returned: every consecutive pair has a weight stored
    in one orientation or the other, and that is the weight used. *)
Theorem resultado_con_pesos_guardados (limite : nat) (self : CircuitoElectronico N) (l : list Id) :
  circuito_coherente self ->
  fst (encontrar_camino_hamiltoniano limite self) = Retorna (Some l) \/
  fst (encontrar_ciclo_hamiltoniano limite self) = Retorna (Some l) ->
  Forall (peso_guardado (conexiones self)) (pares_consecutivos l).
Proof.
  intros Hco [Hr|Hr]; apply cadena_pesos_guardados; try assumption.
  - apply (encontrar_camino_es_hamiltoniano limite self (vecinos_son_nodos Hco)
             (nodos_unicos Hco) Hr).
  - apply (encontrar_ciclo_cadena limite self (vecinos_son_nodos Hco)
             (nodos_unicos Hco) Hr).
Qed.

Lemma pares_consecutivos_app (l : list Id) :
  forall p q,
    pares_consecutivos ((p :: l) ++ [q]) =
    pares_consecutivos (p :: l) ++ [(last l p, q)].
Proof.
  induction l as [|a l IH]; intros p q; [reflexivity|].
  change (pares_consecutivos ((p :: a :: l) ++ [q]))
    with ((p, a) :: pares_consecutivos ((a :: l) ++ [q])).
  rewrite IH. change (pares_consecutivos (p :: a :: l))
    with ((p, a) :: pares_consecutivos (a :: l)).
  now rewrite (last_cons a l p).
Qed.

Lemma totalWeight_app (d : Dict.t (Id * Id) N) (p : Id) (l : list Id) (q : Id) :
  totalWeight d ((p :: l) ++ [q]) =
  sumar (totalWeight d (p :: l)) (connectionWeight d (last l p) q).
Proof.
  unfold totalWeight. rewrite pares_consecutivos_app, fold_left_app. reflexivity.
Qed.

(** Appending a node to a path adds the weight of the new last connection
    to the total the evaluator works from, and nothing else changes: the
    efficiency of the longer sequence, a cycle closed from a path for
    one, is [1.0 / (1.0 + (total of the path + weight of the closing
    connection))]. *)
Theorem eficiencia_al_extender (self : CircuitoElectronico N) (p : Id)
    (l : list Id) (q : Id) :
  calcular_eficiencia_energetica (Some ((p :: l) ++ [q])) self =
  match
    dividir uno
      (sumar uno
         (sumar (totalWeight (conexiones self) (p :: l))
            (connectionWeight (conexiones self) (last l p) q)))
  with
  | Some eficiencia => (Retorna eficiencia, self)
  | None => (Lanza ZeroDivisionError, self)
  end.
Proof.
  rewrite calcular_eficiencia_energetica_ecuacion, totalWeight_app.
  assert (Hlen : (length ((p :: l) ++ [q]) <? 2) = false).
  { apply Nat.ltb_ge. rewrite length_app. simpl. lia. }
  now rewrite Hlen.
Qed.

(** A connection added for other endpoints leaves the weight found for a
    pair as it was. *)
Theorem agregar_conexion_no_toca_otros (self : CircuitoElectronico N)
    (comp1 comp2 : Id) (resistencia : N) (a b : Id) :
  (a, b) <> (comp1, comp2) ->
  (b, a) <> (comp1, comp2) ->
  connectionWeight
    (conexiones (snd (agregar_conexion comp1 comp2 resistencia self))) a b
  = connectionWeight (conexiones self) a b.
Proof.
  intros Hab Hba. rewrite agregar_conexion_estado. cbn [conexiones].
  unfold connectionWeight.
  now rewrite !Dict.get_set_other by congruence.
Qed.

(** ** The search looks at the graph only *)

Lemma para_cada_ext (xs : list Id) (f g : Id -> M N (option (list Id)))
    (c1 c2 : CircuitoElectronico N) :
  (forall x, solo_lectura (f x)) ->
  (forall x, solo_lectura (g x)) ->
  (forall x, In x xs -> fst (f x c1) = fst (g x c2)) ->
  fst (para_cada xs f c1) = fst (para_cada xs g c2).
Proof.
  intros Hf Hg. induction xs as [|x xs IH]; intro Hfg; [reflexivity|].
  simpl. rewrite !valor_bind by auto. rewrite (Hfg x) by now left.
  destruct (fst (g x c2)) as [r|e]; [|reflexivity].
  destruct (verdadero r); [reflexivity|].
  apply IH. intros y Hy. apply Hfg. now right.
Qed.

Lemma getitem_ultimo_indep (l : list Id) (c1 c2 : CircuitoElectronico N) :
  fst (getitem_ultimo l c1) = fst (getitem_ultimo l c2).
Proof.
  unfold getitem_ultimo, getitem. destruct l; [reflexivity|].
  destruct (nth_error _ _); reflexivity.
Qed.

Lemma backtrack_solo_grafo (limite : nat) :
  forall nodos camino visitados (c1 c2 : CircuitoElectronico N),
    grafo c1 = grafo c2 ->
    fst (backtrack limite nodos camino visitados c1)
    = fst (backtrack limite nodos camino visitados c2).
Proof.
  induction limite as [|k IH]; intros nodos camino visitados c1 c2 Hg;
    simpl; destruct (length camino =? length nodos); try reflexivity.
  rewrite !valor_bind by apply solo_lectura_getitem_ultimo.
  rewrite (getitem_ultimo_indep camino c1 c2).
  destruct (fst (getitem_ultimo camino c2)) as [u|e]; [|reflexivity].
  rewrite !valor_bind by apply solo_lectura_vecinos_de.
  rewrite !vecinos_de_valor, Hg.
  destruct (nx.neighbors (grafo c2) u) as [vs|]; [|reflexivity].
  apply para_cada_ext; try apply solo_lectura_cuerpo_backtrack.
  intros v _. destruct (negb (pertenece v visitados)); [now apply IH | reflexivity].
Qed.

Lemma encontrar_camino_solo_grafo (limite : nat) (c1 c2 : CircuitoElectronico N) :
  grafo c1 = grafo c2 ->
  fst (encontrar_camino_hamiltoniano limite c1) = fst (encontrar_camino_hamiltoniano limite c2).
Proof.
  intro Hg. unfold encontrar_camino_hamiltoniano, bind, leer; simpl. rewrite Hg.
  destruct (length (nx.nodes (grafo c2)) <? 2); [reflexivity|].
  apply para_cada_ext; try (intro x; apply solo_lectura_backtrack).
  intros x _. now apply backtrack_solo_grafo.
Qed.

(** The path search, the existence check and the cycle search look at
    nothing but the graph: two circuits with the same graph, whatever their
    weights, component types and names, get the same answers.  In
    particular the path found is not chosen by its weight. *)
Theorem busqueda_ignora_pesos (limite : nat) (c1 c2 : CircuitoElectronico N) :
  grafo c1 = grafo c2 ->
  fst (encontrar_camino_hamiltoniano limite c1) = fst (encontrar_camino_hamiltoniano limite c2) /\
  fst (es_hamiltoniano limite c1) = fst (es_hamiltoniano limite c2) /\
  fst (encontrar_ciclo_hamiltoniano limite c1) = fst (encontrar_ciclo_hamiltoniano limite c2).
Proof.
  intro Hg. pose proof (encontrar_camino_solo_grafo limite c1 c2 Hg) as Hc.
  split; [exact Hc|]. split.
  - now rewrite !es_hamiltoniano_valor, Hc.
  - now rewrite !encontrar_ciclo_ecuacion, Hc, Hg.
Qed.

(** ** Adding the same connection again *)

Lemma link_idem (G : nx.Graph) (u v : Id) :
  nx.has_edge G u v = true -> nx.link G u v = G.
Proof.
  unfold nx.has_edge, nx.link, Dict.mem.
  destruct (Dict.get G u) as [d|] eqn:Eu; [|discriminate].
  destruct (Dict.get (nx.adj d) v) as [[]|] eqn:Ev; [intros _ | discriminate].
  rewrite (set_get_same _ _ Ev). apply set_get_same.
  rewrite Eu. now destruct d.
Qed.

Lemma add_node_idem (G : nx.Graph) (n : Id) :
  Dict.mem G n = true -> nx.add_node G n = G.
Proof. unfold nx.add_node. now intros ->. Qed.

Lemma add_edge_idem (G : nx.Graph) (u v : Id) :
  nx.add_edge (nx.add_edge G u v) u v = nx.add_edge G u v.
Proof.
  destruct (add_edge_has_edge G u v) as [Huv [Hvu [Hu Hv]]].
  apply mem_nodes in Hu. apply mem_nodes in Hv.
  unfold nx.add_edge at 1. cbv zeta.
  rewrite (add_node_idem _ _ Hu), (add_node_idem _ _ Hv).
  now rewrite (link_idem _ _ _ Huv), (link_idem _ _ _ Hvu).
Qed.

(** Adding a connection again with the endpoints in the same order only
    replaces its weight: the graph is the one the first call left, the
    connection map has no entry more, and the circuit is the one a single
    call with the later weight gives. *)
Theorem agregar_conexion_repetida (self : CircuitoElectronico N)
    (comp1 comp2 : Id) (r1 r2 : N) :
  agregar_conexion comp1 comp2 r2 (snd (agregar_conexion comp1 comp2 r1 self))
  = (Retorna tt, snd (agregar_conexion comp1 comp2 r2 self)).
Proof.
  unfold agregar_conexion, bind, modificar, con_grafo, con_conexiones.
  cbn - [nx.add_edge]. now rewrite add_edge_idem, set_set.
Qed.

(** ** The order of the neighbours *)

(** [agregar_conexion] on two different ids puts each one last among the
    neighbours of the other, unless the edge is there already, in which
    case their order stays; the neighbours of every other node are
    untouched.  This is the order in which the search tries them. *)
Theorem agregar_conexion_orden_de_vecinos (self : CircuitoElectronico N)
    (comp1 comp2 : Id) (resistencia : N) :
  comp1 <> comp2 ->
  let G := grafo self in
  let G' := grafo (snd (agregar_conexion comp1 comp2 resistencia self)) in
  let vecinos_antes n :=
    match nx.neighbors G n with Some vs => vs | None => [] end in
  nx.neighbors G' comp1 =
    Some (if nx.has_edge G comp1 comp2 then vecinos_antes comp1
          else vecinos_antes comp1 ++ [comp2]) /\
  nx.neighbors G' comp2 =
    Some (if nx.has_edge G comp2 comp1 then vecinos_antes comp2
          else vecinos_antes comp2 ++ [comp1]) /\
  forall n, n <> comp1 -> n <> comp2 -> nx.neighbors G' n = nx.neighbors G n.
Proof.
  intro Hne. cbv zeta. rewrite agregar_conexion_estado. cbn [grafo].
  destruct (add_edge_neighbors (grafo self) Hne) as [H1 H2].
  split; [exact H1|]. split; [exact H2|].
  intros n Hn1 Hn2. unfold nx.neighbors, nx.add_edge. cbv zeta.
  now rewrite !link_get_other, !add_node_get_other by congruence.
Qed.

(** ** The searches return *)

(** On a circuit whose graph is closed (any circuit built by the two
    methods) the path search and the cycle search raise nothing but
    [RecursionError]; and with room on the stack for as many nested calls
    as the graph has nodes they raise nothing at all: each returns a
    sequence or [None]. *)
Theorem busquedas_no_lanzan (limite : nat) (self : CircuitoElectronico N) :
  grafo_cerrado (grafo self) ->
  (forall e,
     fst (encontrar_camino_hamiltoniano limite self) = Lanza e \/
     fst (encontrar_ciclo_hamiltoniano limite self) = Lanza e ->
     e = RecursionError) /\
  (length (nx.nodes (grafo self)) <= limite ->
   (exists r, fst (encontrar_camino_hamiltoniano limite self) = Retorna r) /\
   (exists r, fst (encontrar_ciclo_hamiltoniano limite self) = Retorna r)).
Proof.
  intro HG. split.
  - intros e [He|He].
    + now apply encontrar_camino_no_lanza with limite self.
    + rewrite encontrar_ciclo_ecuacion in He.
      destruct (fst (encontrar_camino_hamiltoniano limite self)) as [[[|p l]|]|e']
        eqn:E; try discriminate.
      * destruct (nx.has_edge (grafo self) (last l p) p); discriminate.
      * injection He as <-. now apply encontrar_camino_no_lanza with limite self.
  - intro Hlim. destruct (encontrar_camino_retorna self HG Hlim) as [r Hr].
    split; [eauto|]. rewrite encontrar_ciclo_ecuacion, Hr.
    destruct r as [[|p l]|]; eauto.
    destruct (nx.has_edge (grafo self) (last l p) p); eauto.
Qed.

(** ** Cycles on one and two nodes *)

(** The cycle search has no lower bound on the size of the graph.  On a
    graph of one node it returns that node twice when the node has a loop,
    and [None] otherwise.  On a closed, symmetric graph of two joined
    nodes, with room for two nested calls, it returns a three-element
    sequence that goes over the one edge and back. *)
Theorem ciclos_degenerados (limite : nat) (self : CircuitoElectronico N) (a b : Id) :
  (nx.nodes (grafo self) = [a] ->
   fst (encontrar_ciclo_hamiltoniano limite self) =
   Retorna (if nx.has_edge (grafo self) a a then Some [a; a] else None)) /\
  (nx.nodes (grafo self) = [a; b] ->
   a <> b ->
   grafo_cerrado (grafo self) ->
   simetrico (grafo self) ->
   nx.has_edge (grafo self) a b = true ->
   2 <= limite ->
   exists p q,
     p <> q /\ fst (encontrar_ciclo_hamiltoniano limite self) = Retorna (Some [p; q; p])).
Proof.
  split.
  - intro Hn. rewrite encontrar_ciclo_ecuacion, encontrar_camino_corto
      by (rewrite Hn; simpl; lia).
    rewrite Hn. cbn [last app].
    destruct (nx.has_edge (grafo self) a a); reflexivity.
  - intros Hn Hab HG Hs He Hlim.
    assert (Hnd : NoDup (nx.nodes (grafo self))).
    { rewrite Hn. constructor; [simpl; intuition congruence|].
      constructor; [simpl; tauto | constructor]. }
    assert (Hp : camino_hamiltoniano (grafo self) [a; b]).
    { rewrite Hn in Hnd. repeat split; auto.
      - now rewrite Hn.
      - intros x Hx. now rewrite Hn. }
    assert (Hroom : length (nx.nodes (grafo self)) <= limite)
      by (rewrite Hn; exact Hlim).
    destruct (encontrar_camino_existe self HG Hroom Hp) as [l Hl].
    pose proof (encontrar_camino_es_hamiltoniano _ self HG Hnd Hl) as [Hnl [Hll [_ Hcl]]].
    rewrite Hn in Hll. destruct l as [|p [|q [|x l]]]; try discriminate.
    exists p, q. split.
    + inversion Hnl as [|? ? Hnot _]; subst. intros ->. apply Hnot. now left.
    + rewrite encontrar_ciclo_ecuacion, Hl. cbn [last app].
      destruct Hcl as [Hpq _]. now rewrite (Hs _ _ Hpq).
Qed.

End Propiedades.

(** ** The properties on the examples *)

Lemma pasos_ejemplo_son_llamadas :
  circuito_coherente circuito_ejemplo.
Proof.
  unfold circuito_ejemplo. apply construir_coherente.
  - repeat constructor.
  - apply coherente_init.
Qed.

Lemma circuito_construido_coherente_testigo :
  circuito_coherente circuito_dos_orientaciones.
Proof.
  unfold circuito_dos_orientaciones.
  apply circuito_construido_coherente. repeat constructor.
Defined.

Lemma camino_encontrado_recorre_todo_testigo :
  Permutation ["R1"; "VCC"; "R2"; "T1"; "L1"; "C1"]%string
    (nx.nodes (grafo circuito_ejemplo)) /\
  cadena (grafo circuito_ejemplo) ["R1"; "VCC"; "R2"; "T1"; "L1"; "C1"]%string.
Proof.
  apply camino_encontrado_recorre_todo with (limite := 1000).
  - apply (vecinos_son_nodos pasos_ejemplo_son_llamadas).
  - apply (nodos_unicos pasos_ejemplo_son_llamadas).
  - vm_compute. reflexivity.
Defined.

Lemma ejemplo_tiene_camino :
  camino_hamiltoniano (grafo circuito_ejemplo)
    ["VCC"; "R1"; "C1"; "L1"; "T1"; "R2"]%string.
Proof.
  unfold camino_hamiltoniano. split; [|split; [|split]].
  - repeat constructor; cbn [In]; intuition discriminate.
  - vm_compute. reflexivity.
  - intros x Hx. vm_compute. cbn [In] in Hx. tauto.
  - cbn [cadena].
    split; [|split; [|split; [|split; [|split; [|exact I]]]]]; vm_compute; reflexivity.
Qed.

(** The example circuit has six nodes: with room for 1000 nested calls the
    search returns a Hamiltonian path, with room for 5 it raises. *)
Lemma busqueda_completa_testigo :
  (exists l,
     fst (encontrar_camino_hamiltoniano 1000 circuito_ejemplo) = Retorna (Some l) /\
     camino_hamiltoniano (grafo circuito_ejemplo) l) /\
  fst (encontrar_camino_hamiltoniano 5 circuito_ejemplo) = Lanza RecursionError.
Proof.
  split.
  - apply (proj1 (busqueda_completa 1000 circuito_ejemplo
                    (vecinos_son_nodos pasos_ejemplo_son_llamadas)
                    (nodos_unicos pasos_ejemplo_son_llamadas)
                    ejemplo_tiene_camino)).
    vm_compute. lia.
  - apply (proj2 (busqueda_completa 5 circuito_ejemplo
                    (vecinos_son_nodos pasos_ejemplo_son_llamadas)
                    (nodos_unicos pasos_ejemplo_son_llamadas)
                    ejemplo_tiene_camino)).
    + vm_compute. lia.
    + vm_compute. lia.
Defined.

Lemma es_hamiltoniano_decide_testigo :
  fst (es_hamiltoniano 5 circuito_ejemplo) = Retorna true <->
  (exists p, camino_hamiltoniano (grafo circuito_ejemplo) p) /\
  (length (nx.nodes (grafo circuito_ejemplo)) < 2 \/
   length (nx.nodes (grafo circuito_ejemplo)) <= 5).
Proof.
  apply es_hamiltoniano_decide.
  - apply (vecinos_son_nodos pasos_ejemplo_son_llamadas).
  - apply (nodos_unicos pasos_ejemplo_son_llamadas).
Defined.

Lemma ciclo_encontrado_es_hamiltoniano_testigo :
  (exists p l,
     ["R1"; "VCC"; "R2"; "T1"; "L1"; "C1"; "R1"]%string = (p :: l) ++ [p] /\
     camino_hamiltoniano (grafo circuito_ejemplo) (p :: l)) /\
  length ["R1"; "VCC"; "R2"; "T1"; "L1"; "C1"; "R1"]%string
    = S (length (nx.nodes (grafo circuito_ejemplo))) /\
  cadena (grafo circuito_ejemplo) ["R1"; "VCC"; "R2"; "T1"; "L1"; "C1"; "R1"]%string.
Proof.
  apply ciclo_encontrado_es_hamiltoniano with (limite := 1000).
  - apply (vecinos_son_nodos pasos_ejemplo_son_llamadas).
  - apply (nodos_unicos pasos_ejemplo_son_llamadas).
  - vm_compute. reflexivity.
Defined.

Lemma resultado_con_pesos_guardados_testigo :
  Forall (peso_guardado (conexiones circuito_ejemplo))
    (pares_consecutivos ["R1"; "VCC"; "R2"; "T1"; "L1"; "C1"; "R1"]%string).
Proof.
  apply resultado_con_pesos_guardados with (limite := 1000).
  - apply pasos_ejemplo_son_llamadas.
  - right. vm_compute. reflexivity.
Defined.

Lemma agregar_conexion_no_toca_otros_testigo :
  connectionWeight
    (conexiones (snd (agregar_conexion "R1" "L1" 2%float circuito_ejemplo)))
    "VCC" "R1"
  = connectionWeight (conexiones circuito_ejemplo) "VCC" "R1".
Proof.
  apply agregar_conexion_no_toca_otros; discriminate.
Defined.

Lemma agregar_conexion_peso_testigo :
  connectionWeight
    (conexiones (snd (agregar_conexion "R1" "VCC" 2%float (circuito_par 9%float))))
    "R1" "VCC" = 2%float /\
  connectionWeight
    (conexiones (snd (agregar_conexion "R1" "VCC" 2%float (circuito_par 9%float))))
    "VCC" "R1" = 2%float.
Proof.
  apply (agregar_conexion_peso (circuito_par 9%float) "R1" "VCC" 2%float).
  vm_compute. reflexivity.
Defined.

Lemma busqueda_ignora_pesos_testigo :
  fst (encontrar_camino_hamiltoniano 1000 (circuito_par 3%float))
    = fst (encontrar_camino_hamiltoniano 1000 (circuito_par 4%float)) /\
  fst (es_hamiltoniano 1000 (circuito_par 3%float))
    = fst (es_hamiltoniano 1000 (circuito_par 4%float)) /\
  fst (encontrar_ciclo_hamiltoniano 1000 (circuito_par 3%float))
    = fst (encontrar_ciclo_hamiltoniano 1000 (circuito_par 4%float)).
Proof.
  apply busqueda_ignora_pesos. vm_compute. reflexivity.
Defined.

Lemma agregar_conexion_orden_de_vecinos_testigo :
  nx.neighbors (grafo (snd (agregar_conexion "R1" "L1" 2%float circuito_ejemplo))) "R1"
    = Some ["VCC"; "C1"; "L1"]%string.
Proof.
  assert (Hne : "R1"%string <> "L1"%string) by discriminate.
  exact (proj1 (agregar_conexion_orden_de_vecinos circuito_ejemplo 2%float Hne)).
Defined.

Lemma busquedas_no_lanzan_testigo :
  (exists r, fst (encontrar_camino_hamiltoniano 1000 circuito_ejemplo) = Retorna r) /\
  (exists r, fst (encontrar_ciclo_hamiltoniano 1000 circuito_ejemplo) = Retorna r).
Proof.
  apply (proj2 (busquedas_no_lanzan 1000 circuito_ejemplo
                  (vecinos_son_nodos pasos_ejemplo_son_llamadas))).
  vm_compute. lia.
Defined.

Lemma ciclos_degenerados_testigo :
  exists p q,
    p <> q /\
    fst (encontrar_ciclo_hamiltoniano 1000 (circuito_par 3%float))
      = Retorna (Some [p; q; p]).
Proof.
  assert (Hc : circuito_coherente (circuito_par 3%float)).
  { unfold circuito_par. apply construir_coherente.
    - repeat constructor.
    - apply coherente_init. }
  apply (proj2 (ciclos_degenerados 1000 (circuito_par 3%float) "A" "B")).
  - vm_compute. reflexivity.
  - discriminate.
  - apply (vecinos_son_nodos Hc).
  - apply (aristas_simetricas Hc).
  - vm_compute. reflexivity.
  - lia.
Defined.

(** * The application: the handlers behind the buttons *)

From Stdlib Require Uint63.
From Stdlib Require Import DecimalString.

(** What the reports need besides the evaluator's arithmetic: [a - b],
    [a > b], the literals [0.7] and [0.4], and the float written as an
    integer literal followed by [.0], such as [10.0]. *)
Class AritmeticaInforme (N : Type) := {
  restar : N -> N -> N;
  mayor_que : N -> N -> bool;
  siete_decimos : N;
  cuatro_decimos : N;
  de_entero : Z -> N
}.

#[export] Instance informe_binary64 : AritmeticaInforme float := {|
  restar := PrimFloat.sub;
  mayor_que := fun a b => PrimFloat.ltb b a;
  siete_decimos := 0x1.6666666666666p-1%float;
  cuatro_decimos := 0x1.999999999999ap-2%float;
  de_entero := fun z => PrimFloat.of_uint63 (Uint63.of_Z z)
|}.

(** [str(n)] for a length. *)
Definition str_nat (n : nat) : string := NilZero.string_of_uint (Nat.to_uint n).

(** The newline [mostrar_resultado] puts after each text. *)
Definition nl : string := String (Ascii.ascii_of_nat 10) EmptyString.

(** A message box. *)
Inductive ventana :=
| showerror (titulo mensaje : string)
| showwarning (titulo mensaje : string)
| showinfo (titulo mensaje : string).

Module Aplicacion.
Section Aplicacion.
Context {N : Type} `{Aritmetica N} `{AritmeticaInforme N}.

(** Taken as given: Python's [str.strip], [float] of a text ([None] for
    its [ValueError]), the formatting of a float by [f"{x}"] and by
    [f"{x:.nf}"], and the lines [analizar_propiedades_circuito] shows, which
    are statistics networkx computes from the graph. *)
Variable strip : string -> string.
Variable float_de : string -> option N.
Variable str_de : N -> string.
Variable formato : nat -> N -> string.
Variable propiedades_del_grafo : nx.Graph -> list string.

(** The handlers run from the event loop, always at the same depth of the
    stack: [limite] is the depth of calls of [backtrack] the interpreter
    has room for when a handler starts a search. *)
Variable limite : nat.

(** The state of an [AplicacionHamiltonianoCircuitos]: the circuit on
    screen, whether an analyser has been made for it, the texts of the entry
    widgets, the text of the result area, and what has been shown: the
    message boxes and the calls of [dibujar_circuito], oldest first.
    The analyser is always one of [circuito_actual]: [nuevo_circuito], the
    only method that replaces the circuit, discards it. *)
Record AplicacionHamiltonianoCircuitos := {
  circuito_actual : CircuitoElectronico N;
  analizador : bool;
  id_entry : string;
  tipo_combo : string;
  comp1_entry : string;
  comp2_entry : string;
  resistencia_entry : string;
  resultado_text : string;
  ventanas : list ventana;
  dibujos : list (CircuitoElectronico N * option (list Id))
}.

Definition con_circuito_actual app c :=
  {| circuito_actual := c; analizador := analizador app;
     id_entry := id_entry app; tipo_combo := tipo_combo app;
     comp1_entry := comp1_entry app; comp2_entry := comp2_entry app;
     resistencia_entry := resistencia_entry app;
     resultado_text := resultado_text app;
     ventanas := ventanas app; dibujos := dibujos app |}.

Definition con_analizador app b :=
  {| circuito_actual := circuito_actual app; analizador := b;
     id_entry := id_entry app; tipo_combo := tipo_combo app;
     comp1_entry := comp1_entry app; comp2_entry := comp2_entry app;
     resistencia_entry := resistencia_entry app;
     resultado_text := resultado_text app;
     ventanas := ventanas app; dibujos := dibujos app |}.

Definition con_id_entry app s :=
  {| circuito_actual := circuito_actual app; analizador := analizador app;
     id_entry := s; tipo_combo := tipo_combo app;
     comp1_entry := comp1_entry app; comp2_entry := comp2_entry app;
     resistencia_entry := resistencia_entry app;
     resultado_text := resultado_text app;
     ventanas := ventanas app; dibujos := dibujos app |}.

Definition con_tipo_combo app s :=
  {| circuito_actual := circuito_actual app; analizador := analizador app;
     id_entry := id_entry app; tipo_combo := s;
     comp1_entry := comp1_entry app; comp2_entry := comp2_entry app;
     resistencia_entry := resistencia_entry app;
     resultado_text := resultado_text app;
     ventanas := ventanas app; dibujos := dibujos app |}.

Definition con_comp1_entry app s :=
  {| circuito_actual := circuito_actual app; analizador := analizador app;
     id_entry := id_entry app; tipo_combo := tipo_combo app;
     comp1_entry := s; comp2_entry := comp2_entry app;
     resistencia_entry := resistencia_entry app;
     resultado_text := resultado_text app;
     ventanas := ventanas app; dibujos := dibujos app |}.

Definition con_comp2_entry app s :=
  {| circuito_actual := circuito_actual app; analizador := analizador app;
     id_entry := id_entry app; tipo_combo := tipo_combo app;
     comp1_entry := comp1_entry app; comp2_entry := s;
     resistencia_entry := resistencia_entry app;
     resultado_text := resultado_text app;
     ventanas := ventanas app; dibujos := dibujos app |}.

Definition con_resistencia_entry app s :=
  {| circuito_actual := circuito_actual app; analizador := analizador app;
     id_entry := id_entry app; tipo_combo := tipo_combo app;
     comp1_entry := comp1_entry app; comp2_entry := comp2_entry app;
     resistencia_entry := s;
     resultado_text := resultado_text app;
     ventanas := ventanas app; dibujos := dibujos app |}.

Definition con_resultado_text app s :=
  {| circuito_actual := circuito_actual app; analizador := analizador app;
     id_entry := id_entry app; tipo_combo := tipo_combo app;
     comp1_entry := comp1_entry app; comp2_entry := comp2_entry app;
     resistencia_entry := resistencia_entry app;
     resultado_text := s;
     ventanas := ventanas app; dibujos := dibujos app |}.

Definition con_ventanas app v :=
  {| circuito_actual := circuito_actual app; analizador := analizador app;
     id_entry := id_entry app; tipo_combo := tipo_combo app;
     comp1_entry := comp1_entry app; comp2_entry := comp2_entry app;
     resistencia_entry := resistencia_entry app;
     resultado_text := resultado_text app;
     ventanas := v; dibujos := dibujos app |}.

Definition con_dibujos app d :=
  {| circuito_actual := circuito_actual app; analizador := analizador app;
     id_entry := id_entry app; tipo_combo := tipo_combo app;
     comp1_entry := comp1_entry app; comp2_entry := comp2_entry app;
     resistencia_entry := resistencia_entry app;
     resultado_text := resultado_text app;
     ventanas := ventanas app; dibujos := d |}.

(** A method of the application: it returns or raises, and leaves the
    application as the call left it. *)
Definition MA (A : Type) : Type :=
  AplicacionHamiltonianoCircuitos -> resultado A * AplicacionHamiltonianoCircuitos.

Definition reta {A : Type} (a : A) : MA A := fun app => (Retorna a, app).

Definition binda {A B : Type} (m : MA A) (k : A -> MA B) : MA B :=
  fun app =>
    match m app with
    | (Retorna a, app') => k a app'
    | (Lanza e, app') => (Lanza e, app')
    end.

Definition leera : MA AplicacionHamiltonianoCircuitos := fun app => (Retorna app, app).

Definition modificara
    (f : AplicacionHamiltonianoCircuitos -> AplicacionHamiltonianoCircuitos)
  : MA unit :=
  fun app => (Retorna tt, f app).

(** A method of [self.circuito_actual] (or of the analyser, whose circuit
    it is) called from the application. *)
Definition en_circuito {A : Type} (m : M N A) : MA A :=
  fun app =>
    let (r, c) := m (circuito_actual app) in (r, con_circuito_actual app c).

Notation "x <- m ;; k" := (binda m (fun x => k))
  (at level 61, m at next level, right associativity).
Notation "m ;; k" := (binda m (fun _ => k))
  (at level 61, right associativity).

(** [for x in xs: cuerpo(x)] *)
Fixpoint para {A : Type} (xs : list A) (cuerpo : A -> MA unit) : MA unit :=
  match xs with
  | [] => reta tt
  | x :: resto => cuerpo x ;; para resto cuerpo
  end.

Definition mostrar_ventana (v : ventana) : MA unit :=
  modificara (fun app => con_ventanas app (ventanas app ++ [v])).

(** [self.visualizador.dibujar_circuito(circuito, camino)]: the drawing
    itself is outside the model; what is recorded is what it was asked to
    draw. *)
Definition dibujar_circuito (circuito : CircuitoElectronico N)
    (camino_hamiltoniano : option (list Id)) : MA unit :=
  modificara (fun app =>
    con_dibujos app (dibujos app ++ [(circuito, camino_hamiltoniano)])).

Definition actualizar_visualizacion : MA unit :=
  app <- leera ;;
  dibujar_circuito (circuito_actual app) None.

Definition mostrar_resultado (texto : string) : MA unit :=
  modificara (fun app =>
    con_resultado_text app (resultado_text app ++ texto ++ nl)%string).

Definition limpiar_resultados : MA unit :=
  modificara (fun app => con_resultado_text app EmptyString).

(** [not s] for a text. *)
Definition vacio (s : string) : bool :=
  match s with
  | EmptyString => true
  | String _ _ => false
  end.

(** The methods of the circuit and of the analyser, under names that stay
    apart from the application's own methods of the same name. *)
Local Abbreviation circuito_agregar_componente := agregar_componente (only parsing).
Local Abbreviation circuito_agregar_conexion := agregar_conexion (only parsing).

(** ** The handlers *)

Definition agregar_componente : MA unit :=
  app <- leera ;;
  let id_comp := strip (id_entry app) in
  let tipo := tipo_combo app in
  if vacio id_comp || vacio tipo then
    mostrar_ventana (showerror "Error" "Debe especificar ID y tipo del componente")
  else if Dict.mem (componentes (circuito_actual app)) id_comp then
    mostrar_ventana
      (showerror "Error" ("El componente " ++ id_comp ++ " ya existe")%string)
  else
    en_circuito (circuito_agregar_componente id_comp tipo None) ;;
    actualizar_visualizacion ;;
    mostrar_resultado
      ("Componente " ++ id_comp ++ " (" ++ tipo ++ ") agregado exitosamente")%string ;;
    modificara (fun app => con_id_entry app EmptyString) ;;
    modificara (fun app => con_tipo_combo app EmptyString).

Definition agregar_conexion : MA unit :=
  app <- leera ;;
  let comp1 := strip (comp1_entry app) in
  let comp2 := strip (comp2_entry app) in
  match float_de (resistencia_entry app) with
  | None =>
      mostrar_ventana (showerror "Error" "La resistencia debe ser un número válido")
  | Some resistencia =>
      if vacio comp1 || vacio comp2 then
        mostrar_ventana (showerror "Error" "Debe especificar ambos componentes")
      else if negb (Dict.mem (componentes (circuito_actual app)) comp1)
              || negb (Dict.mem (componentes (circuito_actual app)) comp2) then
        mostrar_ventana
          (showerror "Error" "Ambos componentes deben existir en el circuito")
      else if String.eqb comp1 comp2 then
        mostrar_ventana
          (showerror "Error" "No se puede conectar un componente consigo mismo")
      else
        en_circuito (circuito_agregar_conexion comp1 comp2 resistencia) ;;
        actualizar_visualizacion ;;
        mostrar_resultado
          ("Conexión agregada entre " ++ comp1 ++ " y " ++ comp2
           ++ " (R=" ++ str_de resistencia ++ "Ω)")%string ;;
        modificara (fun app => con_comp1_entry app EmptyString) ;;
        modificara (fun app => con_comp2_entry app EmptyString) ;;
        modificara (fun app => con_resistencia_entry app EmptyString) ;;
        modificara (fun app => con_resistencia_entry app "1.0"%string)
  end.

Definition analizar_propiedades_circuito : MA unit :=
  app <- leera ;;
  para (propiedades_del_grafo (grafo (circuito_actual app))) mostrar_resultado.

(** [inicio] and [fin] are the two readings of [time.time()]. *)
Definition analizar_hamiltoniano (inicio fin : N) : MA unit :=
  app <- leera ;;
  if length (nx.nodes (grafo (circuito_actual app))) <? 2 then
    mostrar_ventana
      (showwarning "Advertencia" "El circuito debe tener al menos 2 componentes")
  else
    modificara (fun app => con_analizador app true) ;;
    camino <- en_circuito (encontrar_camino_hamiltoniano limite) ;;
    let tiempo_calculo := restar fin inicio in
    (if verdadero camino then
       match camino with
       | None => reta tt
       | Some camino =>
           mostrar_resultado "✓ CAMINO HAMILTONIANO ENCONTRADO" ;;
           mostrar_resultado ("Camino: " ++ String.concat " → " camino)%string ;;
           mostrar_resultado
             ("Longitud: " ++ str_nat (length camino) ++ " componentes")%string ;;
           mostrar_resultado
             ("Tiempo de cálculo: " ++ formato 4 tiempo_calculo ++ " segundos")%string ;;
           eficiencia <- en_circuito (calcular_eficiencia_energetica (Some camino)) ;;
           mostrar_resultado ("Eficiencia energética: " ++ formato 4 eficiencia)%string ;;
           app <- leera ;;
           dibujar_circuito (circuito_actual app) (Some camino)
       end
     else
       mostrar_resultado "✗ NO EXISTE CAMINO HAMILTONIANO" ;;
       mostrar_resultado
         "El circuito no puede ser recorrido visitando cada componente exactamente una vez" ;;
       actualizar_visualizacion) ;;
    analizar_propiedades_circuito.

Definition analizar_ciclo_hamiltoniano (inicio fin : N) : MA unit :=
  app <- leera ;;
  if length (nx.nodes (grafo (circuito_actual app))) <? 3 then
    mostrar_ventana
      (showwarning "Advertencia"
         "El circuito debe tener al menos 3 componentes para un ciclo")
  else
    modificara (fun app => con_analizador app true) ;;
    ciclo <- en_circuito (encontrar_ciclo_hamiltoniano limite) ;;
    let tiempo_calculo := restar fin inicio in
    if verdadero ciclo then
      match ciclo with
      | None => reta tt
      | Some ciclo =>
          mostrar_resultado "✓ CICLO HAMILTONIANO ENCONTRADO" ;;
          mostrar_resultado ("Ciclo: " ++ String.concat " → " ciclo)%string ;;
          mostrar_resultado
            ("Longitud: " ++ str_nat (length ciclo - 1) ++ " componentes únicos")%string ;;
          mostrar_resultado
            ("Tiempo de cálculo: " ++ formato 4 tiempo_calculo ++ " segundos")%string ;;
          eficiencia <- en_circuito (calcular_eficiencia_energetica (Some ciclo)) ;;
          mostrar_resultado ("Eficiencia energética: " ++ formato 4 eficiencia)%string ;;
          app <- leera ;;
          dibujar_circuito (circuito_actual app) (Some ciclo)
      end
    else
      mostrar_resultado "✗ NO EXISTE CICLO HAMILTONIANO" ;;
      mostrar_resultado
        "El circuito no puede formar un ciclo visitando cada componente exactamente una vez" ;;
      actualizar_visualizacion.

(** The line that names the tier of an efficiency. *)
Definition nivel_de_eficiencia (eficiencia : N) : string :=
  if mayor_que eficiencia siete_decimos then
    "✓ Circuito con ALTA eficiencia energética"
  else if mayor_que eficiencia cuatro_decimos then
    "⚠ Circuito con eficiencia energética MEDIA"
  else
    "✗ Circuito con BAJA eficiencia energética".

Definition calcular_eficiencia : MA unit :=
  app <- leera ;;
  (if negb (analizador app) then modificara (fun app => con_analizador app true)
   else reta tt) ;;
  camino <- en_circuito (encontrar_camino_hamiltoniano limite) ;;
  if negb (verdadero camino) then
    mostrar_ventana
      (showinfo "Información" "Primero debe encontrar un camino hamiltoniano")
  else
    match camino with
    | None => reta tt
    | Some camino =>
        eficiencia <- en_circuito (calcular_eficiencia_energetica (Some camino)) ;;
        resistencia_total <-
          en_circuito (bucle_resistencia camino (seq 0 (length camino - 1)) cero) ;;
        mostrar_resultado "=== ANÁLISIS DE EFICIENCIA ENERGÉTICA ===" ;;
        mostrar_resultado
          ("Resistencia total del camino: " ++ formato 2 resistencia_total ++ " Ω")%string ;;
        mostrar_resultado ("Eficiencia energética: " ++ formato 4 eficiencia)%string ;;
        mostrar_resultado
          ("Pérdida de potencia relativa: " ++ formato 4 (restar uno eficiencia))%string ;;
        mostrar_resultado (nivel_de_eficiencia eficiencia)
    end.

Definition nuevo_circuito : MA unit :=
  modificara (fun app =>
    con_circuito_actual app (CircuitoElectronico_init "Nuevo Circuito")) ;;
  modificara (fun app => con_analizador app false) ;;
  actualizar_visualizacion ;;
  limpiar_resultados.

Definition componentes_ejemplo : list (Id * string) :=
  [("R1", "Resistor"); ("R2", "Resistor"); ("C1", "Capacitor");
   ("L1", "Inductor"); ("T1", "Transistor"); ("VCC", "Fuente")]%string.

Definition conexiones_ejemplo : list (Id * Id * N) :=
  [("VCC", "R1", de_entero 10); ("R1", "C1", de_entero 5);
   ("C1", "L1", de_entero 3); ("L1", "T1", de_entero 8);
   ("T1", "R2", de_entero 6); ("R2", "VCC", de_entero 4)]%string.

Definition crear_circuito_ejemplo : MA unit :=
  nuevo_circuito ;;
  para componentes_ejemplo (fun '(id_comp, tipo) =>
    en_circuito (circuito_agregar_componente id_comp tipo None)) ;;
  para conexiones_ejemplo (fun '(comp1, comp2, resistencia) =>
    en_circuito (circuito_agregar_conexion comp1 comp2 resistencia)) ;;
  actualizar_visualizacion ;;
  mostrar_resultado "Circuito de ejemplo cargado exitosamente" ;;
  mostrar_resultado "Este circuito tiene un ciclo hamiltoniano".

(** [AplicacionHamiltonianoCircuitos(root)]: the widgets as [setup_ui]
    makes them, then the example circuit. *)
Definition AplicacionHamiltonianoCircuitos_init : AplicacionHamiltonianoCircuitos :=
  snd (crear_circuito_ejemplo
         {| circuito_actual := CircuitoElectronico_init "Circuito";
            analizador := false;
            id_entry := EmptyString;
            tipo_combo := EmptyString;
            comp1_entry := EmptyString;
            comp2_entry := EmptyString;
            resistencia_entry := "1.0";
            resultado_text := EmptyString;
            ventanas := [];
            dibujos := [] |}).

(** ** The event loop *)

(** What the user can do: change the text of a widget, or press a button
    (the two analysis buttons read the clock twice). *)
Inductive accion :=
| escribir_id (texto : string)
| elegir_tipo (texto : string)
| escribir_comp1 (texto : string)
| escribir_comp2 (texto : string)
| escribir_resistencia (texto : string)
| pulsar_agregar_componente
| pulsar_agregar_conexion
| pulsar_analizar_hamiltoniano (inicio fin : N)
| pulsar_analizar_ciclo_hamiltoniano (inicio fin : N)
| pulsar_calcular_eficiencia
| pulsar_nuevo_circuito
| pulsar_crear_circuito_ejemplo.

(** One turn of [mainloop]: an exception in a handler is reported by Tk and
    the loop goes on with the application as the handler left it. *)
Definition atender (app : AplicacionHamiltonianoCircuitos) (a : accion)
  : AplicacionHamiltonianoCircuitos :=
  match a with
  | escribir_id texto => con_id_entry app texto
  | elegir_tipo texto => con_tipo_combo app texto
  | escribir_comp1 texto => con_comp1_entry app texto
  | escribir_comp2 texto => con_comp2_entry app texto
  | escribir_resistencia texto => con_resistencia_entry app texto
  | pulsar_agregar_componente => snd (agregar_componente app)
  | pulsar_agregar_conexion => snd (agregar_conexion app)
  | pulsar_analizar_hamiltoniano inicio fin => snd (analizar_hamiltoniano inicio fin app)
  | pulsar_analizar_ciclo_hamiltoniano inicio fin =>
      snd (analizar_ciclo_hamiltoniano inicio fin app)
  | pulsar_calcular_eficiencia => snd (calcular_eficiencia app)
  | pulsar_nuevo_circuito => snd (nuevo_circuito app)
  | pulsar_crear_circuito_ejemplo => snd (crear_circuito_ejemplo app)
  end.

Definition mainloop (acciones : list accion) (app : AplicacionHamiltonianoCircuitos)
  : AplicacionHamiltonianoCircuitos :=
  fold_left atender acciones app.

(** ** What the interface lets into the circuit *)

(** A circuit as the interface keeps it: coherent, with exactly the
    components as nodes, in the same order, no node joined to itself and
    no component with an empty id. *)
Record circuito_de_interfaz (c : CircuitoElectronico N) : Prop := {
  interfaz_coherente : circuito_coherente c;
  nodos_son_componentes : nx.nodes (grafo c) = Dict.keys (componentes c);
  sin_lazos : forall a, nx.has_edge (grafo c) a a = false;
  ids_no_vacios : forall a, Dict.mem (componentes c) a = true -> a <> EmptyString
}.

Lemma interfaz_init (nombre : string) :
  circuito_de_interfaz (CircuitoElectronico_init nombre).
Proof.
  split.
  - apply coherente_init.
  - reflexivity.
  - reflexivity.
  - discriminate.
Qed.

Lemma mem_grafo_componentes (c : CircuitoElectronico N) (a : Id) :
  circuito_de_interfaz c -> Dict.mem (grafo c) a = Dict.mem (componentes c) a.
Proof.
  intros Hc. destruct (Dict.mem (componentes c) a) eqn:E.
  - apply mem_nodes. rewrite (nodos_son_componentes Hc). now apply Dict.mem_keys.
  - destruct (Dict.mem (grafo c) a) eqn:E'; [|reflexivity].
    apply mem_nodes in E'. rewrite (nodos_son_componentes Hc) in E'.
    apply Dict.mem_keys in E'. congruence.
Qed.

(** A component call the interface lets through keeps the circuit as the
    interface keeps it. *)
Lemma paso_componente (c : CircuitoElectronico N) (id_comp : Id) (tipo : string) :
  circuito_de_interfaz c ->
  id_comp <> EmptyString ->
  Dict.mem (componentes c) id_comp = false ->
  circuito_de_interfaz (snd (circuito_agregar_componente id_comp tipo None c)).
Proof.
  intros Hc Hid Hnew.
  destruct (agregar_componente_estado c id_comp tipo None) as [Hn [He [Hk Hx]]].
  split.
  - apply llamada_coherente; [constructor | apply (interfaz_coherente Hc)].
  - rewrite Hn, Hk, add_node_nodes, (mem_grafo_componentes id_comp Hc), Hnew.
    rewrite Dict.keys_set_absent by assumption.
    now rewrite (nodos_son_componentes Hc).
  - intro a. rewrite He. apply (sin_lazos Hc).
  - intros a. rewrite Hk. intro Ha.
    destruct (key_eqb_spec id_comp a) as [<-|Hne]; [assumption|].
    rewrite Dict.mem_set_other in Ha by assumption. now apply (ids_no_vacios Hc).
Qed.

(** So does a connection call the interface lets through. *)
Lemma paso_conexion (c : CircuitoElectronico N) (comp1 comp2 : Id) (resistencia : N) :
  circuito_de_interfaz c ->
  Dict.mem (componentes c) comp1 = true ->
  Dict.mem (componentes c) comp2 = true ->
  comp1 <> comp2 ->
  circuito_de_interfaz (snd (circuito_agregar_conexion comp1 comp2 resistencia c)).
Proof.
  intros Hc H1 H2 Hne. rewrite agregar_conexion_estado. split; cbn [grafo componentes].
  - rewrite <- agregar_conexion_estado.
    apply llamada_coherente; [constructor | apply (interfaz_coherente Hc)].
  - rewrite nodes_add_edge.
    rewrite <- (mem_grafo_componentes comp1 Hc) in H1.
    rewrite <- (mem_grafo_componentes comp2 Hc) in H2.
    rewrite (add_node_idem _ _ H1), (add_node_idem _ _ H2).
    apply (nodos_son_componentes Hc).
  - intro a. destruct (nx.has_edge (nx.add_edge (grafo c) comp1 comp2) a a) eqn:E;
      [|reflexivity].
    apply has_edge_add_edge in E. destruct E as [E|[[-> E]|[-> E]]].
    + now rewrite (sin_lazos Hc) in E.
    + congruence.
    + congruence.
  - apply (ids_no_vacios Hc).
Qed.

(** Which methods of the application leave the circuit alone. *)
Definition conserva_circuito {A : Type} (m : MA A) : Prop :=
  forall app, circuito_actual (snd (m app)) = circuito_actual app.

Lemma conserva_reta {A : Type} (a : A) : conserva_circuito (reta a).
Proof. intro app. reflexivity. Qed.

Lemma conserva_leera : conserva_circuito leera.
Proof. intro app. reflexivity. Qed.

Lemma conserva_binda {A B : Type} (m : MA A) (k : A -> MA B) :
  conserva_circuito m -> (forall a, conserva_circuito (k a)) ->
  conserva_circuito (binda m k).
Proof.
  intros Hm Hk app. unfold binda. specialize (Hm app).
  destruct (m app) as [[a|e] app']; simpl in *.
  - now rewrite Hk.
  - exact Hm.
Qed.

Lemma conserva_mostrar_ventana (v : ventana) : conserva_circuito (mostrar_ventana v).
Proof. intro app. reflexivity. Qed.

Lemma conserva_dibujar_circuito c camino : conserva_circuito (dibujar_circuito c camino).
Proof. intro app. reflexivity. Qed.

Lemma conserva_mostrar_resultado (texto : string) :
  conserva_circuito (mostrar_resultado texto).
Proof. intro app. reflexivity. Qed.

Lemma conserva_actualizar_visualizacion : conserva_circuito actualizar_visualizacion.
Proof. intro app. reflexivity. Qed.

Lemma conserva_con_analizador (b : bool) :
  conserva_circuito (modificara (fun app => con_analizador app b)).
Proof. intro app. reflexivity. Qed.

Lemma conserva_para {A : Type} (xs : list A) (cuerpo : A -> MA unit) :
  (forall x, conserva_circuito (cuerpo x)) -> conserva_circuito (para xs cuerpo).
Proof.
  intro Hc. induction xs as [|x xs IH]; simpl.
  - apply conserva_reta.
  - apply conserva_binda; [apply Hc | intros _; exact IH].
Qed.

Lemma conserva_en_circuito {A : Type} (m : M N A) :
  solo_lectura m -> conserva_circuito (en_circuito m).
Proof.
  intros Hm app. unfold en_circuito. specialize (Hm (circuito_actual app)).
  destruct (m (circuito_actual app)) as [r c]. exact Hm.
Qed.

Create HintDb conserva.
#[local] Hint Resolve conserva_reta conserva_leera conserva_mostrar_ventana
  conserva_dibujar_circuito conserva_mostrar_resultado
  conserva_actualizar_visualizacion conserva_con_analizador
  solo_lectura_encontrar_camino solo_lectura_encontrar_ciclo
  solo_lectura_calcular_eficiencia solo_lectura_bucle_resistencia : conserva.

Ltac conserva :=
  repeat first
    [ apply conserva_binda; [|intro]
    | apply conserva_en_circuito
    | apply conserva_para; intro
    | solve [auto with conserva]
    | match goal with
      | |- conserva_circuito (if ?b then _ else _) => destruct b
      | |- conserva_circuito (match ?x with _ => _ end) => destruct x
      end ].

Lemma conserva_analizar_propiedades_circuito :
  conserva_circuito analizar_propiedades_circuito.
Proof. unfold analizar_propiedades_circuito. conserva. Qed.

Lemma conserva_analizar_hamiltoniano (inicio fin : N) :
  conserva_circuito (analizar_hamiltoniano inicio fin).
Proof.
  unfold analizar_hamiltoniano. conserva.
Qed.

Lemma conserva_analizar_ciclo_hamiltoniano (inicio fin : N) :
  conserva_circuito (analizar_ciclo_hamiltoniano inicio fin).
Proof. unfold analizar_ciclo_hamiltoniano. conserva. Qed.

Lemma conserva_calcular_eficiencia : conserva_circuito calcular_eficiencia.
Proof. unfold calcular_eficiencia. conserva. Qed.

(** The circuit after the two handlers that change it: as it was when the
    handler refuses, and as the circuit's own method leaves it otherwise. *)
Lemma agregar_componente_circuito (app : AplicacionHamiltonianoCircuitos) :
  circuito_actual (snd (agregar_componente app)) =
  let id_comp := strip (id_entry app) in
  let tipo := tipo_combo app in
  if (vacio id_comp || vacio tipo)
     || Dict.mem (componentes (circuito_actual app)) id_comp
  then circuito_actual app
  else snd (circuito_agregar_componente id_comp tipo None (circuito_actual app)).
Proof.
  cbv zeta. unfold agregar_componente, binda, leera. cbn [fst snd].
  destruct (vacio (strip (id_entry app)) || vacio (tipo_combo app)); [reflexivity|].
  cbn [orb].
  destruct (Dict.mem (componentes (circuito_actual app)) (strip (id_entry app)));
    reflexivity.
Qed.

Lemma agregar_conexion_circuito (app : AplicacionHamiltonianoCircuitos) :
  circuito_actual (snd (agregar_conexion app)) =
  let comp1 := strip (comp1_entry app) in
  let comp2 := strip (comp2_entry app) in
  match float_de (resistencia_entry app) with
  | None => circuito_actual app
  | Some resistencia =>
      if (vacio comp1 || vacio comp2)
         || (negb (Dict.mem (componentes (circuito_actual app)) comp1)
             || negb (Dict.mem (componentes (circuito_actual app)) comp2))
         || String.eqb comp1 comp2
      then circuito_actual app
      else snd (circuito_agregar_conexion comp1 comp2 resistencia (circuito_actual app))
  end.
Proof.
  cbv zeta. unfold agregar_conexion, binda, leera. cbn [fst snd].
  destruct (float_de (resistencia_entry app)) as [resistencia|]; [|reflexivity].
  destruct (vacio (strip (comp1_entry app)) || vacio (strip (comp2_entry app)));
    [reflexivity|].
  cbn [orb].
  destruct (negb (Dict.mem (componentes (circuito_actual app)) (strip (comp1_entry app)))
            || negb (Dict.mem (componentes (circuito_actual app))
                       (strip (comp2_entry app)))); [reflexivity|].
  cbn [orb].
  destruct (String.eqb (strip (comp1_entry app)) (strip (comp2_entry app)));
    reflexivity.
Qed.

(** The circuit [crear_circuito_ejemplo] leaves, whatever was there. *)
Definition circuito_de_ejemplo : CircuitoElectronico N :=
  construir
    [circuito_agregar_componente "R1" "Resistor" None;
     circuito_agregar_componente "R2" "Resistor" None;
     circuito_agregar_componente "C1" "Capacitor" None;
     circuito_agregar_componente "L1" "Inductor" None;
     circuito_agregar_componente "T1" "Transistor" None;
     circuito_agregar_componente "VCC" "Fuente" None;
     circuito_agregar_conexion "VCC" "R1" (de_entero 10);
     circuito_agregar_conexion "R1" "C1" (de_entero 5);
     circuito_agregar_conexion "C1" "L1" (de_entero 3);
     circuito_agregar_conexion "L1" "T1" (de_entero 8);
     circuito_agregar_conexion "T1" "R2" (de_entero 6);
     circuito_agregar_conexion "R2" "VCC" (de_entero 4)]%string
    (CircuitoElectronico_init "Nuevo Circuito").

Lemma crear_circuito_ejemplo_circuito (app : AplicacionHamiltonianoCircuitos) :
  circuito_actual (snd (crear_circuito_ejemplo app)) = circuito_de_ejemplo.
Proof. vm_compute. reflexivity. Qed.

Lemma interfaz_ejemplo : circuito_de_interfaz circuito_de_ejemplo.
Proof.
  unfold circuito_de_ejemplo, construir. cbn [fold_left].
  repeat (apply paso_conexion;
          [ | vm_compute; reflexivity | vm_compute; reflexivity | discriminate ]).
  repeat (apply paso_componente; [ | discriminate | vm_compute; reflexivity ]).
  apply interfaz_init.
Qed.

Lemma atender_interfaz (app : AplicacionHamiltonianoCircuitos) (a : accion) :
  circuito_de_interfaz (circuito_actual app) ->
  circuito_de_interfaz (circuito_actual (atender app a)).
Proof.
  intro Hc. destruct a; cbn [atender]; try exact Hc.
  - rewrite agregar_componente_circuito. cbv zeta.
    destruct (vacio (strip (id_entry app))) eqn:Ev; [exact Hc|].
    destruct (vacio (tipo_combo app)); [exact Hc|]. cbn [orb].
    destruct (Dict.mem (componentes (circuito_actual app)) (strip (id_entry app)))
      eqn:Em; [exact Hc|].
    apply paso_componente; try assumption.
    intro Hid. rewrite Hid in Ev. discriminate.
  - rewrite agregar_conexion_circuito. cbv zeta.
    destruct (float_de (resistencia_entry app)) as [resistencia|]; [|exact Hc].
    destruct (vacio (strip (comp1_entry app)) || vacio (strip (comp2_entry app)));
      [exact Hc|]. cbn [orb].
    destruct (Dict.mem (componentes (circuito_actual app)) (strip (comp1_entry app)))
      eqn:E1; [|exact Hc].
    destruct (Dict.mem (componentes (circuito_actual app)) (strip (comp2_entry app)))
      eqn:E2; [|exact Hc]. cbn [negb orb].
    destruct (String.eqb_spec (strip (comp1_entry app)) (strip (comp2_entry app)))
      as [Heq|Hne]; [exact Hc|].
    now apply paso_conexion.
  - now rewrite conserva_analizar_hamiltoniano.
  - now rewrite conserva_analizar_ciclo_hamiltoniano.
  - now rewrite conserva_calcular_eficiencia.
  - apply interfaz_init.
  - rewrite crear_circuito_ejemplo_circuito. apply interfaz_ejemplo.
Qed.

Lemma mainloop_interfaz (acciones : list accion) :
  forall app,
    circuito_de_interfaz (circuito_actual app) ->
    circuito_de_interfaz (circuito_actual (mainloop acciones app)).
Proof.
  induction acciones as [|a acciones IH]; intros app Hc; [exact Hc|].
  unfold mainloop. simpl. apply IH. now apply atender_interfaz.
Qed.


(** ** What the analysis handlers show *)

(** A read-only method of the circuit, called from the application,
    leaves the application as it was. *)
Lemma en_circuito_lectura {A : Type} (m : M N A)
    (app : AplicacionHamiltonianoCircuitos) :
  solo_lectura m ->
  en_circuito m app = (fst (m (circuito_actual app)), app).
Proof.
  intro Hm. unfold en_circuito. specialize (Hm (circuito_actual app)).
  destruct (m (circuito_actual app)) as [r c]. simpl in *. subst c.
  now destruct app.
Qed.

(** What one call of [analizar_ciclo_hamiltoniano] hands to the drawing:
    nothing or one request; a request is for the circuit on screen, which
    then has at least 3 nodes, and a cycle in it is the one the cycle search
    returned. *)
Lemma analizar_ciclo_dibujos (app : AplicacionHamiltonianoCircuitos) (inicio fin : N) :
  exists ds,
    dibujos (snd (analizar_ciclo_hamiltoniano inicio fin app)) = dibujos app ++ ds /\
    length ds <= 1 /\
    forall d, In d ds ->
      3 <= length (nx.nodes (grafo (circuito_actual app))) /\
      fst d = circuito_actual app /\
      forall ciclo, snd d = Some ciclo ->
        fst (encontrar_ciclo_hamiltoniano limite (circuito_actual app))
        = Retorna (Some ciclo).
Proof.
  assert (Hnada : forall app' : AplicacionHamiltonianoCircuitos,
            dibujos app' = dibujos app ->
            exists ds,
              dibujos app' = dibujos app ++ ds /\ length ds <= 1 /\
              forall d, In d ds ->
                3 <= length (nx.nodes (grafo (circuito_actual app))) /\
                fst d = circuito_actual app /\
                forall ciclo, snd d = Some ciclo ->
                  fst (encontrar_ciclo_hamiltoniano limite (circuito_actual app))
                  = Retorna (Some ciclo)).
  { intros app' Hd. exists []. rewrite app_nil_r. split; [exact Hd|].
    split; [simpl; lia | intros d []]. }
  unfold analizar_ciclo_hamiltoniano, binda at 1, leera. cbn [fst snd].
  destruct (length (nx.nodes (grafo (circuito_actual app))) <? 3) eqn:Eg.
  { now apply Hnada. }
  apply Nat.ltb_ge in Eg. unfold binda at 1, modificara.
  unfold binda at 1. rewrite en_circuito_lectura by apply solo_lectura_encontrar_ciclo.
  cbn [circuito_actual con_analizador fst snd].
  destruct (fst (encontrar_ciclo_hamiltoniano limite (circuito_actual app)))
    as [[[|x ciclo]|]|e] eqn:Ec; cbn [verdadero].
  - cbn. exists [(circuito_actual app, None)]. split; [reflexivity|].
    split; [simpl; lia|]. intros d [<-|[]]. repeat split; auto. discriminate.
  - unfold binda, mostrar_resultado, modificara. cbn [fst snd].
    rewrite en_circuito_lectura by apply solo_lectura_calcular_eficiencia.
    cbn [circuito_actual con_analizador con_resultado_text fst snd].
    destruct (fst (calcular_eficiencia_energetica (Some (x :: ciclo)) (circuito_actual app)))
      as [ef|e]; cbn.
    + exists [(circuito_actual app, Some (x :: ciclo))]. split; [reflexivity|].
      split; [simpl; lia|]. intros d [<-|[]]. repeat split; auto.
      now intros ? [= <-].
    + now apply Hnada.
  - cbn. exists [(circuito_actual app, None)]. split; [reflexivity|].
    split; [simpl; lia|]. intros d [<-|[]]. repeat split; auto. discriminate.
  - cbn. now apply Hnada.
Qed.

(** [analizar_ciclo_hamiltoniano] asks for at most one drawing per call.
    On a circuit as the interface keeps it, what it asks for is a drawing
    of the circuit on screen, and a cycle it hands to the drawing is a
    Hamiltonian cycle of at least 3 different components: a Hamiltonian
    path followed by its first node.  The two- and three-element sequences
    the cycle search returns for one and two nodes are never shown. *)
Theorem ciclo_mostrado_es_hamiltoniano (app : AplicacionHamiltonianoCircuitos)
    (inicio fin : N) :
  circuito_de_interfaz (circuito_actual app) ->
  exists ds,
    dibujos (snd (analizar_ciclo_hamiltoniano inicio fin app)) = dibujos app ++ ds /\
    length ds <= 1 /\
    forall d, In d ds ->
      fst d = circuito_actual app /\
      forall ciclo, snd d = Some ciclo ->
        exists p l,
          ciclo = (p :: l) ++ [p] /\
          camino_hamiltoniano (grafo (circuito_actual app)) (p :: l) /\
          3 <= length (p :: l).
Proof.
  intros Hc. destruct (analizar_ciclo_dibujos app inicio fin) as [ds [Hds [Hlen Hd]]].
  exists ds. split; [exact Hds|]. split; [exact Hlen|].
  intros d Hin. destruct (Hd d Hin) as [Hn [Hfst Hciclo]]. split; [exact Hfst|].
  intros ciclo Hs. apply Hciclo in Hs.
  destruct (encontrar_ciclo_forma _ _ Hs) as [p [l [Hp [_ ->]]]].
  apply encontrar_camino_es_hamiltoniano in Hp.
  - exists p, l. split; [reflexivity|]. split; [exact Hp|].
    destruct Hp as [_ [Hl _]]. rewrite Hl. exact Hn.
  - apply (vecinos_son_nodos (interfaz_coherente Hc)).
  - apply (nodos_unicos (interfaz_coherente Hc)).
Qed.

(** A text as [mostrar_resultado] adds it to the result area. *)
Definition linea (texto : string) : string := (texto ++ nl)%string.

(** The five lines of the efficiency report for a total resistance and an
    efficiency. *)
Definition informe_eficiencia (resistencia_total eficiencia : N) : list string :=
  ["=== ANÁLISIS DE EFICIENCIA ENERGÉTICA ===";
   "Resistencia total del camino: " ++ formato 2 resistencia_total ++ " Ω";
   "Eficiencia energética: " ++ formato 4 eficiencia;
   "Pérdida de potencia relativa: " ++ formato 4 (restar uno eficiencia);
   nivel_de_eficiencia eficiencia]%string.

Lemma bucle_resistencia_total (c : CircuitoElectronico N) (camino : list Id) :
  camino <> [] ->
  fst (bucle_resistencia camino (seq 0 (length camino - 1)) cero c)
  = Retorna (totalWeight (conexiones c) camino).
Proof.
  intro Hne. rewrite bucle_resistencia_ecuacion.
  - reflexivity.
  - destruct camino; [congruence | simpl; lia].
Qed.

(** The result area after [calcular_eficiencia], read off the results of
    the search and of the evaluator. *)
Lemma calcular_eficiencia_texto (app : AplicacionHamiltonianoCircuitos) :
  resultado_text (snd (calcular_eficiencia app)) =
  match fst (encontrar_camino_hamiltoniano limite (circuito_actual app)) with
  | Retorna (Some (x :: camino)) =>
      match
        fst (calcular_eficiencia_energetica (Some (x :: camino)) (circuito_actual app))
      with
      | Retorna eficiencia =>
          fold_left (fun texto l => (texto ++ linea l)%string)
            (informe_eficiencia
               (totalWeight (conexiones (circuito_actual app)) (x :: camino))
               eficiencia)
            (resultado_text app)
      | Lanza _ => resultado_text app
      end
  | _ => resultado_text app
  end.
Proof.
  unfold calcular_eficiencia, binda at 1, leera. cbn [fst snd].
  assert (Hpaso : forall app',
    circuito_actual app' = circuito_actual app ->
    resultado_text app' = resultado_text app ->
    resultado_text
      (snd ((camino <- en_circuito (encontrar_camino_hamiltoniano limite) ;;
             if negb (verdadero camino) then
               mostrar_ventana
                 (showinfo "Información" "Primero debe encontrar un camino hamiltoniano")
             else
               match camino with
               | None => reta tt
               | Some camino =>
                   eficiencia <-
                     en_circuito (calcular_eficiencia_energetica (Some camino)) ;;
                   resistencia_total <-
                     en_circuito
                       (bucle_resistencia camino (seq 0 (length camino - 1)) cero) ;;
                   mostrar_resultado "=== ANÁLISIS DE EFICIENCIA ENERGÉTICA ===" ;;
                   mostrar_resultado
                     ("Resistencia total del camino: "
                      ++ formato 2 resistencia_total ++ " Ω")%string ;;
                   mostrar_resultado
                     ("Eficiencia energética: " ++ formato 4 eficiencia)%string ;;
                   mostrar_resultado
                     ("Pérdida de potencia relativa: "
                      ++ formato 4 (restar uno eficiencia))%string ;;
                   mostrar_resultado (nivel_de_eficiencia eficiencia)
               end) app')) =
    match fst (encontrar_camino_hamiltoniano limite (circuito_actual app)) with
    | Retorna (Some (x :: camino)) =>
        match
          fst (calcular_eficiencia_energetica (Some (x :: camino)) (circuito_actual app))
        with
        | Retorna eficiencia =>
            fold_left (fun texto l => (texto ++ linea l)%string)
              (informe_eficiencia
                 (totalWeight (conexiones (circuito_actual app)) (x :: camino))
                 eficiencia)
              (resultado_text app)
        | Lanza _ => resultado_text app
        end
    | _ => resultado_text app
    end).
  { intros app' Hc Ht. unfold binda at 1.
    rewrite en_circuito_lectura by apply solo_lectura_encontrar_camino.
    rewrite Hc.
    destruct (fst (encontrar_camino_hamiltoniano limite (circuito_actual app)))
      as [[[|x camino]|]|e]; cbn [verdadero negb]; try exact Ht.
    unfold binda at 1.
    rewrite en_circuito_lectura by apply solo_lectura_calcular_eficiencia.
    rewrite Hc.
    destruct (fst (calcular_eficiencia_energetica (Some (x :: camino))
                     (circuito_actual app))) as [eficiencia|e]; [|exact Ht].
    unfold binda at 1.
    rewrite en_circuito_lectura by apply solo_lectura_bucle_resistencia.
    rewrite Hc, bucle_resistencia_total by discriminate.
    cbn. now rewrite Ht. }
  destruct (analizador app); cbn [negb]; unfold binda at 1; cbn [fst snd];
    apply Hpaso; reflexivity.
Qed.

(** The efficiency report.  When the search finds a path and the evaluator
    returns, [calcular_eficiencia] adds five lines to the result area: the
    heading, the total resistance, the efficiency, one minus the efficiency
    and the tier.  The total shown is the total weight of the path that was
    found and the efficiency shown is the evaluator's for that path, so the
    two always belong together.  When the evaluator raises (a total of
    -1.0), or the search raises or finds no path, nothing is added.  For a
    circuit of a single component the total shown is 0 and the efficiency
    shown is 0 as well, with the tier that 0 falls in. *)
Theorem informe_de_eficiencia (app : AplicacionHamiltonianoCircuitos) :
  (forall camino,
     fst (encontrar_camino_hamiltoniano limite (circuito_actual app))
       = Retorna (Some camino) ->
     camino <> [] ->
     resultado_text (snd (calcular_eficiencia app)) =
     match fst (calcular_eficiencia_energetica (Some camino) (circuito_actual app)) with
     | Retorna eficiencia =>
         fold_left (fun texto l => (texto ++ linea l)%string)
           (informe_eficiencia (totalWeight (conexiones (circuito_actual app)) camino)
              eficiencia)
           (resultado_text app)
     | Lanza _ => resultado_text app
     end) /\
  (fst (encontrar_camino_hamiltoniano limite (circuito_actual app)) = Retorna None \/
   fst (encontrar_camino_hamiltoniano limite (circuito_actual app)) = Retorna (Some []) \/
   (exists e, fst (encontrar_camino_hamiltoniano limite (circuito_actual app)) = Lanza e) ->
   resultado_text (snd (calcular_eficiencia app)) = resultado_text app) /\
  (forall a,
     nx.nodes (grafo (circuito_actual app)) = [a] ->
     resultado_text (snd (calcular_eficiencia app)) =
     fold_left (fun texto l => (texto ++ linea l)%string)
       (informe_eficiencia cero cero) (resultado_text app)).
Proof.
  split; [|split].
  - intros camino Hcam Hne. rewrite calcular_eficiencia_texto, Hcam.
    destruct camino; [congruence | reflexivity].
  - intros [Hr|[Hr|[e Hr]]]; rewrite calcular_eficiencia_texto, Hr; reflexivity.
  - intros a Hn. rewrite calcular_eficiencia_texto.
    rewrite encontrar_camino_corto by (rewrite Hn; simpl; lia). now rewrite Hn.
Qed.

End Aplicacion.
End Aplicacion.

(** ** The handlers on the example *)

(** The application as it starts, with Python floats; no formatting. *)
Definition aplicacion_inicial : @Aplicacion.AplicacionHamiltonianoCircuitos float :=
  Aplicacion.AplicacionHamiltonianoCircuitos_init.

Definition sin_formato : nat -> float -> string := fun _ _ => EmptyString.

Lemma aplicacion_inicial_interfaz :
  Aplicacion.circuito_de_interfaz (Aplicacion.circuito_actual aplicacion_inicial).
Proof.
  unfold aplicacion_inicial, Aplicacion.AplicacionHamiltonianoCircuitos_init.
  rewrite Aplicacion.crear_circuito_ejemplo_circuito.
  apply Aplicacion.interfaz_ejemplo.
Qed.

Lemma ciclo_mostrado_es_hamiltoniano_testigo :
  exists ds,
    Aplicacion.dibujos
      (snd (Aplicacion.analizar_ciclo_hamiltoniano sin_formato 1000 0%float 0%float
              aplicacion_inicial))
    = Aplicacion.dibujos aplicacion_inicial ++ ds /\
    length ds <= 1 /\
    forall d, In d ds ->
      fst d = Aplicacion.circuito_actual aplicacion_inicial /\
      forall ciclo, snd d = Some ciclo ->
        exists p l,
          ciclo = (p :: l) ++ [p] /\
          camino_hamiltoniano (grafo (Aplicacion.circuito_actual aplicacion_inicial))
            (p :: l) /\
          3 <= length (p :: l).
Proof.
  apply (Aplicacion.ciclo_mostrado_es_hamiltoniano sin_formato 1000 aplicacion_inicial
           0%float 0%float).
  apply aplicacion_inicial_interfaz.
Defined.

Lemma informe_de_eficiencia_testigo :
  Aplicacion.resultado_text
    (snd (Aplicacion.calcular_eficiencia sin_formato 1000 aplicacion_inicial)) =
  match
    fst (calcular_eficiencia_energetica
           (Some ["R1"; "VCC"; "R2"; "T1"; "L1"; "C1"]%string)
           (Aplicacion.circuito_actual aplicacion_inicial))
  with
  | Retorna eficiencia =>
      fold_left (fun texto l => (texto ++ Aplicacion.linea l)%string)
        (Aplicacion.informe_eficiencia sin_formato
           (totalWeight (conexiones (Aplicacion.circuito_actual aplicacion_inicial))
              ["R1"; "VCC"; "R2"; "T1"; "L1"; "C1"]%string)
           eficiencia)
        (Aplicacion.resultado_text aplicacion_inicial)
  | Lanza _ => Aplicacion.resultado_text aplicacion_inicial
  end.
Proof.
  apply (proj1 (Aplicacion.informe_de_eficiencia sin_formato 1000 aplicacion_inicial)).
  - vm_compute. reflexivity.
  - discriminate.
Defined.

(** ** The tiers, by total resistance *)


